(** * Sparse recovery by accelerated proximal gradient descent

    A shallow embedding of the numerical core of the two notebooks: the
    group soft-thresholding operator [prox12norm], the accelerated
    proximal gradient solver [apgd], the bisection-tuned constrained solver
    [lscgnm] and the block driver [apgd_driver]; and of what surrounds it:
    the preprocessing ([rescale_audio], [get_audio_chunks]), the dictionary
    [get_A], the sweep [lscgnm_driver] and the values drawn by
    [generate_spectograms].

    Scalars are IEEE 754 binary64 values (Rocq's primitive [float], the
    format of Python's [float] and numpy's [float64]); one-dimensional
    arrays are lists of such values.  Python exceptions are results of an
    outcome monad; the two [while] loops of [lscgnm] run on fuel. *)

From Stdlib Require Import ZArith List Floats Lia Bool PeanoNat Zpower.
Import ListNotations.

Set Warnings "-inexact-float".

(** ** Outcomes of Python calls *)

Inductive exn : Set :=
| TypeError      (* range() applied to a float *)
| ValueError     (* reshape or broadcast of incompatible shapes *)
| NameError      (* a local variable read before assignment *)
| OverflowError  (* a Python int too large to convert to float *)
| ZeroDivisionError (* a Python float divided by zero *)
| LinAlgError.   (* raised by a LAPACK-backed numpy routine *)

Inductive outcome (A : Type) : Type :=
| Ok (a : A)
| Raise (e : exn)
| OutOfFuel.

Arguments Ok {A} a.
Arguments Raise {A} e.
Arguments OutOfFuel {A}.

Definition bind {A B : Type} (c : outcome A) (k : A -> outcome B) : outcome B :=
  match c with
  | Ok a => k a
  | Raise e => Raise e
  | OutOfFuel => OutOfFuel
  end.

Declare Scope outcome_scope.
Delimit Scope outcome_scope with outcome.
Notation "x <- c ;; k" := (bind c (fun x => k))
  (at level 61, c at next level, right associativity) : outcome_scope.
Notation "' p <- c ;; k" := (bind c (fun v => let p := v in k))
  (at level 61, p pattern, c at next level, right associativity) : outcome_scope.
Open Scope outcome_scope.

(** ** Python numbers

    An argument such as [maxit] or [gamma] is a Python [int] (unbounded) or a
    [float]. *)

Inductive pynum : Set :=
| PInt (n : Z)
| PFloat (f : float).

(** The binary64 value nearest to [n * 2 ^ e] (ties to even), infinite when
    out of range. *)
Definition round_int (n e : Z) : float :=
  SF2Prim (binary_normalize prec emax n e false).

(** [float(n)] for a Python int: round to nearest even, [OverflowError] when
    the rounded value is not finite. *)
Definition float_of_int (n : Z) : outcome float :=
  let f := round_int n 0 in
  if is_infinity f then Raise OverflowError else Ok f.

(** [n / 2] for a Python int [n] (true division, correctly rounded). *)
Definition int_half (n : Z) : outcome float :=
  let f := round_int n (-1) in
  if is_infinity f then Raise OverflowError else Ok f.

(** [a + b] and [a - b]: exact on two ints, binary64 otherwise, the int
    operand converted first. *)
Definition py_add (a b : pynum) : outcome pynum :=
  match a, b with
  | PInt m, PInt n => Ok (PInt (m + n))
  | PInt m, PFloat g => f <- float_of_int m ;; Ok (PFloat (f + g))
  | PFloat f, PInt n => g <- float_of_int n ;; Ok (PFloat (f + g))
  | PFloat f, PFloat g => Ok (PFloat (f + g))
  end.

Definition py_sub (a b : pynum) : outcome pynum :=
  match a, b with
  | PInt m, PInt n => Ok (PInt (m - n))
  | PInt m, PFloat g => f <- float_of_int m ;; Ok (PFloat (f - g))
  | PFloat f, PInt n => g <- float_of_int n ;; Ok (PFloat (f - g))
  | PFloat f, PFloat g => Ok (PFloat (f - g))
  end.

(** [a / 2]: always a float. *)
Definition py_half (a : pynum) : outcome float :=
  match a with
  | PInt n => int_half n
  | PFloat f => Ok (f / 2)%float
  end.

(** [a * s] for a binary64 [s]. *)
Definition py_mul_float (a : pynum) (s : float) : outcome float :=
  match a with
  | PInt n => f <- float_of_int n ;; Ok (f * s)%float
  | PFloat f => Ok (f * s)%float
  end.

(** Comparison of a Python int with a float is exact: no conversion of the
    int takes place. *)
Definition compare_int_float (n : Z) (f : float) : option comparison :=
  match Prim2SF f with
  | S754_nan => None
  | S754_infinity s => Some (if s then Gt else Lt)
  | S754_zero _ => Some (n ?= 0)%Z
  | S754_finite s m e =>
      let v := cond_Zopp s (Zpos m) in
      Some match e with
           | Zneg p => (n * 2 ^ Zpos p ?= v)%Z
           | _ => (n ?= v * 2 ^ e)%Z
           end
  end.

Definition py_compare (a b : pynum) : option comparison :=
  match a, b with
  | PInt m, PInt n => Some (m ?= n)%Z
  | PInt m, PFloat g => compare_int_float m g
  | PFloat f, PInt n => option_map CompOpp (compare_int_float n f)
  | PFloat f, PFloat g =>
      match (f ?= g)%float with
      | FEq => Some Eq
      | FLt => Some Lt
      | FGt => Some Gt
      | FNotComparable => None
      end
  end.

(** [a > b] and [a <= b] *)
Definition py_gtb (a b : pynum) : bool :=
  match py_compare a b with Some Gt => true | _ => false end.

Definition py_leb (a b : pynum) : bool :=
  match py_compare a b with Some (Lt | Eq) => true | _ => false end.

(** [range(n)]: a float argument is a [TypeError]; a non-positive int gives
    the empty range.  The result is the number of iterations. *)
Definition py_range (n : pynum) : outcome nat :=
  match n with
  | PInt k => Ok (Z.to_nat k)
  | PFloat _ => Raise TypeError
  end.

(** ** One-dimensional arrays *)

Definition vec : Set := list float.

Definition zeros (n : nat) : vec := repeat 0%float n.

Definition scale (c : float) (v : vec) : vec := map (PrimFloat.mul c) v.

Fixpoint map2 (op : float -> float -> float) (a b : vec) : vec :=
  match a, b with
  | x :: a', y :: b' => op x y :: map2 op a' b'
  | _, _ => []
  end.

(** numpy's elementwise binary operation on two 1-D arrays: equal lengths, or
    one operand of length one that is broadcast; a [ValueError] otherwise. *)
Definition broadcast (op : float -> float -> float) (a b : vec) : outcome vec :=
  if (length a =? length b)%nat then Ok (map2 op a b)
  else match a, b with
       | [x], _ => Ok (map (op x) b)
       | _, [y] => Ok (map (fun x => op x y) a)
       | _, _ => Raise ValueError
       end.

Definition vadd : vec -> vec -> outcome vec := broadcast PrimFloat.add.
Definition vsub : vec -> vec -> outcome vec := broadcast PrimFloat.sub.

(** ** The group proximal operator *)

(** [np.maximum(a, b)]: the larger operand, a NaN operand wins. *)
Definition maximum (a b : float) : float :=
  if (b <=? a)%float || is_nan a then a else b.

(** [n] consecutive rows of [d] entries. *)
Fixpoint rows_of (n d : nat) (x : vec) : list vec :=
  match n with
  | O => []
  | S n' => firstn d x :: rows_of n' d (skipn d x)
  end.

(** [x.reshape(-1, d)] *)
Definition reshape (x : vec) (d : Z) : outcome (list vec) :=
  if (d <=? 0)%Z then Raise ValueError
  else if (Z.of_nat (length x) mod d =? 0)%Z
       then Ok (rows_of (length x / Z.to_nat d) (Z.to_nat d) x)
       else Raise ValueError.

(** [add.reduce] along a contiguous row of squares is numpy's
    [pairwise_sum], which has three regimes.

    The middle one, for 8 to 128 entries: eight running sums [r0 .. r7]
    start from the first eight entries, each full block of eight further
    entries is added to them position by position, the eight sums are
    combined as a balanced tree, and the entries after the last full block
    are added one by one. *)
Fixpoint unrolled (r0 r1 r2 r3 r4 r5 r6 r7 : float) (a : vec) : float :=
  match a with
  | a0 :: a1 :: a2 :: a3 :: a4 :: a5 :: a6 :: a7 :: a' =>
      unrolled (r0 + a0) (r1 + a1) (r2 + a2) (r3 + a3)
               (r4 + a4) (r5 + a5) (r6 + a6) (r7 + a7) a'
  | rest =>
      fold_left PrimFloat.add rest
        (((r0 + r1) + (r2 + r3)) + ((r4 + r5) + (r6 + r7)))
  end%float.

(** A row of at most 128 entries.  Fewer than eight entries are summed left
    to right; the sum starts from the first entry (numpy starts from a zero,
    which leaves a square unchanged: a square is never [-0]); the notebooks
    use pairs, [d = 2]. *)
Definition block_sum (a : vec) : float :=
  match a with
  | r0 :: r1 :: r2 :: r3 :: r4 :: r5 :: r6 :: r7 :: a' =>
      unrolled r0 r1 r2 r3 r4 r5 r6 r7 a'
  | [] => 0%float
  | v :: r => fold_left PrimFloat.add r v
  end.

(** The cut of a row of more than 128 entries: half its length, rounded down
    to a multiple of eight. *)
Definition split_point (n : nat) : nat := n / 2 - (n / 2) mod 8.

(** A longer row is cut in two and the sums of the two parts are added;
    [depth] bounds the number of nested cuts. *)
Fixpoint pairwise_sum (depth : nat) (a : vec) : float :=
  match depth with
  | O => block_sum a
  | S depth' =>
      if (128 <? length a)%nat then
        let n2 := split_point (length a) in
        (pairwise_sum depth' (firstn n2 a)
         + pairwise_sum depth' (skipn n2 a))%float
      else block_sum a
  end.

(** Every cut shortens the row, so its length is depth enough. *)
Definition add_reduce (s : vec) : float := pairwise_sum (length s) s.

(** [np.linalg.norm(x, axis=1, keepdims=True)] on one row: numpy evaluates
    [sqrt(add.reduce(x * x, axis=1))], with no guard against overflow or
    underflow of the squares. *)
Definition row_norm (g : vec) : float :=
  PrimFloat.sqrt (add_reduce (map (fun v => v * v)%float g)).

(** The shrinkage factor of one group. *)
Definition factor (gamma : float) (g : vec) : float :=
  maximum (1 - gamma / row_norm g)%float 0%float.

Definition shrink (gamma : float) (g : vec) : vec :=
  scale (factor gamma g) g.

Definition prox12norm (x : vec) (gamma : float) (d : Z) : outcome vec :=
  rows <- reshape x d ;;
  Ok (concat (map (shrink gamma) rows)).

(** ** Library kernels

    The routines below are numpy, BLAS, LAPACK and libm code.  Their results
    depend on the build (summation order, the accuracy of [pow], [cos] and
    [sin]), so the solvers take them as a record; [reference_kernels] below
    is one instance, with left-to-right dot products. *)

Record matrix : Set := mk_matrix {
  shape1 : nat;        (* A.shape[1], the number of columns *)
  rows : list vec      (* the rows, each of [shape1] entries *)
}.

Record kernels : Set := mk_kernels {
  norm : vec -> float;                     (* np.linalg.norm(v), v 1-D *)
  matvec : matrix -> vec -> outcome vec;   (* A @ x *)
  rmatvec : matrix -> vec -> outcome vec;  (* A.T @ v *)
  lipschitz : matrix -> outcome float;     (* np.linalg.norm(A.T @ A, ord=2) *)
  square : float -> float                  (* t ** 2 on a float64 scalar *)
}.

Record libm : Set := mk_libm {
  exp2 : float -> float;   (* 2 ** x on a Python float *)
  cos : float -> float;    (* np.cos *)
  sin : float -> float     (* np.sin *)
}.

(** ** The accelerated proximal gradient solver *)

Record state : Set := mk_state {
  st_t : pynum;   (* momentum parameter: the int 1, then float64 values *)
  st_x : vec;
  st_z : vec
}.

Inductive step_result : Set :=
| Converged (x_next : vec)
| Continue (s : state).

Section APGD.
Variable ker : kernels.
Variable gradf : vec -> outcome vec.
Variable proxf : vec -> float -> outcome vec.
Variable gamma : pynum.
Variable step_size : float.
Variable tol : float.

(** [(1 + np.sqrt(1 + 4 * t ** 2)) / 2] *)
Definition t_update (t : pynum) : outcome float :=
  match t with
  | PInt n => r <- float_of_int (1 + 4 * n ^ 2) ;; Ok ((1 + sqrt r) / 2)%float
  | PFloat f => Ok ((1 + sqrt (1 + 4 * square ker f)) / 2)%float
  end.

(** [(t - 1) / t_new] *)
Definition momentum (t : pynum) (t_new : float) : outcome float :=
  match t with
  | PInt n => r <- float_of_int (n - 1) ;; Ok (r / t_new)%float
  | PFloat f => Ok ((f - 1) / t_new)%float
  end.

(** One pass through the body of the [for] loop. *)
Definition apgd_step (s : state) : outcome step_result :=
  grad <- gradf (st_z s) ;;
  u <- vsub (st_z s) (scale step_size grad) ;;
  thr <- py_mul_float gamma step_size ;;
  x_next <- proxf u thr ;;
  t_new <- t_update (st_t s) ;;
  c <- momentum (st_t s) t_new ;;
  dx <- vsub x_next (st_x s) ;;
  z_next <- vadd x_next (scale c dx) ;;
  if (norm ker dx <=? tol)%float then Ok (Converged x_next)
  else Ok (Continue (mk_state (PFloat t_new) x_next z_next)).

(** [n] remaining passes, the next one with index [i]; [last] is the count
    returned when the range is exhausted. *)
Fixpoint apgd_loop (last : pynum) (n : nat) (i : Z) (s : state)
  : outcome (vec * pynum) :=
  match n with
  | O => Ok (st_x s, last)
  | S n' =>
      r <- apgd_step s ;;
      match r with
      | Converged x_next => Ok (x_next, PInt i)
      | Continue s' => apgd_loop last n' (i + 1) s'
      end
  end.

(** The state after [k] passes none of which met the convergence test;
    [None] when a pass raised or converged. *)
Fixpoint unconverged (k : nat) (s : state) : option state :=
  match k with
  | O => Some s
  | S k' =>
      match unconverged k' s with
      | Some s' =>
          match apgd_step s' with
          | Ok (Continue s'') => Some s''
          | _ => None
          end
      | None => None
      end
  end.
End APGD.

Definition default_tol : float := 1e-6%float.
Definition default_maxit : pynum := PFloat 1e5%float.

(** [apgd(gradf, proxf, gamma, L, x, tol=1e-6, maxit=1e5)].  [L] is a
    float64 (both callers pass the result of [np.linalg.norm]), so [1 / L] is
    infinite at [L = 0] and raises nothing.  [x.copy()] and the rebinding of
    [x] and [z] never write into the caller's array. *)
Definition apgd (ker : kernels) (gradf : vec -> outcome vec)
    (proxf : vec -> float -> outcome vec) (gamma : pynum) (L : float)
    (x : vec) (tol : float) (maxit : pynum) : outcome (vec * pynum) :=
  let z := x in
  let t := PInt 1 in
  let step_size := (1 / L)%float in
  n <- py_range maxit ;;
  match maxit with
  | PInt m =>
      apgd_loop ker gradf proxf gamma step_size tol (PInt (m + 1)) n 0
        (mk_state t x z)
  | PFloat _ => Raise TypeError
  end.

(** ** The constrained solver *)

Section LSCGNM.
Variable ker : kernels.

(** [A.T @ (A @ x - y)] *)
Definition grad_least_squares (A : matrix) (x y : vec) : outcome vec :=
  Ax <- matvec ker A x ;;
  r <- vsub Ax y ;;
  rmatvec ker A r.

(** [np.linalg.norm(A @ x - y)] *)
Definition residual (A : matrix) (x y : vec) : outcome float :=
  Ax <- matvec ker A x ;;
  r <- vsub Ax y ;;
  Ok (norm ker r).

Definition gamma0 : float := 1e-6%float.

Section Search.
Variables (A : matrix) (y : vec) (sigma : float) (d : Z) (tol : float).
Variables (L : float) (gnrls_x0 : vec) (gnrls_tol : float) (gnrls_maxit : pynum).

(** The inner solve that every trial repeats. *)
Definition solve (gamma : pynum) : outcome (vec * pynum) :=
  apgd ker (fun x => grad_least_squares A x y)
    (fun x t => prox12norm x t d) gamma L gnrls_x0 gnrls_tol gnrls_maxit.

(** The residual reached at one trial value of [gamma]. *)
Definition trial (gamma : pynum) : outcome float :=
  '(x, _) <- solve gamma ;;
  residual A x y.

(** [while True]: double [gamma_u] until the residual exceeds [sigma]. *)
Fixpoint doubling (fuel : nat) (gamma_u : Z) : outcome Z :=
  match fuel with
  | O => OutOfFuel
  | S fuel' =>
      nrm <- trial (PInt gamma_u) ;;
      if (sigma <? nrm)%float then Ok gamma_u
      else doubling fuel' (2 * gamma_u)
  end.

(** [while gamma_u - gamma_l > tol]; [x_opt] is unbound until the body
    has run once. *)
Fixpoint bisection (fuel : nat) (gamma_l gamma_u : pynum)
    (x_opt : option vec) : outcome (pynum * pynum * option vec) :=
  width <- py_sub gamma_u gamma_l ;;
  if py_gtb width (PFloat tol) then
    match fuel with
    | O => OutOfFuel
    | S fuel' =>
        s <- py_add gamma_l gamma_u ;;
        gamma_mid <- py_half s ;;
        '(x, _) <- solve (PFloat gamma_mid) ;;
        error <- residual A x y ;;
        if (error <? sigma)%float
        then bisection fuel' (PFloat gamma_mid) gamma_u (Some x)
        else bisection fuel' gamma_l (PFloat gamma_mid) (Some x)
    end
  else Ok (gamma_l, gamma_u, x_opt).
End Search.

Definition lscgnm (fuel : nat) (A : matrix) (y : vec) (sigma : float) (d : Z)
    (tol : float) (gnrls_x0 : vec) (gnrls_tol : float) (gnrls_maxit : pynum)
  : outcome (option vec * pynum) :=
  L <- lipschitz ker A ;;
  '(x, _) <- solve A y d L gnrls_x0 gnrls_tol gnrls_maxit (PFloat gamma0) ;;
  sigma0 <- residual A x y ;;
  let sigma_max := norm ker y in
  if (sigma0 <=? sigma)%float then
    if (sigma_max <=? sigma)%float then
      Ok (Some (zeros (shape1 A)), PFloat infinity)
    else
      gamma_u <- doubling A y sigma d L gnrls_x0 gnrls_tol gnrls_maxit fuel 1 ;;
      '(gamma_l, gamma_u, x_opt) <-
        bisection A y sigma d tol L gnrls_x0 gnrls_tol gnrls_maxit fuel
          (PInt 0) (PInt gamma_u) None ;;
      s <- py_add gamma_l gamma_u ;;
      gamma_star <- py_half s ;;
      match x_opt with
      | Some x_opt => Ok (Some x_opt, PFloat gamma_star)
      | None => Raise NameError
      end
  else Ok (None, PInt (-1)).
End LSCGNM.

(** ** The dictionary and the block driver *)

Fixpoint mapM {A B : Type} (f : A -> outcome B) (l : list A) : outcome (list B) :=
  match l with
  | [] => Ok []
  | a :: l' => b <- f a ;; bs <- mapM f l' ;; Ok (b :: bs)
  end.

Section Driver.
Variable ker : kernels.
Variable lm : libm.

(** [[27.5 * (2 ** (i / 12)) for i in range(88)]] *)
Definition get_piano_keys : list float :=
  map (fun i => 27.5 * exp2 lm (round_int (Z.of_nat i) 0 / 12))%float (seq 0 88).

Definition two_pi : float := (2 * 3.141592653589793)%float.

(** [2 * np.pi * f * j / f_s] on Python floats and ints *)
Definition angle (f : float) (j f_s : Z) : outcome float :=
  jf <- float_of_int j ;;
  fs <- float_of_int f_s ;;
  if (fs =? 0)%float then Raise ZeroDivisionError
  else Ok (two_pi * f * jf / fs)%float.

(** Row [j] of the dictionary: a cosine and a sine entry per frequency. *)
Definition dictionary_row (frequencies : list float) (f_s : Z) (j : nat)
  : outcome vec :=
  pairs <- mapM (fun f => a <- angle f (Z.of_nat j) f_s ;;
                          Ok [cos lm a; sin lm a]) frequencies ;;
  Ok (concat pairs).

Definition get_A (frequencies : list float) (f_s l : Z) : outcome matrix :=
  if (l <? 0)%Z then Raise ValueError
  else
    rs <- mapM (dictionary_row frequencies f_s) (seq 0 (Z.to_nat l)) ;;
    Ok (mk_matrix (2 * length frequencies) rs).

Section Blocks.
Variables (A : matrix) (L : float) (x0 : vec).
Variables (d : Z) (gamma : pynum) (tol : float) (maxit : pynum).

(** The solve of one block [y]. *)
Definition solve_block (y : vec) : outcome (vec * pynum) :=
  apgd ker (fun x => grad_least_squares ker A x y)
    (fun x t => prox12norm x t d) gamma L x0 tol maxit.

(** [for i, y in enumerate(blocks): ...; result.append(x)] *)
Fixpoint driver_loop (blocks : list vec) (result : list vec)
  : outcome (list vec) :=
  match blocks with
  | [] => Ok result
  | y :: blocks' =>
      '(x, _) <- solve_block y ;;
      driver_loop blocks' (result ++ [x])
  end.
End Blocks.

(** [apgd_driver(data, f_s, l, d=2, gamma=4.0, tol=1e-6, maxit=10**5)];
    [data[:-1]] is [removelast data]. *)
Definition apgd_driver (data : list vec) (f_s l : Z) (d : Z) (gamma : pynum)
    (tol : float) (maxit : pynum) : outcome (list vec) :=
  let f := get_piano_keys in
  A <- get_A f f_s l ;;
  L <- lipschitz ker A ;;
  let x0 := zeros (shape1 A) in
  driver_loop A L x0 d gamma tol maxit (removelast data) [].
End Driver.

(** ** Audio preprocessing *)

(** [np.minimum(a, b)]: the smaller operand, a NaN operand wins. *)
Definition minimum (a b : float) : float :=
  if (a <=? b)%float || is_nan a then a else b.

(** [data.min()] and [data.max()] on a float64 array: reductions that start
    from the first entry (the order matters only for the sign of a zero
    result), a [ValueError] on an empty array. *)
Definition array_min (data : vec) : outcome float :=
  match data with
  | [] => Raise ValueError
  | a :: r => Ok (fold_left minimum r a)
  end.

Definition array_max (data : vec) : outcome float :=
  match data with
  | [] => Raise ValueError
  | a :: r => Ok (fold_left maximum r a)
  end.

(** Python's builtin [max(a, b)]: [b] only when [b > a]. *)
Definition py_max (a b : float) : float :=
  if (a <? b)%float then b else a.

(** [rescale_audio(data)] on a float64 array *)
Definition rescale_audio (data : vec) : outcome vec :=
  lo <- array_min data ;;
  hi <- array_max data ;;
  if (lo <? -1)%float || (1 <? hi)%float
  then Ok (map (fun v => v / py_max (abs lo) (abs hi))%float data)
  else Ok data.

(** [range(0, stop, step)] for a length [stop]: a zero step is a
    [ValueError], a negative step gives the empty range. *)
Definition py_range_step (stop : nat) (step : Z) : outcome (list Z) :=
  if (step =? 0)%Z then Raise ValueError
  else if (step <? 0)%Z then Ok []
  else Ok (map (fun k => Z.of_nat k * step)%Z
             (seq 0 (Z.to_nat ((Z.of_nat stop + step - 1) / step)))).

(** A slice bound as Python resolves it on a sequence of [len] entries: a
    negative bound counts from the end, and every bound is clipped. *)
Definition slice_bound (len : nat) (k : Z) : nat :=
  if (k <? 0)%Z then Z.to_nat (Z.max 0 (k + Z.of_nat len))
  else Nat.min (Z.to_nat k) len.

(** [data[i:j]] *)
Definition slice (data : vec) (i j : Z) : vec :=
  let lo := slice_bound (length data) i in
  let hi := slice_bound (length data) j in
  firstn (hi - lo) (skipn lo data).

(** [list(get_audio_chunks(data, chunk_size))]: the generator run to its
    end, as both notebooks do. *)
Definition get_audio_chunks (data : vec) (chunk_size : Z) : outcome (list vec) :=
  idx <- py_range_step (length data) chunk_size ;;
  Ok (map (fun i => slice data i (i + chunk_size)) idx).

(** ** The sweep over [sigma] *)

Section Sweep.
Variable ker : kernels.
Variable lm : libm.
Variable fuel : nat.

Section Calls.
Variables (A : matrix) (block : vec) (d : Z) (tol : float) (x0 : vec).
Variables (gnrls_tol : float) (gnrls_maxit : pynum).

(** [for i, sigma in enumerate(sigma_list): ...]: [result] collects the
    vectors, [printed] the [sigma] and [gamma] of each line printed. *)
Fixpoint sweep (sigmas : list float) (result : list (option vec))
    (printed : list (float * pynum))
  : outcome (list (option vec) * list (float * pynum)) :=
  match sigmas with
  | [] => Ok (result, printed)
  | sigma :: sigmas' =>
      '(x, gamma) <-
        lscgnm ker fuel A block sigma d tol x0 gnrls_tol gnrls_maxit ;;
      sweep sigmas' (result ++ [x]) (printed ++ [(sigma, gamma)])
  end.
End Calls.

Definition sigma_list : list float :=
  [0.1; 0.2; 0.3; 0.4; 0.5; 0.6; 0.7; 0.8; 0.9; 1.0]%float.

(** [lscgnm_driver(block, f_s, l, d=2, tol=1e-3, gnrls_tol=1e-6,
    gnrls_maxit=10**5)]: the list returned, and the lines printed by a call
    that returns.  The argument [d] is overwritten before its first use;
    [L] is computed and not used. *)
Definition lscgnm_driver (block : vec) (f_s l : Z) (d : Z) (tol : float)
    (gnrls_tol : float) (gnrls_maxit : pynum)
  : outcome (list (option vec) * list (float * pynum)) :=
  let f := get_piano_keys lm in
  A <- get_A lm f f_s l ;;
  L <- lipschitz ker A ;;
  let x0 := zeros (shape1 A) in
  let d := 2%Z in
  sweep A block d tol x0 gnrls_tol gnrls_maxit sigma_list [] [].
End Sweep.

(** ** Spectrogram values *)

(** [x[::2]] and [x[1::2]] *)
Fixpoint evens (x : vec) : vec :=
  match x with
  | a :: _ :: r => a :: evens r
  | _ => x
  end.

Fixpoint odds (x : vec) : vec :=
  match x with
  | _ :: b :: r => b :: odds r
  | _ => []
  end.

(** [np.sqrt(x[::2]**2 + x[1::2]**2)], one row of [spectrograms] in
    [generate_spectograms]; numpy squares an array by multiplying it with
    itself. *)
Definition magnitudes (x : vec) : outcome vec :=
  s <- vadd (map (fun v => v * v)%float (evens x))
            (map (fun v => v * v)%float (odds x)) ;;
  Ok (map PrimFloat.sqrt s).

(** ** Reference kernels

    Dot products summed left to right from zero; the spectral norm is
    supplied by the caller. *)

Definition dot (a b : vec) : float :=
  fold_left PrimFloat.add (map2 PrimFloat.mul a b) 0%float.

Definition ref_norm (v : vec) : float := PrimFloat.sqrt (dot v v).

Definition ref_matvec (A : matrix) (x : vec) : outcome vec :=
  if (length x =? shape1 A)%nat then Ok (map (fun r => dot r x) (rows A))
  else Raise ValueError.

Definition column (j : nat) (A : matrix) : vec :=
  map (fun r => nth j r 0%float) (rows A).

Definition ref_rmatvec (A : matrix) (v : vec) : outcome vec :=
  if (length v =? length (rows A))%nat
  then Ok (map (fun j => dot (column j A) v) (seq 0 (shape1 A)))
  else Raise ValueError.

Definition reference_kernels (spectral : matrix -> outcome float) : kernels :=
  mk_kernels ref_norm ref_matvec ref_rmatvec spectral
    (fun t => t * t)%float.

(** ** Example inputs

    A dictionary of one row and one atom, [A = [[1, 0]]]: its Gram matrix is
    [diag(1, 0)], of spectral norm one. *)

Definition demo_kernels : kernels := reference_kernels (fun _ => Ok 1%float).

Definition demo_A : matrix := mk_matrix 2 [[1; 0]%float].

Definition demo_y : vec := [1%float].

Definition demo_gradf (x : vec) : outcome vec :=
  grad_least_squares demo_kernels demo_A x demo_y.

Definition demo_proxf (x : vec) (t : float) : outcome vec := prox12norm x t 2.

(** A dictionary of one sample per block: every angle is zero, so the single
    row alternates [cos 0 = 1] and [sin 0 = 0] over the 88 atoms and the Gram
    matrix has spectral norm 88.  The elementary functions are truncated
    Maclaurin series, enough to run the examples. *)

Fixpoint exp_series (n : nat) (x i term acc : float) : float :=
  match n with
  | O => acc
  | S n' => exp_series n' x (i + 1) (term * x / (i + 1)) (acc + term)
  end%float.

Fixpoint alt_series (n : nat) (x2 i term acc : float) : float :=
  match n with
  | O => acc
  | S n' =>
      alt_series n' x2 (i + 2) (- term * x2 / ((i + 1) * (i + 2))) (acc + term)
  end%float.

Definition series_libm : libm :=
  mk_libm (fun x => exp_series 60 (x * 0.6931471805599453) 0 1 0)%float
          (fun x => alt_series 30 (x * x) 0 1 0)%float
          (fun x => alt_series 30 (x * x) 1 x 0)%float.

Definition driver_kernels : kernels := reference_kernels (fun _ => Ok 88%float).

Definition demo_blocks : list vec := [[1]; [0.5]; [0.25]]%float.

Definition demo_dictionary : matrix :=
  mk_matrix 176 [concat (repeat [1; 0]%float 88)].

(** ** Vocabulary of the statements *)

(** The sign bit is clear, or the value is a NaN. *)
Definition sign_clear (sf : spec_float) : Prop :=
  match sf with
  | S754_zero s | S754_infinity s | S754_finite s _ _ => s = false
  | S754_nan => True
  end.

(** Zero or a finite non-zero value. *)
Definition SFfinite (sf : spec_float) : Prop :=
  match sf with
  | S754_zero _ | S754_finite _ _ _ => True
  | _ => False
  end.

(** Zero, or negative: the sign bit is set and the value is no NaN. *)
Definition nonpositive (sf : spec_float) : Prop :=
  match sf with
  | S754_zero _ => True
  | S754_infinity s | S754_finite s _ _ => s = true
  | S754_nan => False
  end.

(** The float one, as mantissa and exponent. *)
Definition SFone : spec_float := S754_finite false 4503599627370496 (-52).

(** An entry that compares equal to zero ([+0] or [-0]) and so is no NaN. *)
Definition zero_entry (v : float) : Prop :=
  (v =? 0)%float = true /\ is_nan v = false.

(** The exponent at which [SFdiv] truncates the quotient of two finite
    values before rounding it. *)
Definition div_exponent (a b : positive) (ea eb : Z) : Z :=
  Z.min (fexp prec emax (Zpos (digits2_pos a) + ea - (Zpos (digits2_pos b) + eb)))
        (ea - eb).

(** Halving the int [2 ^ k] gives a finite float, for every [k] below [n]. *)
Definition halves_fit (n : nat) : bool :=
  forallb (fun k => negb (is_infinity (round_int (2 ^ Z.of_nat k) (-1))))
    (seq 0 n).

(** [x] is what the driver's solver returns for the block [y]. *)
Definition solution_of (ker : kernels) (A : matrix) (L : float) (x0 : vec)
    (d : Z) (gamma : pynum) (tol : float) (maxit : pynum) (y x : vec) : Prop :=
  exists c : pynum, solve_block ker A L x0 d gamma tol maxit y = Ok (x, c).

(** Trial [k] of a bracketing loop started at [g] runs at [g * 2 ^ k]; it
    keeps the loop going when its residual does not exceed [sigma]. *)
Definition stays_below (ker : kernels) (A : matrix) (y : vec) (sigma : float)
    (d : Z) (L : float) (x0 : vec) (gtol : float) (gmaxit : pynum) (g : Z)
    (k : nat) : Prop :=
  exists r : float,
    trial ker A y d L x0 gtol gmaxit (PInt (g * 2 ^ Z.of_nat k)) = Ok r
    /\ (sigma <? r)%float = false.

(** Between [-1] and [1], hence no NaN. *)
Definition in_unit_range (v : float) : Prop :=
  (-1 <=? v)%float = true /\ (v <=? 1)%float = true.

(** The number of chunks of [c] entries that cover [n] entries. *)
Definition ceil_div (n c : nat) : nat := (n + c - 1) / c.

(** Sorted by [<=], every entry against every later one. *)
Fixpoint ascending (l : list float) : bool :=
  match l with
  | [] => true
  | a :: r => forallb (fun b => (a <=? b)%float) r && ascending r
  end.

(** [x] is the solution of a trial at [mid], which the last pass of the
    bisection made an end of the bracket: the lower end when its residual is
    below [sigma], the upper end otherwise. *)
Definition last_trial (ker : kernels) (A : matrix) (y : vec) (sigma : float)
    (d : Z) (L : float) (x0 : vec) (gtol : float) (gmaxit : pynum)
    (gamma_l gamma_u : pynum) (x : vec) : Prop :=
  exists (mid : float) (c : pynum) (e : float),
    solve ker A y d L x0 gtol gmaxit (PFloat mid) = Ok (x, c)
    /\ residual ker A x y = Ok e
    /\ ((gamma_l = PFloat mid /\ (e <? sigma)%float = true)
        \/ (gamma_u = PFloat mid /\ (e <? sigma)%float = false)).

(** [x] is what the proximal oracle returned on some point, called at the
    threshold [gamma * step_size]. *)
Definition prox_value (proxf : vec -> float -> outcome vec) (gamma : pynum)
    (step_size : float) (x : vec) : Prop :=
  exists (u : vec) (thr : float),
    py_mul_float gamma step_size = Ok thr /\ proxf u thr = Ok x.

(** The integer [a], of at most 53 bits, times [2 ^ e] is a normal binary64
    value. *)
Definition fits (a e : Z) : Prop :=
  (0 < a /\ Zdigits2 a <= 53
   /\ -1074 <= e + Zdigits2 a - 53 /\ e + Zdigits2 a <= 1024)%Z.

(** The binary64 value [a * 2 ^ e]. *)
Definition grid (a e : Z) : spec_float := binary_normalize prec emax a e false.

(** The float that an end of the bracket stands for in [float] arithmetic. *)
Definition float_view (p : pynum) : outcome float :=
  match p with
  | PInt n => float_of_int n
  | PFloat f => Ok f
  end.

(** [f] is [v * 2 ^ e]: the float [+0] when [v = 0]. *)
Definition on_grid (f : float) (v e : Z) : Prop :=
  (v = 0%Z /\ f = 0%float) \/ (fits v e /\ Prim2SF f = grid v e).

(** After [j] passes the bracket is a cell [[a, a + 1] * 2 ^ (k - j)] of
    the grid of step [2 ^ (k - j)], and one end at least is a float. *)
Definition bracket_at (k j : nat) (gamma_l gamma_u : pynum) : Prop :=
  (forall m n, gamma_l = PInt m -> gamma_u = PInt n -> False)
  /\ exists (a : Z) (fl fu : float),
       (0 <= a < 2 ^ Z.of_nat j)%Z
       /\ float_view gamma_l = Ok fl /\ float_view gamma_u = Ok fu
       /\ on_grid fl a (Z.of_nat k - Z.of_nat j)
       /\ on_grid fu (a + 1) (Z.of_nat k - Z.of_nat j).

(** The bisection started at [gamma_l], [gamma_u] ends: it returns a
    bracket whose midpoint [gs] can be taken, an odd multiple of half the
    width reached after [j <= N] halvings of [2 ^ k]; and [x_opt] is left
    as it was only if it was not assigned. *)
Definition bisection_ended (ker : kernels) (A : matrix) (y : vec)
    (sigma : float) (d : Z) (tol : float) (L : float) (x0 : vec)
    (gtol : float) (gmaxit : pynum) (k N : nat) (fuel : nat)
    (gamma_l gamma_u : pynum) (x_opt : option vec) : Prop :=
  exists (gl' gu' : pynum) (xo' : option vec) (s : pynum) (gs : float),
    bisection ker A y sigma d tol L x0 gtol gmaxit fuel gamma_l gamma_u x_opt
    = Ok (gl', gu', xo')
    /\ (xo' = x_opt \/ exists x, xo' = Some x)
    /\ py_add gl' gu' = Ok s /\ py_half s = Ok gs
    /\ exists (j : nat) (a : Z),
         (j <= N)%nat /\ (0 <= a < 2 ^ Z.of_nat j)%Z
         /\ gs = round_int (2 * a + 1) (Z.of_nat k - Z.of_nat (S j)).

(** * Properties *)

(** ** Order on binary64 values *)

Lemma SFcompare_antisym (a b : spec_float) :
  SFcompare b a = option_map CompOpp (SFcompare a b).
Proof.
  destruct a as [sa | sa | | sa ma ea], b as [sb | sb | | sb mb eb];
    try destruct sa; try destruct sb; simpl; try reflexivity;
    rewrite (Z.compare_antisym ea eb); destruct (ea ?= eb)%Z; simpl;
    try reflexivity;
    rewrite (Pos.compare_cont_antisym ma mb Eq); reflexivity.
Qed.

(** A strict [a < b] excludes [b <= a]. *)
Lemma ltb_leb_false (a b : float) :
  (a <? b)%float = true -> (b <=? a)%float = false.
Proof.
  rewrite ltb_spec, leb_spec. unfold SFltb, SFleb.
  rewrite (SFcompare_antisym (Prim2SF a) (Prim2SF b)).
  destruct (SFcompare (Prim2SF a) (Prim2SF b)) as [[ | | ] | ];
    simpl; congruence.
Qed.

Lemma py_leb_gtb_false (a b : pynum) :
  py_leb a b = true -> py_gtb a b = false.
Proof.
  unfold py_leb, py_gtb.
  destruct (py_compare a b) as [[ | | ] | ]; congruence.
Qed.

(** ** Binary64 rounding

    The lemmas of this part read the operations of [SpecFloat], which the
    primitive operations are specified by. *)

Local Open Scope Z_scope.

Lemma iter_pos_nat {T : Type} (f : T -> T) (p : positive) :
  forall x : T, iter_pos f p x = Nat.iter (Pos.to_nat p) f x.
Proof.
  induction p as [p IH | p IH | ]; intros x; simpl iter_pos.
  - rewrite !IH, <- Nat.iter_succ_r, <- Nat.iter_add.
    f_equal. rewrite Pos2Nat.inj_xI. lia.
  - rewrite !IH, <- Nat.iter_add. f_equal. rewrite Pos2Nat.inj_xO. lia.
  - reflexivity.
Qed.

Lemma shr_1_even (p : positive) :
  shr_1 (Build_shr_record (Zpos p~0) false false)
  = Build_shr_record (Zpos p) false false.
Proof. reflexivity. Qed.

Lemma shr_pow2 (j : nat) :
  forall q : positive,
    Nat.iter j shr_1 (Build_shr_record (Zpos (shift_nat j q)) false false)
    = Build_shr_record (Zpos q) false false.
Proof.
  induction j as [|j IH]; intros q.
  - reflexivity.
  - rewrite Nat.iter_succ_r.
    change (shift_nat (S j) q) with ((shift_nat j q)~0)%positive.
    rewrite shr_1_even. apply IH.
Qed.

Lemma digits2_shift_nat (j : nat) (q : positive) :
  Zpos (digits2_pos (shift_nat j q)) = (Z.of_nat j + Zpos (digits2_pos q))%Z.
Proof.
  induction j as [|j IH].
  - reflexivity.
  - change (shift_nat (S j) q) with ((shift_nat j q)~0)%positive.
    simpl digits2_pos. rewrite Pos2Z.inj_succ, IH. lia.
Qed.

Lemma pow2_shift_nat (k : nat) : (2 ^ Z.of_nat k)%Z = Zpos (shift_nat k 1).
Proof.
  rewrite shift_nat_correct, Zpower_nat_Z. lia.
Qed.

(** An int power of two beyond the binary64 range rounds to infinity. *)
Lemma round_pow2_overflow (k : nat) :
  (1024 <= k)%nat -> round_int (2 ^ Z.of_nat k) 0 = infinity.
Proof.
  intros Hk. unfold round_int. rewrite pow2_shift_nat.
  unfold binary_normalize, binary_round.
  assert (Hfexp : fexp prec emax (Zpos (digits2_pos (shift_nat k 1)) + 0)
                  = (Z.of_nat k - 52)%Z).
  { rewrite digits2_shift_nat. unfold fexp, emin, prec, emax. simpl digits2_pos. lia. }
  rewrite Hfexp.
  unfold shl_align.
  destruct (Z.of_nat k - 52 - 0)%Z as [|p|p] eqn:Hp; try lia.
  unfold binary_round_aux, shr_fexp. unfold Zdigits2 at 1.
  rewrite Hfexp. rewrite Hp. unfold shr at 1.
  rewrite iter_pos_nat.
  replace (shift_nat k 1) with (shift_nat (Pos.to_nat p) (shift_nat 52 1)).
  2:{ rewrite <- shift_nat_plus. f_equal. lia. }
  cbn [shr_record_of_loc]. rewrite shr_pow2.
  cbn [shr_m loc_of_shr_record round_nearest_even shr_record_of_loc Zdigits2].
  replace (fexp prec emax (Z.pos (digits2_pos (shift_nat 52 1)) + (0 + Z.pos p)) - (0 + Z.pos p))%Z with 0%Z.
  2:{ unfold fexp, emin, prec, emax. simpl digits2_pos. lia. }
  cbn [shr shr_m].
  replace (0 + Z.pos p <=? emax - prec)%Z with false.
  2:{ symmetry. apply Z.leb_gt. unfold emax, prec. lia. }
  reflexivity.
Qed.

(** ** Digits *)

Lemma digits2_bounds (m : positive) :
  2 ^ (Zpos (digits2_pos m) - 1) <= Zpos m < 2 ^ Zpos (digits2_pos m).
Proof.
  induction m as [m IH | m IH | ]; cbn [digits2_pos].
  - rewrite Pos2Z.inj_succ.
    replace (Z.succ (Zpos (digits2_pos m)) - 1)
      with (Z.succ (Zpos (digits2_pos m) - 1)) by lia.
    rewrite !Z.pow_succ_r by lia. lia.
  - rewrite Pos2Z.inj_succ.
    replace (Z.succ (Zpos (digits2_pos m)) - 1)
      with (Z.succ (Zpos (digits2_pos m) - 1)) by lia.
    rewrite !Z.pow_succ_r by lia. lia.
  - simpl. lia.
Qed.

(** A non-negative [m] below [2 ^ k] has at most [k] digits. *)
Lemma Zdigits2_le (m k : Z) :
  0 <= m -> 0 <= k -> m < 2 ^ k -> Zdigits2 m <= k.
Proof.
  intros Hm Hk Hlt. destruct m as [|p|p]; cbn [Zdigits2]; try lia.
  pose proof (digits2_bounds p) as [Hlo _].
  destruct (Z_le_gt_dec (Zpos (digits2_pos p)) k) as [H | H]; [exact H|].
  exfalso. assert (2 ^ k <= 2 ^ (Zpos (digits2_pos p) - 1)).
  { apply Z.pow_le_mono_r; lia. }
  lia.
Qed.

Lemma Zdigits2_pos_bound (m : Z) :
  0 < m -> 2 ^ (Zdigits2 m - 1) <= m.
Proof.
  destruct m as [|p|p]; try lia. intros _. apply digits2_bounds.
Qed.

(** ** Right shifts *)

Lemma shr_1_div2 (mrs : shr_record) :
  0 <= shr_m mrs -> shr_m (shr_1 mrs) = shr_m mrs / 2.
Proof.
  destruct mrs as [m r s]. cbn [shr_m]. intros Hm.
  rewrite <- Z.div2_div.
  destruct m as [|[p|p|]|p]; try reflexivity. lia.
Qed.

Lemma shr_iter_div (n : nat) (mrs : shr_record) :
  0 <= shr_m mrs ->
  shr_m (Nat.iter n shr_1 mrs) = shr_m mrs / 2 ^ Z.of_nat n.
Proof.
  intros Hm. induction n as [|n IH].
  - simpl. now rewrite Z.div_1_r.
  - cbn [Nat.iter nat_rect]. rewrite shr_1_div2.
    + change (nat_rect _ mrs (fun _ => shr_1) n) with (Nat.iter n shr_1 mrs).
      rewrite IH, Nat2Z.inj_succ, Z.pow_succ_r by lia.
      rewrite Z.div_div by lia. f_equal. lia.
    + change (nat_rect _ mrs (fun _ => shr_1) n) with (Nat.iter n shr_1 mrs).
      rewrite IH. apply Z.div_pos; lia.
Qed.

(** [shr_fexp] moves the exponent up to the format's exponent and drops the
    low bits of the mantissa. *)
Lemma shr_fexp_value (m e : Z) (l : location) :
  0 <= m ->
  exists mrs : shr_record,
    shr_fexp prec emax m e l
    = (mrs, Z.max e (fexp prec emax (Zdigits2 m + e)))
    /\ shr_m mrs = m / 2 ^ (Z.max e (fexp prec emax (Zdigits2 m + e)) - e).
Proof.
  intros Hm. unfold shr_fexp, shr.
  set (f := fexp prec emax (Zdigits2 m + e)).
  assert (Hrec : shr_m (shr_record_of_loc m l) = m).
  { destruct l as [|[ | | ]]; reflexivity. }
  destruct (f - e) as [|p|p] eqn:Hn.
  - eexists. split; [f_equal; lia|].
    rewrite Hrec. replace (Z.max e f - e) with 0 by lia.
    now rewrite Z.div_1_r.
  - eexists. split; [f_equal; lia|].
    rewrite iter_pos_nat, shr_iter_div by lia.
    rewrite Hrec, positive_nat_Z. f_equal. f_equal. lia.
  - eexists. split; [f_equal; lia|].
    rewrite Hrec. replace (Z.max e f - e) with 0 by lia.
    now rewrite Z.div_1_r.
Qed.

Lemma round_nearest_even_bounds (m : Z) (l : location) :
  m <= round_nearest_even m l <= m + 1.
Proof.
  destruct l as [|[ | | ]]; cbn [round_nearest_even]; try lia.
  destruct (Z.even m); lia.
Qed.

Lemma fexp_binary64 (z : Z) : fexp prec emax z = Z.max (z - 53) (-1074).
Proof. reflexivity. Qed.

(** ** Rounding against the threshold one

    A mantissa [m] at exponent [e] stands for [m * 2 ^ e]; it is at least one
    when [2 ^ (- e) <= m] (and [m] is positive), at most one when
    [m <= 2 ^ (- e)]. *)

Lemma shr_lower (m e : Z) :
  1 <= m -> 2 ^ (- e) <= m ->
  let e1 := Z.max e (fexp prec emax (Zdigits2 m + e)) in
  1 <= m / 2 ^ (e1 - e) /\ 2 ^ (- e1) <= m / 2 ^ (e1 - e).
Proof.
  intros Hm Hge e1.
  assert (Hn : 0 <= e1 - e) by lia.
  assert (Hpow : 0 < 2 ^ (e1 - e)) by (apply Z.pow_pos_nonneg; lia).
  assert (Hsecond : 2 ^ (- e1) <= m / 2 ^ (e1 - e)).
  { destruct (Z_le_gt_dec e1 0) as [Hle | Hgt].
    - apply Z.div_le_lower_bound; [exact Hpow|].
      rewrite <- Z.pow_add_r by lia.
      now replace (e1 - e + - e1) with (- e) by lia.
    - rewrite Z.pow_neg_r by lia. apply Z.div_pos; lia. }
  split; [|exact Hsecond].
  destruct (Z_le_gt_dec e1 0) as [Hle | Hgt].
  - assert (1 <= 2 ^ (- e1)); [|lia].
    change 1 with (2 ^ 0). apply Z.pow_le_mono_r; lia.
  - apply Z.div_le_lower_bound; [exact Hpow|]. rewrite Z.mul_1_r.
    pose proof (Zdigits2_pos_bound m ltac:(lia)) as Hd.
    unfold e1 in *. rewrite fexp_binary64 in *.
    destruct (Z.eq_dec (Z.max e (Z.max (Zdigits2 m + e - 53) (-1074))) e)
      as [Heq | Hne].
    + rewrite Heq, Z.sub_diag. simpl. lia.
    + apply Z.le_trans with (2 ^ (Zdigits2 m - 1)); [|exact Hd].
      apply Z.pow_le_mono_r; lia.
Qed.

Lemma shr_upper_strict (m e : Z) :
  0 <= m -> m < 2 ^ (- e) ->
  let e1 := Z.max e (fexp prec emax (Zdigits2 m + e)) in
  e1 <= 0 /\ 0 <= m / 2 ^ (e1 - e) < 2 ^ (- e1).
Proof.
  intros Hm Hlt e1.
  assert (He : e <= 0).
  { destruct (Z_le_gt_dec e 0); [assumption|].
    rewrite Z.pow_neg_r in Hlt; lia. }
  pose proof (Zdigits2_le m (- e) Hm ltac:(lia) Hlt) as Hd.
  assert (He1 : e1 <= 0) by (unfold e1; rewrite fexp_binary64; lia).
  assert (Hpow : 0 < 2 ^ (e1 - e)) by (apply Z.pow_pos_nonneg; lia).
  split; [exact He1|]. split; [apply Z.div_pos; lia|].
  apply Z.div_lt_upper_bound; [exact Hpow|].
  rewrite <- Z.pow_add_r by lia.
  now replace (e1 - e + - e1) with (- e) by lia.
Qed.

Lemma shr_upper (m e : Z) :
  0 <= m -> e <= 0 -> m <= 2 ^ (- e) ->
  let e1 := Z.max e (fexp prec emax (Zdigits2 m + e)) in
  e1 <= 0 /\ 0 <= m / 2 ^ (e1 - e) <= 2 ^ (- e1).
Proof.
  intros Hm He Hle e1.
  assert (Hd : Zdigits2 m <= - e + 1).
  { apply Zdigits2_le; [lia | lia |].
    rewrite Z.pow_add_r by lia. simpl (2 ^ 1).
    assert (0 < 2 ^ (- e)) by (apply Z.pow_pos_nonneg; lia). lia. }
  assert (He1 : e1 <= 0) by (unfold e1; rewrite fexp_binary64; lia).
  assert (Hpow : 0 < 2 ^ (e1 - e)) by (apply Z.pow_pos_nonneg; lia).
  split; [exact He1|]. split; [apply Z.div_pos; lia|].
  replace (2 ^ (- e1)) with (2 ^ (- e) / 2 ^ (e1 - e)).
  - apply Z.div_le_mono; lia.
  - replace (- e) with (- e1 + (e1 - e)) by lia.
    rewrite Z.pow_add_r by lia. apply Z.div_mul. lia.
Qed.

Lemma round_aux_lower (m e : Z) (l : location) :
  1 <= m -> 2 ^ (- e) <= m ->
  binary_round_aux prec emax false m e l = S754_infinity false
  \/ exists (m' : positive) (e' : Z),
       binary_round_aux prec emax false m e l = S754_finite false m' e'
       /\ 2 ^ (- e') <= Zpos m'.
Proof.
  intros Hm Hge. unfold binary_round_aux.
  destruct (shr_fexp_value m e l ltac:(lia)) as [mrs1 [Heq1 Hm1]].
  rewrite Heq1.
  destruct (shr_lower m e Hm Hge) as [Hpos1 Hge1].
  rewrite <- Hm1 in Hpos1, Hge1.
  set (e1 := Z.max e (fexp prec emax (Zdigits2 m + e))) in *.
  pose proof (round_nearest_even_bounds (shr_m mrs1) (loc_of_shr_record mrs1))
    as Hround.
  set (m2 := round_nearest_even (shr_m mrs1) (loc_of_shr_record mrs1)) in *.
  destruct (shr_fexp_value m2 e1 loc_Exact ltac:(lia)) as [mrs2 [Heq2 Hm2]].
  rewrite Heq2.
  destruct (shr_lower m2 e1 ltac:(lia) ltac:(lia)) as [Hpos2 Hge2].
  rewrite <- Hm2 in Hpos2, Hge2.
  destruct (shr_m mrs2) as [|m3|m3]; try lia.
  destruct (_ <=? _); [right; eauto | now left].
Qed.

Lemma round_aux_upper (m e : Z) (l : location) :
  0 <= m -> m + 1 <= 2 ^ (- e) ->
  binary_round_aux prec emax false m e l = S754_zero false
  \/ exists (m' : positive) (e' : Z),
       binary_round_aux prec emax false m e l = S754_finite false m' e'
       /\ Zpos m' <= 2 ^ (- e').
Proof.
  intros Hm Hlt. unfold binary_round_aux.
  destruct (shr_fexp_value m e l Hm) as [mrs1 [Heq1 Hm1]].
  rewrite Heq1.
  destruct (shr_upper_strict m e Hm ltac:(lia)) as [He1 Hlt1].
  rewrite <- Hm1 in Hlt1.
  set (e1 := Z.max e (fexp prec emax (Zdigits2 m + e))) in *.
  pose proof (round_nearest_even_bounds (shr_m mrs1) (loc_of_shr_record mrs1))
    as Hround.
  set (m2 := round_nearest_even (shr_m mrs1) (loc_of_shr_record mrs1)) in *.
  destruct (shr_fexp_value m2 e1 loc_Exact ltac:(lia)) as [mrs2 [Heq2 Hm2]].
  rewrite Heq2.
  destruct (shr_upper m2 e1 ltac:(lia) He1 ltac:(lia)) as [He2 Hle2].
  rewrite <- Hm2 in Hle2.
  set (e2 := Z.max e1 (fexp prec emax (Zdigits2 m2 + e1))) in *.
  destruct (shr_m mrs2) as [|m3|m3]; try lia.
  - now left.
  - right. exists m3, e2. split; [|lia].
    replace (e2 <=? emax - prec) with true; [reflexivity|].
    symmetry. apply Z.leb_le. change (emax - prec) with 971. lia.
Qed.

(** Rounding a non-negative mantissa never yields a NaN. *)
Lemma round_aux_not_nan (s : bool) (m e : Z) (l : location) :
  0 <= m -> binary_round_aux prec emax s m e l <> S754_nan.
Proof.
  intros Hm. unfold binary_round_aux.
  destruct (shr_fexp_value m e l Hm) as [mrs1 [Heq1 Hm1]].
  rewrite Heq1.
  assert (H1 : 0 <= shr_m mrs1).
  { rewrite Hm1. apply Z.div_pos; [lia|]. apply Z.pow_pos_nonneg; lia. }
  pose proof (round_nearest_even_bounds (shr_m mrs1) (loc_of_shr_record mrs1))
    as Hround.
  set (m2 := round_nearest_even (shr_m mrs1) (loc_of_shr_record mrs1)) in *.
  destruct (shr_fexp_value m2 (Z.max e (fexp prec emax (Zdigits2 m + e)))
              loc_Exact ltac:(lia)) as [mrs2 [Heq2 Hm2]].
  rewrite Heq2.
  assert (H2 : 0 <= shr_m mrs2).
  { rewrite Hm2. apply Z.div_pos; [lia|]. apply Z.pow_pos_nonneg; lia. }
  destruct (shr_m mrs2) as [|m3|m3]; try lia; try discriminate.
  destruct (_ <=? _); discriminate.
Qed.

(** ** Classification *)

Lemma round_aux_cases (s : bool) (m e : Z) (l : location) :
  let r := binary_round_aux prec emax s m e l in
  r = S754_zero s \/ r = S754_infinity s \/ r = S754_nan
  \/ exists m' e', r = S754_finite s m' e'.
Proof.
  unfold binary_round_aux.
  destruct (shr_fexp prec emax m e l) as [mrs' e'].
  destruct (shr_fexp prec emax _ e' loc_Exact) as [mrs'' e''].
  destruct (shr_m mrs'') as [|p|p]; auto.
  destruct (e'' <=? emax - prec)%Z; eauto 6.
Qed.

Lemma round_aux_sign_clear (m e : Z) (l : location) :
  sign_clear (binary_round_aux prec emax false m e l).
Proof.
  destruct (round_aux_cases false m e l) as [H | [H | [H | [m' [e' H]]]]];
    rewrite H; simpl; auto.
Qed.

Lemma mul_self_sign_clear (a : spec_float) : sign_clear (SF64mul a a).
Proof.
  destruct a as [s | s | | s m e]; simpl; auto; try (now destruct s).
  rewrite xorb_nilpotent. apply round_aux_sign_clear.
Qed.

Lemma add_sign_clear (a b : spec_float) :
  sign_clear a -> sign_clear b -> sign_clear (SF64add a b).
Proof.
  destruct a as [sa | sa | | sa ma ea], b as [sb | sb | | sb mb eb];
    simpl; intros Ha Hb; subst; simpl; auto.
  unfold binary_round. destruct (shl_align _ _ _).
  apply round_aux_sign_clear.
Qed.

Lemma sqrt_sign_clear (a : spec_float) :
  sign_clear a -> sign_clear (SF64sqrt a).
Proof.
  destruct a as [s | s | | s m e]; simpl; intros Ha; subst; simpl; auto.
  unfold SF64sqrt, SFsqrt.
  destruct (SFsqrt_core_binary prec emax (Z.pos m) e) as [[mz ez] lz].
  apply round_aux_sign_clear.
Qed.

(** ** Facts on primitive floats *)

Lemma eqb_zero_inv (f : float) :
  (f =? 0)%float = true -> exists s, Prim2SF f = S754_zero s.
Proof.
  rewrite FloatAxioms.eqb_spec. change (Prim2SF 0) with (S754_zero false).
  destruct (Prim2SF f) as [s | s | | s m e]; try discriminate.
  - now exists s.
  - destruct s; discriminate.
  - destruct s; discriminate.
Qed.

Lemma ltb_zero_inv (f : float) :
  (0 <? f)%float = true ->
  Prim2SF f = S754_infinity false
  \/ exists m e, Prim2SF f = S754_finite false m e.
Proof.
  rewrite FloatAxioms.ltb_spec. change (Prim2SF 0) with (S754_zero false).
  destruct (Prim2SF f) as [s | s | | s m e]; try discriminate.
  - destruct s; [discriminate | now left].
  - destruct s; [discriminate | right; eauto].
Qed.

(** ** Finite entries *)

Lemma mul_self_finite (a : spec_float) : SFfinite (SF64mul a a) -> SFfinite a.
Proof. destruct a as [s | s | | s m e]; simpl; auto. Qed.

Lemma add_finite (a b : spec_float) :
  SFfinite (SF64add a b) -> SFfinite a /\ SFfinite b.
Proof.
  destruct a as [sa | sa | | sa ma ea], b as [sb | sb | | sb mb eb];
    simpl; auto; destruct sa, sb; simpl; auto.
Qed.

Lemma sqrt_finite (a : spec_float) : SFfinite (SF64sqrt a) -> SFfinite a.
Proof. destruct a as [s | [|] | | s m e]; simpl; auto. Qed.

Lemma bounded_inv (m : positive) (e : Z) :
  bounded prec emax m e = true ->
  fexp prec emax (Zpos (digits2_pos m) + e) = e /\ (e <= emax - prec)%Z.
Proof.
  unfold bounded, canonical_mantissa. rewrite andb_true_iff.
  intros [Hc He]. split; [now apply Z.eqb_eq | now apply Z.leb_le].
Qed.

(** Multiplication by one is exact. *)
Lemma SFmul_one (a : spec_float) :
  valid_binary a = true -> SF64mul (Prim2SF 1) a = a.
Proof.
  change (Prim2SF 1) with (S754_finite false 4503599627370496 (-52)).
  destruct a as [s | s | | s m e]; try reflexivity.
  intros Hv. apply bounded_inv in Hv. destruct Hv as [Hcanon Hexp].
  unfold SF64mul, SFmul. cbn [xorb].
  change (Z.pos (4503599627370496 * m)) with (Z.pos (shift_nat 52 m)).
  unfold binary_round_aux.
  assert (H1 : shr_fexp prec emax (Z.pos (shift_nat 52 m)) (-52 + e) loc_Exact
               = (Build_shr_record (Z.pos m) false false, e)).
  { unfold shr_fexp. cbn [Zdigits2]. rewrite digits2_shift_nat.
    replace (Z.of_nat 52 + Z.pos (digits2_pos m) + (-52 + e))%Z
      with (Z.pos (digits2_pos m) + e)%Z by lia.
    rewrite Hcanon. replace (e - (-52 + e))%Z with 52%Z by lia.
    unfold shr. rewrite iter_pos_nat.
    change (Pos.to_nat 52) with 52%nat.
    cbn [shr_record_of_loc]. rewrite shr_pow2. f_equal. lia. }
  rewrite H1. cbn [shr_m loc_of_shr_record round_nearest_even].
  assert (H2 : shr_fexp prec emax (Z.pos m) e loc_Exact
               = (Build_shr_record (Z.pos m) false false, e)).
  { unfold shr_fexp. cbn [Zdigits2]. rewrite Hcanon, Z.sub_diag.
    reflexivity. }
  rewrite H2. cbn [shr_m].
  apply Z.leb_le in Hexp. now rewrite Hexp.
Qed.

Lemma mul_one (v : float) : (1 * v)%float = v.
Proof.
  apply Prim2SF_inj. rewrite mul_spec. apply SFmul_one, Prim2SF_valid.
Qed.

Lemma shl_align_value (mx : positive) (ex ez : Z) :
  ez <= ex ->
  Zpos (fst (shl_align mx ex ez)) = Zpos mx * 2 ^ (ex - ez).
Proof.
  intros Hle. unfold shl_align.
  destruct (ez - ex) as [|d|d] eqn:Hd; try lia.
  - replace (ex - ez) with 0 by lia. cbn [fst]. lia.
  - cbn [fst]. change (Pos.iter xO mx d) with (shift_pos d mx).
    rewrite shift_pos_correct, Zpower_pos_nat, Zpower_nat_Z, positive_nat_Z.
    replace (ex - ez) with (Zpos d) by lia. lia.
Qed.

(** What a valid finite binary64 value says of its mantissa. *)
Lemma bounded_mantissa (m : positive) (e : Z) :
  bounded prec emax m e = true ->
  -1074 <= e <= 971 /\ Zpos (digits2_pos m) <= 53 /\ Zpos m < 2 ^ 53
  /\ (-1074 < e -> 2 ^ 52 <= Zpos m).
Proof.
  unfold bounded, canonical_mantissa. rewrite andb_true_iff, Z.eqb_eq, Z.leb_le.
  rewrite fexp_binary64. change (emax - prec) with 971.
  intros [Hc He]. pose proof (digits2_bounds m) as [Hlo Hhi].
  assert (Hd : Zpos (digits2_pos m) <= 53) by lia.
  repeat split; try lia.
  - apply Z.lt_le_trans with (2 ^ Zpos (digits2_pos m)); [exact Hhi|].
    apply Z.pow_le_mono_r; lia.
  - intros Hnorm. replace 52 with (Zpos (digits2_pos m) - 1) by lia.
    exact Hlo.
Qed.

(** The order of two valid positive values, on mantissas aligned at the
    smaller exponent. *)
Lemma compare_aligned (a b : positive) (ea eb : Z) :
  bounded prec emax a ea = true -> bounded prec emax b eb = true ->
  let z := Z.min ea eb in
  match SFcompare (S754_finite false a ea) (S754_finite false b eb) with
  | Some Lt => Zpos a * 2 ^ (ea - z) < Zpos b * 2 ^ (eb - z)
  | Some Eq => Zpos a * 2 ^ (ea - z) = Zpos b * 2 ^ (eb - z)
  | Some Gt => Zpos a * 2 ^ (ea - z) > Zpos b * 2 ^ (eb - z)
  | None => False
  end.
Proof.
  intros Ha Hb z. cbn [SFcompare].
  destruct (bounded_mantissa a ea Ha) as [Hea [_ [Ha53 Ha52]]].
  destruct (bounded_mantissa b eb Hb) as [Heb [_ [Hb53 Hb52]]].
  destruct (Z.compare_spec ea eb) as [Heq | Hlt | Hgt].
  - subst eb. unfold z. rewrite Z.min_id, Z.sub_diag. simpl (2 ^ 0).
    rewrite !Z.mul_1_r.
    change (Pos.compare_cont Eq a b) with (Pos.compare a b).
    destruct (Pos.compare_spec a b); [congruence | lia | lia].
  - unfold z. replace (Z.min ea eb) with ea by lia.
    rewrite Z.sub_diag. simpl (2 ^ 0). rewrite Z.mul_1_r.
    assert (2 ^ 1 <= 2 ^ (eb - ea)) by (apply Z.pow_le_mono_r; lia).
    specialize (Hb52 ltac:(lia)). simpl (2 ^ 1) in *. nia.
  - unfold z. replace (Z.min ea eb) with eb by lia.
    rewrite Z.sub_diag. simpl (2 ^ 0). rewrite Z.mul_1_r.
    assert (2 ^ 1 <= 2 ^ (ea - eb)) by (apply Z.pow_le_mono_r; lia).
    specialize (Ha52 ltac:(lia)). simpl (2 ^ 1) in *. nia.
Qed.

Lemma div_core_value (a b : positive) (ea eb : Z) :
  let e' := div_exponent a b ea eb in
  exists l : location,
    SFdiv_core_binary prec emax (Zpos a) ea (Zpos b) eb
    = (Zpos a * 2 ^ (ea - eb - e') / Zpos b, e', l).
Proof.
  intros e'. unfold SFdiv_core_binary. cbn [Zdigits2]. fold (div_exponent a b ea eb).
  fold e'.
  assert (Hs : 0 <= ea - eb - e') by (unfold e', div_exponent; lia).
  assert (Hm : match ea - eb - e' with
               | Zpos _ => Z.shiftl (Zpos a) (ea - eb - e')
               | Z0 => Zpos a
               | Zneg _ => 0
               end = Zpos a * 2 ^ (ea - eb - e')).
  { destruct (ea - eb - e') as [|p|p] eqn:Hp; try lia.
    now rewrite Z.shiftl_mul_pow2 by lia. }
  rewrite Hm. unfold Z.div.
  destruct (Z.div_eucl (Zpos a * 2 ^ (ea - eb - e')) (Zpos b)) as [q r].
  eexists. reflexivity.
Qed.

Section Quotient.
Variables (a b : positive) (ea eb : Z).
Hypothesis Ha : bounded prec emax a ea = true.
Hypothesis Hb : bounded prec emax b eb = true.

Let z := Z.min ea eb.
Let e' := div_exponent a b ea eb.
Let q := Zpos a * 2 ^ (ea - eb - e') / Zpos b.

Lemma quotient_lower :
  Zpos b * 2 ^ (eb - z) <= Zpos a * 2 ^ (ea - z) ->
  1 <= q /\ 2 ^ (- e') <= q.
Proof.
  intros Hval.
  destruct (bounded_mantissa a ea Ha) as [Hea [Hda [Ha53 _]]].
  destruct (bounded_mantissa b eb Hb) as [Heb [Hdb [Hb53 _]]].
  pose proof (digits2_bounds a) as [Halo Hahi].
  pose proof (digits2_bounds b) as [Hblo Hbhi].
  assert (Hs : 0 <= ea - eb - e') by (unfold e', div_exponent; lia).
  assert (Hps : 0 < 2 ^ (ea - eb - e')) by (apply Z.pow_pos_nonneg; lia).
  assert (Hq0 : 0 <= q).
  { unfold q. apply Z.div_pos; lia. }
  assert (Hsecond : 2 ^ (- e') <= q).
  { destruct (Z_le_gt_dec e' 0) as [Hle | Hgt];
      [|rewrite Z.pow_neg_r by lia; exact Hq0].
    unfold q. apply Z.div_le_lower_bound; [lia|].
    assert (Hpe : 0 < 2 ^ (- e')) by (apply Z.pow_pos_nonneg; lia).
    destruct (Z_le_gt_dec eb ea) as [Hge | Hlt].
    - unfold z in Hval. replace (Z.min ea eb) with eb in Hval by lia.
      rewrite Z.sub_diag in Hval. simpl (2 ^ 0) in Hval.
      replace (ea - eb - e') with ((ea - eb) + - e') by lia.
      rewrite Z.pow_add_r by lia. nia.
    - unfold z in Hval. replace (Z.min ea eb) with ea in Hval by lia.
      rewrite Z.sub_diag in Hval. simpl (2 ^ 0) in Hval.
      replace (- e') with ((eb - ea) + (ea - eb - e')) by lia.
      rewrite Z.pow_add_r by lia. nia. }
  split; [|exact Hsecond].
  destruct (Z_le_gt_dec e' 0) as [Hle | Hgt].
  - assert (1 <= 2 ^ (- e')); [|lia].
    change 1 with (2 ^ 0). apply Z.pow_le_mono_r; lia.
  - unfold q. apply Z.div_le_lower_bound; [lia|]. rewrite Z.mul_1_r.
    assert (He' : e' <= Zpos (digits2_pos a) + ea
                        - (Zpos (digits2_pos b) + eb) - 53).
    { unfold e', div_exponent in *. rewrite fexp_binary64 in *. lia. }
    apply Z.le_trans with (2 ^ Zpos (digits2_pos b)); [lia|].
    apply Z.le_trans
      with (2 ^ (Zpos (digits2_pos a) - 1) * 2 ^ (ea - eb - e')).
    + rewrite <- Z.pow_add_r by lia. apply Z.pow_le_mono_r; lia.
    + apply Z.mul_le_mono_nonneg_r; lia.
Qed.

Lemma quotient_upper :
  Zpos a * 2 ^ (ea - z) < Zpos b * 2 ^ (eb - z) ->
  0 <= q /\ q + 1 <= 2 ^ (- e').
Proof.
  intros Hval.
  destruct (bounded_mantissa a ea Ha) as [Hea [Hda [Ha53 _]]].
  destruct (bounded_mantissa b eb Hb) as [Heb [Hdb [Hb53 _]]].
  pose proof (digits2_bounds a) as [Halo Hahi].
  pose proof (digits2_bounds b) as [Hblo Hbhi].
  assert (Hs : 0 <= ea - eb - e') by (unfold e', div_exponent; lia).
  assert (Hps : 0 < 2 ^ (ea - eb - e')) by (apply Z.pow_pos_nonneg; lia).
  assert (Hq0 : 0 <= q).
  { unfold q. apply Z.div_pos; lia. }
  split; [exact Hq0|].
  assert (Hdig : Zpos (digits2_pos a) + ea - (Zpos (digits2_pos b) + eb) <= 0).
  { assert (Hz1 : 0 <= ea - z) by (unfold z; lia).
    assert (Hz2 : 0 <= eb - z) by (unfold z; lia).
    assert (H : 2 ^ (Zpos (digits2_pos a) - 1 + (ea - z))
                < 2 ^ (Zpos (digits2_pos b) + (eb - z))).
    { rewrite !Z.pow_add_r by lia.
      assert (0 < 2 ^ (ea - z)) by (apply Z.pow_pos_nonneg; lia).
      assert (0 < 2 ^ (eb - z)) by (apply Z.pow_pos_nonneg; lia).
      nia. }
    apply Z.pow_lt_mono_r_iff in H; lia. }
  assert (He' : e' <= -53).
  { unfold e', div_exponent. rewrite fexp_binary64. lia. }
  assert (Hpe : 0 < 2 ^ (- e')) by (apply Z.pow_pos_nonneg; lia).
  assert (q < 2 ^ (- e')); [|lia].
  unfold q. apply Z.div_lt_upper_bound; [lia|].
  destruct (Z_le_gt_dec eb ea) as [Hge | Hlt].
  - unfold z in Hval. replace (Z.min ea eb) with eb in Hval by lia.
    rewrite Z.sub_diag in Hval. simpl (2 ^ 0) in Hval.
    replace (ea - eb - e') with ((ea - eb) + - e') by lia.
    rewrite Z.pow_add_r by lia. nia.
  - unfold z in Hval. replace (Z.min ea eb) with ea in Hval by lia.
    rewrite Z.sub_diag in Hval. simpl (2 ^ 0) in Hval.
    replace (- e') with ((eb - ea) + (ea - eb - e')) by lia.
    rewrite Z.pow_add_r by lia. nia.
Qed.
End Quotient.

Lemma SFdiv_ge_one (a b : positive) (ea eb : Z) :
  bounded prec emax a ea = true -> bounded prec emax b eb = true ->
  SFleb (S754_finite false b eb) (S754_finite false a ea) = true ->
  SF64div (S754_finite false a ea) (S754_finite false b eb)
  = S754_infinity false
  \/ exists (m : positive) (e : Z),
       SF64div (S754_finite false a ea) (S754_finite false b eb)
       = S754_finite false m e
       /\ 2 ^ (- e) <= Zpos m.
Proof.
  intros Ha Hb Hle.
  pose proof (compare_aligned b a eb ea Hb Ha) as Hcmp. cbv zeta in Hcmp.
  unfold SFleb in Hle.
  assert (Hval : Zpos b * 2 ^ (eb - Z.min ea eb)
                 <= Zpos a * 2 ^ (ea - Z.min ea eb)).
  { rewrite (Z.min_comm ea eb).
    destruct (SFcompare _ _) as [[ | | ] | ]; try discriminate; lia. }
  destruct (quotient_lower a b ea eb Ha Hb Hval) as [Hq1 Hq2].
  unfold SF64div, SFdiv.
  destruct (div_core_value a b ea eb) as [l Hcore]. rewrite Hcore.
  cbn [xorb]. now apply round_aux_lower.
Qed.

Lemma SFdiv_lt_one (a b : positive) (ea eb : Z) :
  bounded prec emax a ea = true -> bounded prec emax b eb = true ->
  SFltb (S754_finite false a ea) (S754_finite false b eb) = true ->
  SF64div (S754_finite false a ea) (S754_finite false b eb)
  = S754_zero false
  \/ exists (m : positive) (e : Z),
       SF64div (S754_finite false a ea) (S754_finite false b eb)
       = S754_finite false m e
       /\ Zpos m <= 2 ^ (- e).
Proof.
  intros Ha Hb Hlt.
  pose proof (compare_aligned a b ea eb Ha Hb) as Hcmp. cbv zeta in Hcmp.
  unfold SFltb in Hlt.
  assert (Hval : Zpos a * 2 ^ (ea - Z.min ea eb)
                 < Zpos b * 2 ^ (eb - Z.min ea eb)).
  { destruct (SFcompare _ _) as [[ | | ] | ]; try discriminate; lia. }
  destruct (quotient_upper a b ea eb Ha Hb Hval) as [Hq1 Hq2].
  unfold SF64div, SFdiv.
  destruct (div_core_value a b ea eb) as [l Hcore]. rewrite Hcore.
  cbn [xorb]. now apply round_aux_upper.
Qed.

Lemma binary_round_cases (s : bool) (m : positive) (e : Z) :
  let r := binary_round prec emax s m e in
  r = S754_zero s \/ r = S754_infinity s
  \/ exists m' e', r = S754_finite s m' e'.
Proof.
  unfold binary_round.
  destruct (shl_align m e _) as [mz ez].
  pose proof (round_aux_not_nan s (Zpos mz) ez loc_Exact ltac:(lia)) as Hnan.
  destruct (round_aux_cases s (Zpos mz) ez loc_Exact)
    as [H | [H | [H | H]]]; auto. contradiction.
Qed.

Lemma SFsub_one_value (m : positive) (e : Z) :
  SF64sub SFone (S754_finite false m e)
  = binary_normalize prec emax
      (2 ^ 52 * 2 ^ (-52 - Z.min (-52) e) - Zpos m * 2 ^ (e - Z.min (-52) e))
      (Z.min (-52) e) false.
Proof.
  unfold SF64sub, SFone, SFsub. cbn [cond_Zopp].
  rewrite !shl_align_value by lia. reflexivity.
Qed.

Lemma SFsub_one_ge (m : positive) (e : Z) :
  2 ^ (- e) <= Zpos m -> nonpositive (SF64sub SFone (S754_finite false m e)).
Proof.
  intros Hge. rewrite SFsub_one_value.
  set (D := 2 ^ 52 * 2 ^ (-52 - Z.min (-52) e) - Zpos m * 2 ^ (e - Z.min (-52) e)).
  assert (HD : D <= 0).
  { unfold D. destruct (Z_le_gt_dec e (-52)) as [Hle | Hgt].
    - replace (Z.min (-52) e) with e by lia.
      rewrite Z.sub_diag, <- Z.pow_add_r by lia.
      replace (52 + (-52 - e)) with (- e) by lia. simpl (2 ^ 0). lia.
    - replace (Z.min (-52) e) with (-52) by lia.
      replace (-52 - -52) with 0 by lia. simpl (2 ^ 0).
      assert (2 ^ 52 <= Zpos m * 2 ^ (e - -52)); [|lia].
      destruct (Z_le_gt_dec e 0) as [He | He].
      + apply Z.le_trans with (2 ^ (- e) * 2 ^ (e - -52)).
        * rewrite <- Z.pow_add_r by lia. apply Z.pow_le_mono_r; lia.
        * apply Z.mul_le_mono_nonneg_r; [|exact Hge].
          apply Z.pow_nonneg; lia.
      + assert (2 ^ 52 <= 2 ^ (e - -52)) by (apply Z.pow_le_mono_r; lia).
        nia. }
  unfold binary_normalize. destruct D as [|p|p]; try lia; [exact I|].
  destruct (binary_round_cases true p (Z.min (-52) e))
    as [H | [H | [m' [e' H]]]]; rewrite H; simpl; auto.
Qed.

Lemma SFsub_one_le (m : positive) (e : Z) :
  Zpos m <= 2 ^ (- e) -> sign_clear (SF64sub SFone (S754_finite false m e)).
Proof.
  intros Hle. rewrite SFsub_one_value.
  set (D := 2 ^ 52 * 2 ^ (-52 - Z.min (-52) e) - Zpos m * 2 ^ (e - Z.min (-52) e)).
  assert (He : e <= 0).
  { destruct (Z_le_gt_dec e 0); [assumption|].
    rewrite Z.pow_neg_r in Hle; lia. }
  assert (HD : 0 <= D).
  { unfold D. destruct (Z_le_gt_dec e (-52)) as [Hle' | Hgt].
    - replace (Z.min (-52) e) with e by lia.
      rewrite Z.sub_diag, <- Z.pow_add_r by lia.
      replace (52 + (-52 - e)) with (- e) by lia. simpl (2 ^ 0). lia.
    - replace (Z.min (-52) e) with (-52) by lia.
      replace (-52 - -52) with 0 by lia. simpl (2 ^ 0).
      assert (Zpos m * 2 ^ (e - -52) <= 2 ^ 52); [|lia].
      apply Z.le_trans with (2 ^ (- e) * 2 ^ (e - -52)).
      + apply Z.mul_le_mono_nonneg_r; [|exact Hle]. apply Z.pow_nonneg; lia.
      + rewrite <- Z.pow_add_r by lia. apply Z.pow_le_mono_r; lia. }
  unfold binary_normalize. destruct D as [|p|p]; try lia; [reflexivity|].
  destruct (binary_round_cases false p (Z.min (-52) e))
    as [H | [H | [m' [e' H]]]]; rewrite H; simpl; auto.
Qed.

Lemma maximum_nonpositive (a : float) :
  nonpositive (Prim2SF a) -> exists s, Prim2SF (maximum a 0) = S754_zero s.
Proof.
  intros Ha. unfold maximum, is_nan.
  rewrite FloatAxioms.leb_spec, FloatAxioms.eqb_spec.
  change (Prim2SF 0) with (S754_zero false).
  destruct (Prim2SF a) as [s | s | | s m e] eqn:Hsf; simpl in Ha;
    try contradiction; subst; cbn.
  - rewrite Hsf. eauto.
  - exists false. reflexivity.
  - rewrite Pos.compare_cont_refl, Z.compare_refl. cbn.
    exists false. reflexivity.
Qed.

Lemma maximum_sign_clear (a : float) :
  sign_clear (Prim2SF a) -> maximum a 0 = a.
Proof.
  intros Ha. unfold maximum, is_nan.
  rewrite FloatAxioms.leb_spec, FloatAxioms.eqb_spec.
  change (Prim2SF 0) with (S754_zero false).
  destruct (Prim2SF a) as [s | s | | s m e] eqn:Hsf; simpl in Ha;
    subst; reflexivity.
Qed.

(** A positive finite float is a finite positive mantissa and exponent. *)
Lemma positive_finite_inv (r : float) :
  (0 <? r)%float = true -> is_finite r = true ->
  exists m e, Prim2SF r = S754_finite false m e
              /\ bounded prec emax m e = true.
Proof.
  intros Hpos Hfin.
  destruct (ltb_zero_inv r Hpos) as [Hinf | [m [e Hme]]].
  - apply Prim2SF_inj with (y := infinity) in Hinf. subst r. discriminate Hfin.
  - exists m, e. split; [exact Hme|].
    pose proof (Prim2SF_valid r) as Hv. now rewrite Hme in Hv.
Qed.

Section Threshold.
Variables (gamma r : float).
Hypothesis Hpos : (0 <? r)%float = true.
Hypothesis Hfin : is_finite r = true.

(** At or above the norm the factor is a zero. *)
Lemma factor_at_or_above :
  (r <=? gamma)%float = true ->
  exists s, Prim2SF (maximum (1 - gamma / r) 0) = S754_zero s.
Proof.
  intros Hle. apply maximum_nonpositive.
  destruct (positive_finite_inv r Hpos Hfin) as [b [eb [Hr Hb]]].
  rewrite sub_spec, div_spec, Hr.
  change (Prim2SF 1) with SFone.
  rewrite FloatAxioms.leb_spec, Hr in Hle.
  pose proof (Prim2SF_valid gamma) as Hv.
  destruct (Prim2SF gamma) as [s | s | | s a ea] eqn:Hg.
  - destruct s; discriminate Hle.
  - destruct s; [discriminate Hle | reflexivity].
  - discriminate Hle.
  - destruct s; [discriminate Hle|]. cbn [valid_binary] in Hv.
    destruct (SFdiv_ge_one a b ea eb Hv Hb Hle) as [Hq | [m [e [Hq Hge]]]];
      rewrite Hq; [reflexivity|].
    now apply SFsub_one_ge.
Qed.

(** Below the norm the factor is [1 - gamma / r] itself. *)
Lemma factor_below :
  (gamma <? r)%float = true ->
  maximum (1 - gamma / r) 0 = (1 - gamma / r)%float.
Proof.
  intros Hlt. apply maximum_sign_clear.
  destruct (positive_finite_inv r Hpos Hfin) as [b [eb [Hr Hb]]].
  rewrite sub_spec, div_spec, Hr.
  change (Prim2SF 1) with SFone.
  rewrite FloatAxioms.ltb_spec, Hr in Hlt.
  pose proof (Prim2SF_valid gamma) as Hv.
  destruct (Prim2SF gamma) as [s | s | | s a ea] eqn:Hg.
  - reflexivity.
  - destruct s; [reflexivity | discriminate Hlt].
  - discriminate Hlt.
  - destruct s.
    + unfold SF64div, SFdiv.
      destruct (SFdiv_core_binary prec emax (Z.pos a) ea (Z.pos b) eb)
        as [[mz ez] lz].
      cbn [xorb].
      destruct (round_aux_cases true mz ez lz)
        as [H | [H | [H | [m' [e' H]]]]]; rewrite H; try reflexivity.
      unfold SF64sub, SFone, SFsub. cbn [cond_Zopp negb].
      rewrite Z.sub_opp_r. cbn [Z.add binary_normalize].
      unfold binary_round. destruct (shl_align _ _ _).
      apply round_aux_sign_clear.
    + cbn [valid_binary] in Hv.
      destruct (SFdiv_lt_one a b ea eb Hv Hb Hlt) as [Hq | [m [e [Hq Hle]]]];
        rewrite Hq; [reflexivity|].
      now apply SFsub_one_le.
Qed.
End Threshold.

Local Close Scope Z_scope.

(** ** The proximal operator *)

(** *** The order of summation

    [add_reduce] adds the entries of a row in an order that depends on its
    length.  Two facts hold whatever the order: a property of every entry
    that additions keep is a property of the sum, and a property that a sum
    has only when both operands have it is a property of every entry. *)

Ltac split_entries H :=
  repeat match type of H with
         | Forall _ (_ :: _) =>
             let Hv := fresh "Hv" in
             apply Forall_cons_iff in H; destruct H as [Hv H]
         end.

Section SumOrder.
Variable P : float -> Prop.

Section Kept.
Hypothesis P_zero : P 0%float.
Hypothesis P_add : forall a b : float, P a -> P b -> P (a + b)%float.

Lemma fold_add_keeps (r : vec) :
  forall acc : float,
    P acc -> Forall P r -> P (fold_left PrimFloat.add r acc).
Proof.
  induction r as [|w r IH]; intros acc Hacc Hr; cbn [fold_left].
  - exact Hacc.
  - split_entries Hr. apply IH; [now apply P_add | assumption].
Qed.

Lemma unrolled_keeps (n : nat) :
  forall (a : vec) (r0 r1 r2 r3 r4 r5 r6 r7 : float),
    (length a <= n)%nat ->
    P r0 -> P r1 -> P r2 -> P r3 -> P r4 -> P r5 -> P r6 -> P r7 ->
    Forall P a -> P (unrolled r0 r1 r2 r3 r4 r5 r6 r7 a).
Proof.
  induction n as [|n IH]; intros a r0 r1 r2 r3 r4 r5 r6 r7 Hlen
    H0 H1 H2 H3 H4 H5 H6 H7 Ha.
  - destruct a; [|simpl in Hlen; lia]. cbn [unrolled fold_left].
    repeat apply P_add; assumption.
  - destruct a as [|a0 [|a1 [|a2 [|a3 [|a4 [|a5 [|a6 [|a7 a']]]]]]]];
      cbn [unrolled];
      try (apply fold_add_keeps; [repeat apply P_add; assumption | exact Ha]).
    split_entries Ha.
    apply IH; try (apply P_add; assumption); try assumption.
    simpl in Hlen. lia.
Qed.

Lemma block_sum_keeps (a : vec) : Forall P a -> P (block_sum a).
Proof.
  intros Ha.
  destruct a as [|a0 [|a1 [|a2 [|a3 [|a4 [|a5 [|a6 [|a7 a']]]]]]]];
    cbn [block_sum]; try exact P_zero;
    try (apply Forall_cons_iff in Ha; destruct Ha as [Hv Ha];
         now apply fold_add_keeps).
  split_entries Ha. now apply (unrolled_keeps (length a')).
Qed.

Lemma pairwise_sum_keeps (depth : nat) :
  forall a : vec, Forall P a -> P (pairwise_sum depth a).
Proof.
  induction depth as [|depth IH]; intros a Ha; cbn [pairwise_sum].
  - now apply block_sum_keeps.
  - destruct (128 <? length a)%nat; [|now apply block_sum_keeps].
    rewrite <- (firstn_skipn (split_point (length a)) a) in Ha.
    apply Forall_app in Ha. destruct Ha as [Hfirst Hrest].
    apply P_add; now apply IH.
Qed.

Lemma add_reduce_keeps (a : vec) : Forall P a -> P (add_reduce a).
Proof. apply pairwise_sum_keeps. Qed.
End Kept.

Section Inherited.
Hypothesis P_add_inv : forall a b : float, P (a + b)%float -> P a /\ P b.

Ltac operands H :=
  repeat match type of H with
         | P (_ + _)%float =>
             let Ha := fresh "Ha" in
             let Hb := fresh "Hb" in
             apply P_add_inv in H; destruct H as [Ha Hb];
             try operands Ha; try operands Hb
         end.

Lemma fold_add_inherits (r : vec) :
  forall acc : float,
    P (fold_left PrimFloat.add r acc) -> P acc /\ Forall P r.
Proof.
  induction r as [|w r IH]; intros acc H; cbn [fold_left] in H.
  - now split.
  - destruct (IH _ H) as [Hacc Hr].
    destruct (P_add_inv _ _ Hacc) as [Ha Hw]. split; [exact Ha|].
    now constructor.
Qed.

Lemma unrolled_inherits (n : nat) :
  forall (a : vec) (r0 r1 r2 r3 r4 r5 r6 r7 : float),
    (length a <= n)%nat ->
    P (unrolled r0 r1 r2 r3 r4 r5 r6 r7 a) ->
    Forall P [r0; r1; r2; r3; r4; r5; r6; r7] /\ Forall P a.
Proof.
  induction n as [|n IH]; intros a r0 r1 r2 r3 r4 r5 r6 r7 Hlen H.
  - destruct a; [|simpl in Hlen; lia]. cbn [unrolled fold_left] in H.
    operands H. split; repeat constructor; assumption.
  - destruct a as [|a0 [|a1 [|a2 [|a3 [|a4 [|a5 [|a6 [|a7 a']]]]]]]];
      cbn [unrolled] in H;
      try (apply fold_add_inherits in H; destruct H as [H Hrest];
           operands H; split; [repeat constructor; assumption | exact Hrest]).
    apply IH in H; [|simpl in Hlen; lia]. destruct H as [Hr Ha'].
    split_entries Hr. operands Hv. operands Hv0. operands Hv1. operands Hv2.
    operands Hv3. operands Hv4. operands Hv5. operands Hv6.
    split; repeat constructor; assumption.
Qed.

Lemma block_sum_inherits (a : vec) : P (block_sum a) -> Forall P a.
Proof.
  intros H.
  destruct a as [|v0 [|v1 [|v2 [|v3 [|v4 [|v5 [|v6 [|v7 w]]]]]]]];
    cbn [block_sum] in H;
    [ constructor
    | apply fold_add_inherits in H; destruct H; now constructor ..
    | ].
  apply (unrolled_inherits (length w)) in H; [|lia].
  destruct H as [Hr Hw].
  apply (Forall_app P [v0; v1; v2; v3; v4; v5; v6; v7] w). now split.
Qed.

Lemma pairwise_sum_inherits (depth : nat) :
  forall a : vec, P (pairwise_sum depth a) -> Forall P a.
Proof.
  induction depth as [|depth IH]; intros a H; cbn [pairwise_sum] in H.
  - now apply block_sum_inherits.
  - destruct (128 <? length a)%nat; [|now apply block_sum_inherits].
    apply P_add_inv in H. destruct H as [H1 H2].
    rewrite <- (firstn_skipn (split_point (length a)) a).
    apply Forall_app. split; now apply IH.
Qed.

Lemma add_reduce_inherits (a : vec) : P (add_reduce a) -> Forall P a.
Proof. apply pairwise_sum_inherits. Qed.
End Inherited.
End SumOrder.

(** The depth given to [pairwise_sum] is immaterial once it covers the
    nested cuts, so [add_reduce] unfolds as the recursion it models. *)
Lemma split_point_bounds (n : nat) :
  (128 < n)%nat -> (0 < split_point n < n)%nat.
Proof.
  intros Hn. unfold split_point.
  pose proof (Nat.mod_upper_bound (n / 2) 8).
  assert (64 <= n / 2)%nat by (apply Nat.div_le_lower_bound; lia).
  assert (n / 2 <= n)%nat by (apply Nat.Div0.div_le_upper_bound; lia).
  assert (n / 2 < n)%nat by (apply Nat.div_lt; lia).
  lia.
Qed.

Lemma pairwise_sum_depth (d1 : nat) :
  forall (d2 : nat) (a : vec),
    (length a <= d1 + 128)%nat -> (length a <= d2 + 128)%nat ->
    pairwise_sum d1 a = pairwise_sum d2 a.
Proof.
  induction d1 as [|d1 IH]; intros d2 a H1 H2.
  - destruct d2 as [|d2]; [reflexivity|]. cbn [pairwise_sum].
    destruct (Nat.ltb_spec 128 (length a)) as [Hlt | _]; [lia | reflexivity].
  - destruct d2 as [|d2]; cbn [pairwise_sum].
    + destruct (Nat.ltb_spec 128 (length a)) as [Hlt | _]; [lia | reflexivity].
    + destruct (Nat.ltb_spec 128 (length a)) as [Hlt | _]; [|reflexivity].
      pose proof (split_point_bounds _ Hlt) as Hcut.
      f_equal; apply IH; rewrite ?length_firstn, ?length_skipn; lia.
Qed.

Lemma add_reduce_short (s : vec) :
  (length s <= 128)%nat -> add_reduce s = block_sum s.
Proof.
  intros Hlen. unfold add_reduce.
  destruct (length s) as [|n] eqn:Hn; [reflexivity|]. cbn [pairwise_sum].
  rewrite Hn. destruct (Nat.ltb_spec 128 (S n)) as [Hlt | _];
    [lia | reflexivity].
Qed.

Lemma add_reduce_cut (s : vec) :
  (128 < length s)%nat ->
  add_reduce s
  = (add_reduce (firstn (split_point (length s)) s)
     + add_reduce (skipn (split_point (length s)) s))%float.
Proof.
  intros Hlen. unfold add_reduce at 1.
  destruct (length s) as [|n] eqn:Hn; [lia|]. cbn [pairwise_sum].
  rewrite Hn. destruct (Nat.ltb_spec 128 (S n)) as [_ | Hge]; [|lia].
  pose proof (split_point_bounds _ Hlen) as Hcut.
  unfold add_reduce.
  f_equal; apply pairwise_sum_depth;
    rewrite ?length_firstn, ?length_skipn; lia.
Qed.

(** On sixteen squares of [0.1] the order shows in the last digits: the
    eight running sums give [0.16000000000000003], a left-to-right sum
    gives [0.16000000000000009]. *)
Lemma add_reduce_sixteen :
  add_reduce (repeat (0.1 * 0.1)%float 16) = 0.16000000000000003%float
  /\ fold_left PrimFloat.add (repeat (0.1 * 0.1)%float 15) (0.1 * 0.1)%float
     = 0.16000000000000009%float.
Proof. split; vm_compute; reflexivity. Qed.

(** numpy's loop over a row of fewer than eight entries starts from a
    zero, and the sum of any row is added to the zero the result was
    initialised with.  On entries that carry no sign, as squares do, neither
    addition changes the value. *)
Lemma zero_add_sign_clear (v : float) :
  sign_clear (Prim2SF v) -> (0 + v)%float = v.
Proof.
  intros Hv. apply Prim2SF_inj. rewrite add_spec.
  change (Prim2SF 0) with (S754_zero false).
  destruct (Prim2SF v) as [s | s | | s m e]; simpl in Hv; subst; reflexivity.
Qed.

Lemma add_reduce_from_zero (s : vec) :
  Forall (fun v => sign_clear (Prim2SF v)) s ->
  (0 + add_reduce s)%float = add_reduce s
  /\ ((length s < 8)%nat ->
      fold_left PrimFloat.add s 0%float = add_reduce s).
Proof.
  intros Hs. split.
  - apply zero_add_sign_clear.
    apply (add_reduce_keeps (fun v => sign_clear (Prim2SF v)));
      [reflexivity | | exact Hs].
    intros a b Ha Hb. rewrite add_spec. now apply add_sign_clear.
  - intros Hlen. rewrite add_reduce_short by lia.
    destruct s as [|a0 [|a1 [|a2 [|a3 [|a4 [|a5 [|a6 [|a7 a']]]]]]]];
      try reflexivity; try (simpl in Hlen; lia);
      apply Forall_cons_iff in Hs; destruct Hs as [Hv _];
      cbn [block_sum fold_left]; now rewrite (zero_add_sign_clear _ Hv).
Qed.

(** Squares, and therefore their sums, carry no sign. *)
Lemma squares_sign_clear (g : vec) :
  Forall (fun v => sign_clear (Prim2SF v)) (map (fun v => v * v)%float g).
Proof.
  apply Forall_map, Forall_forall. intros v _.
  rewrite mul_spec. apply mul_self_sign_clear.
Qed.

Lemma row_norm_sign_clear (g : vec) : sign_clear (Prim2SF (row_norm g)).
Proof.
  unfold row_norm. rewrite sqrt_spec. apply sqrt_sign_clear.
  apply (add_reduce_keeps (fun v => sign_clear (Prim2SF v))).
  - reflexivity.
  - intros a b Ha Hb. rewrite add_spec. now apply add_sign_clear.
  - apply squares_sign_clear.
Qed.

(** A computed norm that compares equal to zero is [+0]. *)
Lemma row_norm_zero (g : vec) :
  (row_norm g =? 0)%float = true -> row_norm g = 0%float.
Proof.
  intros H. destruct (eqb_zero_inv _ H) as [s Hs].
  pose proof (row_norm_sign_clear g) as Hc. rewrite Hs in Hc. simpl in Hc.
  subst s. now apply Prim2SF_inj.
Qed.

(** A positive threshold over a zero norm is [+infinity]. *)
Lemma div_pos_zero (gamma : float) :
  (0 <? gamma)%float = true -> (gamma / 0)%float = infinity.
Proof.
  intros H. apply Prim2SF_inj. rewrite div_spec.
  change (Prim2SF 0) with (S754_zero false).
  destruct (ltb_zero_inv _ H) as [-> | [m [e ->]]]; reflexivity.
Qed.

Lemma factor_zero_norm (gamma : float) (g : vec) :
  (0 <? gamma)%float = true -> (row_norm g =? 0)%float = true ->
  factor gamma g = 0%float.
Proof.
  intros Hg Hn. unfold factor.
  rewrite (row_norm_zero g Hn), (div_pos_zero gamma Hg). reflexivity.
Qed.

(** A finite norm has finite entries under it. *)
Lemma row_norm_finite (g : vec) :
  SFfinite (Prim2SF (row_norm g)) -> Forall (fun v => SFfinite (Prim2SF v)) g.
Proof.
  unfold row_norm. rewrite sqrt_spec. intros H. apply sqrt_finite in H.
  apply (add_reduce_inherits (fun v => SFfinite (Prim2SF v))) in H.
  - rewrite Forall_map in H. revert H. apply Forall_impl.
    intros w Hw. rewrite mul_spec in Hw. now apply mul_self_finite in Hw.
  - intros a b Hab. rewrite add_spec in Hab. now apply add_finite.
Qed.

(** ** Zeros *)

Lemma SF_zero_is_zero (v : float) (s : bool) :
  Prim2SF v = S754_zero s -> zero_entry v.
Proof.
  intros H. unfold zero_entry, is_nan. rewrite !FloatAxioms.eqb_spec, H.
  split; reflexivity.
Qed.

Lemma mul_zero_finite (c v : float) (s : bool) :
  Prim2SF c = S754_zero s -> SFfinite (Prim2SF v) -> zero_entry (c * v)%float.
Proof.
  intros Hc Hv.
  assert (exists s', Prim2SF (c * v)%float = S754_zero s') as [s' Hs'].
  { rewrite mul_spec, Hc. destruct (Prim2SF v) as [sv | sv | | sv m e];
      simpl in *; try contradiction; eauto. }
  exact (SF_zero_is_zero _ _ Hs').
Qed.

Lemma shrink_zero_norm (gamma : float) (g : vec) :
  (0 <? gamma)%float = true -> (row_norm g =? 0)%float = true ->
  Forall zero_entry (shrink gamma g).
Proof.
  intros Hg Hn. unfold shrink, scale.
  rewrite (factor_zero_norm gamma g Hg Hn).
  apply Forall_map.
  assert (Hfin : SFfinite (Prim2SF (row_norm g))).
  { rewrite (row_norm_zero g Hn). exact I. }
  apply row_norm_finite in Hfin. revert Hfin. apply Forall_impl.
  intros v Hv. now apply mul_zero_finite with (s := false).
Qed.

(** A group of zeros has norm [+0]. *)
Lemma square_zero (v : float) : zero_entry v -> (v * v)%float = 0%float.
Proof.
  intros [Hv _]. destruct (eqb_zero_inv v Hv) as [s Hs].
  apply Prim2SF_inj. rewrite mul_spec, Hs. now destruct s.
Qed.

Lemma zeros_row_norm (g : vec) :
  Forall zero_entry g -> (row_norm g =? 0)%float = true.
Proof.
  intros Hg. unfold row_norm.
  assert (Hsum : add_reduce (map (fun v => v * v)%float g) = 0%float).
  { apply (add_reduce_keeps (fun v => v = 0%float)).
    - reflexivity.
    - intros a b -> ->. reflexivity.
    - apply Forall_map. revert Hg. apply Forall_impl. exact square_zero. }
  rewrite Hsum. reflexivity.
Qed.

(** ** Groups *)

Lemma rows_of_concat (n d : nat) :
  forall x : vec, length x = (n * d)%nat -> concat (rows_of n d x) = x.
Proof.
  induction n as [|n IH]; intros x Hlen; cbn [rows_of concat].
  - destruct x; [reflexivity | discriminate].
  - rewrite IH, firstn_skipn; [reflexivity|].
    rewrite length_skipn. lia.
Qed.

Lemma rows_of_length (n d : nat) :
  forall x : vec, length x = (n * d)%nat ->
    Forall (fun g => length g = d) (rows_of n d x).
Proof.
  induction n as [|n IH]; intros x Hlen; cbn [rows_of]; constructor.
  - rewrite length_firstn. lia.
  - apply IH. rewrite length_skipn. lia.
Qed.

(** [reshape] succeeds exactly on a positive group size that divides the
    length, and then cuts [x] into consecutive groups of that size. *)
Lemma reshape_ok (x : vec) (d : Z) :
  (0 < d)%Z -> (Z.of_nat (length x) mod d = 0)%Z ->
  exists rows : list vec,
    reshape x d = Ok rows /\ concat rows = x
    /\ Forall (fun g => length g = Z.to_nat d) rows.
Proof.
  intros Hd Hmod. unfold reshape.
  destruct (d <=? 0)%Z eqn:Hle; [lia|].
  rewrite Hmod. cbn [Z.eqb].
  assert (Hlen : length x = (length x / Z.to_nat d * Z.to_nat d)%nat).
  { rewrite <- (Z2Nat.id d) in Hmod by lia.
    rewrite <- Nat2Z.inj_mod in Hmod.
    pose proof (Nat.div_mod_eq (length x) (Z.to_nat d)). lia. }
  eexists. split; [reflexivity|]. split.
  - now apply rows_of_concat.
  - now apply rows_of_length.
Qed.

Lemma concat_length_groups (rows : list vec) (f : vec -> vec) :
  (forall g, length (f g) = length g) ->
  length (concat (map f rows)) = length (concat rows).
Proof.
  intros Hf. induction rows as [|g rows IH]; [reflexivity|].
  cbn [map concat]. now rewrite !length_app, Hf, IH.
Qed.

Lemma shrink_length (gamma : float) (g : vec) :
  length (shrink gamma g) = length g.
Proof. unfold shrink, scale. apply length_map. Qed.

(** C5, amended: for a positive threshold, a group whose computed norm is
    zero (every group of zeros is one) gets the shrinkage factor 0 and comes
    out as zeros, with no exception and no NaN in it. *)
Theorem prox12norm_zero_group (x : vec) (gamma : float) (d : Z) :
  (0 < d)%Z -> (Z.of_nat (length x) mod d = 0)%Z ->
  (0 <? gamma)%float = true ->
  exists rows : list vec,
    reshape x d = Ok rows
    /\ concat rows = x
    /\ prox12norm x gamma d = Ok (concat (map (shrink gamma) rows))
    /\ (forall g, Forall zero_entry g -> (row_norm g =? 0)%float = true)
    /\ (forall g, In g rows -> (row_norm g =? 0)%float = true ->
          factor gamma g = 0%float /\ Forall zero_entry (shrink gamma g)).
Proof.
  intros Hd Hmod Hgamma.
  destruct (reshape_ok x d Hd Hmod) as [rows [Hrows [Hcat _]]].
  exists rows. split; [exact Hrows|]. split; [exact Hcat|]. split.
  - unfold prox12norm. now rewrite Hrows.
  - split; [exact zeros_row_norm|].
    intros g _ Hn. split.
    + now apply factor_zero_norm.
    + now apply shrink_zero_norm.
Qed.

Lemma reshape_inv (x : vec) (d : Z) (rows : list vec) :
  reshape x d = Ok rows -> concat rows = x.
Proof.
  intros H. unfold reshape in H.
  destruct (d <=? 0)%Z eqn:Hd; [discriminate|].
  destruct (Z.of_nat (length x) mod d =? 0)%Z eqn:Hmod; [|discriminate].
  apply Z.leb_gt in Hd. apply Z.eqb_eq in Hmod.
  destruct (reshape_ok x d Hd Hmod) as [rows' [Hrows' [Hcat _]]].
  unfold reshape in Hrows'.
  destruct (d <=? 0)%Z; [discriminate|]. rewrite Hmod in Hrows'. cbn in Hrows'.
  congruence.
Qed.

Lemma reshape_single (x : vec) :
  x <> [] -> reshape x (Z.of_nat (length x)) = Ok [x].
Proof.
  intros Hx. unfold reshape.
  assert (Hlen : (0 < length x)%nat).
  { destruct x; [contradiction | simpl; lia]. }
  destruct (Z.of_nat (length x) <=? 0)%Z eqn:Hd; [apply Z.leb_le in Hd; lia|].
  rewrite Z_mod_same_full. cbn [Z.eqb].
  rewrite Nat2Z.id, Nat.div_same by lia.
  cbn [rows_of]. now rewrite firstn_all.
Qed.

Lemma prox12norm_length (x : vec) (gamma : float) (d : Z) (out : vec) :
  prox12norm x gamma d = Ok out -> length out = length x.
Proof.
  unfold prox12norm. intros H.
  destruct (reshape x d) as [rows | |] eqn:Hrows; try discriminate.
  cbn [bind] in H. injection H as <-.
  rewrite (concat_length_groups rows (shrink gamma) (shrink_length gamma)).
  now rewrite (reshape_inv x d rows Hrows).
Qed.

(** C5 as stated fails at [gamma = 0]: the factor of a zero-norm group is
    [max(1 - 0/0, 0)], a NaN, and the group comes out as NaNs. *)
Lemma prox12norm_zero_group_nan :
  (0 <=? 0)%float = true
  /\ row_norm [0; 0]%float = 0%float
  /\ prox12norm [0; 0; 3; 4]%float 0%float 2 = Ok [nan; nan; 3; 4]%float
  /\ is_nan nan = true.
Proof. repeat split; reflexivity. Qed.

Lemma prox12norm_zero_group_witness :
  exists rows : list vec,
    reshape [0; 0; 3; 4]%float 2 = Ok rows
    /\ concat rows = [0; 0; 3; 4]%float
    /\ prox12norm [0; 0; 3; 4]%float 1%float 2
       = Ok (concat (map (shrink 1%float) rows))
    /\ (forall g, Forall zero_entry g -> (row_norm g =? 0)%float = true)
    /\ (forall g, In g rows -> (row_norm g =? 0)%float = true ->
          factor 1%float g = 0%float /\ Forall zero_entry (shrink 1%float g)).
Proof.
  apply (prox12norm_zero_group [0; 0; 3; 4]%float 1%float 2);
    [lia | reflexivity | reflexivity].
Defined.

(** ** Threshold zero *)

Lemma div_zero_pos (r : float) :
  (0 <? r)%float = true -> (0 / r)%float = 0%float.
Proof.
  intros H. apply Prim2SF_inj. rewrite div_spec.
  change (Prim2SF 0) with (S754_zero false).
  destruct (ltb_zero_inv _ H) as [-> | [m [e ->]]]; reflexivity.
Qed.

Lemma shrink_zero_threshold (g : vec) :
  (0 <? row_norm g)%float = true -> shrink 0 g = g.
Proof.
  intros H. unfold shrink, factor, scale. rewrite (div_zero_pos _ H).
  change (maximum (1 - 0) 0) with 1%float.
  rewrite <- (map_id g) at 2. apply map_ext. exact mul_one.
Qed.

(** C8 as stated fails on a group of zeros: [0 / 0] is a NaN. *)
Lemma prox12norm_zero_threshold_nan :
  (Z.of_nat (length [0; 0]%float) mod 2 = 0)%Z
  /\ prox12norm [0; 0]%float 0%float 2 = Ok [nan; nan]%float.
Proof. split; reflexivity. Qed.

(** C8, amended: at threshold zero a vector whose groups all have a
    positive computed norm comes back unchanged. *)
Theorem prox12norm_zero_threshold (x : vec) (d : Z) (rows : list vec) :
  reshape x d = Ok rows ->
  Forall (fun g => (0 <? row_norm g)%float = true) rows ->
  prox12norm x 0 d = Ok x.
Proof.
  intros Hrows Hnorms. unfold prox12norm. rewrite Hrows. cbn [bind].
  f_equal. rewrite <- (reshape_inv x d rows Hrows). f_equal.
  rewrite <- (map_id rows) at 2. apply map_ext_Forall.
  revert Hnorms. apply Forall_impl. exact shrink_zero_threshold.
Qed.

Lemma prox12norm_zero_threshold_witness :
  prox12norm [3; 4; 0; 1]%float 0 2 = Ok [3; 4; 0; 1]%float.
Proof.
  apply (prox12norm_zero_threshold [3; 4; 0; 1]%float 2
           [[3; 4]; [0; 1]]%float eq_refl).
  repeat constructor.
Defined.

(** ** A single group *)

(** C7 as stated fails where the squares of the entries leave the range of
    binary64, because the norm computed for the group is then not its
    Euclidean norm.  The group [1e-200; 1e-200] has a Euclidean norm of at
    least [1e-200], above the threshold [1e-201]: its squares underflow, the
    computed norm is 0 and the result is zeros, not the input scaled by
    [1 - gamma / r] (a factor of about [0.93]).  The group [1e200; 1e200]
    has a Euclidean norm of at most [2e200], below the threshold [1e300]:
    its squares overflow, the computed norm is infinite and the result is
    the input itself, not zeros. *)
Lemma prox12norm_single_group_out_of_range :
  ((1e-201 <? 1e-200)%float = true
   /\ row_norm [1e-200; 1e-200]%float = 0%float
   /\ prox12norm [1e-200; 1e-200]%float 1e-201 2 = Ok [0; 0]%float
   /\ prox12norm [1e-200; 1e-200]%float 1e-201 2
      <> Ok (scale (1 - 1e-201 / 1.4142135623730951e-200)%float
               [1e-200; 1e-200]%float))
  /\ ((1e200 + 1e200 <=? 1e300)%float = true
      /\ row_norm [1e200; 1e200]%float = infinity
      /\ prox12norm [1e200; 1e200]%float 1e300 2 = Ok [1e200; 1e200]%float
      /\ ~ Forall zero_entry [1e200; 1e200]%float).
Proof.
  split; repeat split; try (vm_compute; reflexivity).
  - intros H.
    apply (f_equal (fun o => match o with
                             | Ok (v :: _) => Prim2SF v
                             | _ => S754_nan
                             end)) in H.
    vm_compute in H. discriminate H.
  - intros H. apply Forall_cons_iff in H. destruct H as [[H _] _].
    vm_compute in H. discriminate H.
Qed.

(** C7, amended: for a vector made of one group whose computed norm [r],
    the square root of the binary64 sum of the squares, is positive and
    finite, a threshold [gamma >= r] (equality included) gives zeros, a
    threshold [gamma < r] gives the input scaled by [1 - gamma / r]; the
    output of [prox12norm] always has the length of its input. *)
Theorem prox12norm_single_group (x : vec) (gamma r : float) :
  x <> [] ->
  row_norm x = r ->
  (0 <? r)%float = true ->
  is_finite r = true ->
  ((r <=? gamma)%float = true ->
   exists out : vec,
     prox12norm x gamma (Z.of_nat (length x)) = Ok out
     /\ Forall zero_entry out /\ length out = length x)
  /\ ((gamma <? r)%float = true ->
      prox12norm x gamma (Z.of_nat (length x))
      = Ok (scale (1 - gamma / r)%float x))
  /\ (forall (g : float) (d : Z) (out : vec),
        prox12norm x g d = Ok out -> length out = length x).
Proof.
  intros Hx Hr Hpos Hfin.
  assert (Hprox : prox12norm x gamma (Z.of_nat (length x))
                  = Ok (scale (maximum (1 - gamma / r) 0) x)).
  { unfold prox12norm. rewrite (reshape_single x Hx). cbn [bind map concat].
    rewrite app_nil_r. unfold shrink, factor. now rewrite Hr. }
  split; [|split].
  - intros Hle. eexists. split; [exact Hprox|]. split.
    + destruct (factor_at_or_above gamma r Hpos Hfin Hle) as [s Hs].
      unfold scale. apply Forall_map.
      assert (Hfinite : SFfinite (Prim2SF (row_norm x))).
      { rewrite Hr.
        destruct (positive_finite_inv r Hpos Hfin) as [m [e [-> _]]].
        exact I. }
      apply row_norm_finite in Hfinite. revert Hfinite. apply Forall_impl.
      intros v Hv. now apply mul_zero_finite with (s := s).
    + unfold scale. apply length_map.
  - intros Hlt. rewrite Hprox. now rewrite (factor_below gamma r Hpos Hfin Hlt).
  - intros g d out. apply prox12norm_length.
Qed.

Lemma prox12norm_single_group_witness :
  ((5 <=? 5)%float = true ->
   exists out : vec,
     prox12norm [3; 4]%float 5 (Z.of_nat (length [3; 4]%float)) = Ok out
     /\ Forall zero_entry out /\ length out = length [3; 4]%float)
  /\ ((5 <? 5)%float = true ->
      prox12norm [3; 4]%float 5 (Z.of_nat (length [3; 4]%float))
      = Ok (scale (1 - 5 / 5)%float [3; 4]%float))
  /\ (forall (g : float) (d : Z) (out : vec),
        prox12norm [3; 4]%float g d = Ok out ->
        length out = length [3; 4]%float).
Proof.
  apply (prox12norm_single_group [3; 4]%float 5 5);
    [discriminate | reflexivity | reflexivity | reflexivity].
Defined.

(** ** The iteration cap of [apgd] *)

Section ApgdLoop.
Variable ker : kernels.
Variable gradf : vec -> outcome vec.
Variable proxf : vec -> float -> outcome vec.
Variable gamma : pynum.
Variable step_size : float.
Variable tol : float.
Variable last : pynum.

Let loop := apgd_loop ker gradf proxf gamma step_size tol last.
Let run := unconverged ker gradf proxf gamma step_size tol.

(** [k] passes that do not converge leave the loop where it would be had it
    started in the state they reach, [k] indices later. *)
Lemma apgd_loop_skip (k : nat) :
  forall (n : nat) (i : Z) (s s' : state),
    run k s = Some s' ->
    loop (k + n)%nat i s = loop n (i + Z.of_nat k)%Z s'.
Proof.
  induction k as [|k IH]; intros n i s s' Hrun.
  - simpl in Hrun. injection Hrun as <-. simpl. now rewrite Z.add_0_r.
  - unfold run in Hrun. simpl in Hrun.
    destruct (unconverged ker gradf proxf gamma step_size tol k s)
      as [s1|] eqn:Hk; [|discriminate].
    destruct (apgd_step ker gradf proxf gamma step_size tol s1)
      as [[x|s2]| |] eqn:Hstep; try discriminate.
    injection Hrun as <-.
    replace (S k + n)%nat with (k + S n)%nat by lia.
    rewrite (IH (S n) i s s1 Hk).
    unfold loop. simpl. rewrite Hstep. simpl.
    f_equal. lia.
Qed.

Lemma apgd_loop_exhausted (k : nat) (i : Z) (s s' : state) :
  run k s = Some s' -> loop k i s = Ok (st_x s', last).
Proof.
  intros Hrun. replace k with (k + 0)%nat at 1 by lia.
  now rewrite (apgd_loop_skip k 0 i s s' Hrun).
Qed.
End ApgdLoop.

(** C3: when none of the [maxit] passes meets the convergence test, [apgd]
    returns the last iterate with the count [maxit + 1]; with [maxit = 0] it
    returns the initial iterate with count 1, whatever the oracles are. *)
Theorem apgd_cap_sentinel (ker : kernels) (gradf : vec -> outcome vec)
    (proxf : vec -> float -> outcome vec) (gamma : pynum) (L : float)
    (x0 : vec) (tol : float) (m : Z) (s : state) :
  unconverged ker gradf proxf gamma (1 / L)%float tol (Z.to_nat m)
    (mk_state (PInt 1) x0 x0) = Some s ->
  apgd ker gradf proxf gamma L x0 tol (PInt m) = Ok (st_x s, PInt (m + 1))
  /\ apgd ker gradf proxf gamma L x0 tol (PInt 0) = Ok (x0, PInt 1).
Proof.
  intros Hrun. split.
  - unfold apgd. simpl.
    now apply apgd_loop_exhausted.
  - reflexivity.
Qed.

Lemma apgd_cap_sentinel_witness :
  apgd demo_kernels demo_gradf demo_proxf (PFloat 0.001%float) 1%float
    [0; 0]%float 1e-6%float (PInt 1)
  = Ok ([0.999; 0]%float, PInt 2)
  /\ apgd demo_kernels demo_gradf demo_proxf (PFloat 0.001%float) 1%float
       [0; 0]%float 1e-6%float (PInt 0)
     = Ok ([0; 0]%float, PInt 1).
Proof.
  exact (apgd_cap_sentinel demo_kernels demo_gradf demo_proxf
           (PFloat 0.001%float) 1%float [0; 0]%float 1e-6%float 1
           (mk_state (PFloat 1.618033988749895%float) [0.999; 0]%float
              [0.999; 0]%float)
           eq_refl).
Defined.

(** ** The type of [maxit] *)

Lemma apgd_float_maxit (ker : kernels) (gradf : vec -> outcome vec)
    (proxf : vec -> float -> outcome vec) (gamma : pynum) (L : float)
    (x : vec) (tol f : float) :
  apgd ker gradf proxf gamma L x tol (PFloat f) = Raise TypeError.
Proof. reflexivity. Qed.

Lemma apgd_empty_range (ker : kernels) (gradf : vec -> outcome vec)
    (proxf : vec -> float -> outcome vec) (gamma : pynum) (L : float)
    (x : vec) (tol : float) (m : Z) :
  (m <= 0)%Z ->
  apgd ker gradf proxf gamma L x tol (PInt m) = Ok (x, PInt (m + 1)).
Proof.
  intros Hm. unfold apgd. simpl.
  replace (Z.to_nat m) with 0%nat by lia. reflexivity.
Qed.

(** C10: [apgd] loops over [range(maxit)].  A float [maxit], the declared
    default [1e5] included, is a [TypeError] raised before either oracle is
    consulted; a call that returns was given an int; and the outcome depends
    on the oracles and the other arguments only when [maxit] is an int of at
    least one, hence non-negative. *)
Theorem apgd_maxit_must_be_int :
  (forall ker gradf proxf gamma L x tol f,
      apgd ker gradf proxf gamma L x tol (PFloat f) = Raise TypeError)
  /\ (forall ker gradf proxf gamma L x,
         apgd ker gradf proxf gamma L x default_tol default_maxit
         = Raise TypeError)
  /\ (forall ker gradf proxf gamma L x tol maxit r,
         apgd ker gradf proxf gamma L x tol maxit = Ok r ->
         exists m : Z, maxit = PInt m)
  /\ (forall ker gradf gradf' proxf proxf' gamma gamma' L L' x tol tol' maxit,
         apgd ker gradf proxf gamma L x tol maxit
         <> apgd ker gradf' proxf' gamma' L' x tol' maxit ->
         exists m : Z, maxit = PInt m /\ (0 <= m)%Z /\ (1 <= m)%Z).
Proof.
  split; [reflexivity|]. split; [reflexivity|]. split.
  - intros ker gradf proxf gamma L x tol [m | f] r H.
    + now exists m.
    + rewrite apgd_float_maxit in H. discriminate.
  - intros ker gradf gradf' proxf proxf' gamma gamma' L L' x tol tol'
      [m | f] Hdiff.
    + exists m. destruct (Z_le_gt_dec m 0) as [Hle | Hgt].
      * exfalso. apply Hdiff. now rewrite !apgd_empty_range.
      * repeat split; lia.
    + exfalso. apply Hdiff. reflexivity.
Qed.

(** ** The two early returns of [lscgnm] *)

(** C1: when the requested [sigma] is strictly below the baseline residual
    [sigma0] of the run at [gamma0 = 1e-6], [lscgnm] returns the sentinel
    [(None, -1)]. *)
Theorem lscgnm_infeasible_sentinel (ker : kernels) (fuel : nat) (A : matrix)
    (y : vec) (sigma : float) (d : Z) (tol : float) (x0 : vec) (gtol : float)
    (gmaxit : pynum) (L : float) (x : vec) (c : pynum) (sigma0 : float) :
  lipschitz ker A = Ok L ->
  solve ker A y d L x0 gtol gmaxit (PFloat gamma0) = Ok (x, c) ->
  residual ker A x y = Ok sigma0 ->
  (sigma <? sigma0)%float = true ->
  lscgnm ker fuel A y sigma d tol x0 gtol gmaxit = Ok (None, PInt (-1)).
Proof.
  intros HL Hsolve Hres Hlt. unfold lscgnm.
  rewrite HL. simpl. rewrite Hsolve. simpl. rewrite Hres. simpl.
  now rewrite (ltb_leb_false _ _ Hlt).
Qed.

Lemma lscgnm_infeasible_sentinel_witness :
  lscgnm demo_kernels 0 demo_A demo_y 0.25%float 2 0.001%float [0.5; 0]%float
    1e-6%float (PInt 0)
  = Ok (None, PInt (-1)).
Proof.
  exact (lscgnm_infeasible_sentinel demo_kernels 0 demo_A demo_y 0.25%float 2
           0.001%float [0.5; 0]%float 1e-6%float (PInt 0) 1%float
           [0.5; 0]%float (PInt 1) 0.5%float eq_refl eq_refl eq_refl eq_refl).
Defined.

(** C2 as stated fails: with [sigma = ||y|| = 1] but an initial iterate whose
    residual is 2, the infeasibility test comes first and the sentinel is
    returned, not the zero vector. *)
Lemma lscgnm_trivial_needs_feasible :
  (norm demo_kernels demo_y <=? 1)%float = true
  /\ lscgnm demo_kernels 0 demo_A demo_y 1%float 2 0.001%float [3; 0]%float
       1e-6%float (PInt 0)
     = Ok (None, PInt (-1)).
Proof. split; reflexivity. Qed.

(** C2, amended: when [sigma] is at least the baseline residual [sigma0] and
    at least [||y||], [lscgnm] returns the zero vector, one entry per column
    of [A], with [gamma = +infinity]. *)
Theorem lscgnm_trivial_solution (ker : kernels) (fuel : nat) (A : matrix)
    (y : vec) (sigma : float) (d : Z) (tol : float) (x0 : vec) (gtol : float)
    (gmaxit : pynum) (L : float) (x : vec) (c : pynum) (sigma0 : float) :
  lipschitz ker A = Ok L ->
  solve ker A y d L x0 gtol gmaxit (PFloat gamma0) = Ok (x, c) ->
  residual ker A x y = Ok sigma0 ->
  (sigma0 <=? sigma)%float = true ->
  (norm ker y <=? sigma)%float = true ->
  lscgnm ker fuel A y sigma d tol x0 gtol gmaxit
  = Ok (Some (zeros (shape1 A)), PFloat infinity)
  /\ length (zeros (shape1 A)) = shape1 A
  /\ Forall (fun v => v = 0%float) (zeros (shape1 A)).
Proof.
  intros HL Hsolve Hres Hfeas Htriv. repeat split.
  - unfold lscgnm. rewrite HL. simpl. rewrite Hsolve. simpl.
    rewrite Hres. simpl. now rewrite Hfeas, Htriv.
  - apply repeat_length.
  - apply Forall_forall. intros v Hv. now apply repeat_spec in Hv.
Qed.

Lemma lscgnm_trivial_solution_witness :
  lscgnm demo_kernels 0 demo_A demo_y 1%float 2 0.001%float [0; 0]%float
    1e-6%float (PInt 0)
  = Ok (Some (zeros (shape1 demo_A)), PFloat infinity)
  /\ length (zeros (shape1 demo_A)) = shape1 demo_A
  /\ Forall (fun v => v = 0%float) (zeros (shape1 demo_A)).
Proof.
  exact (lscgnm_trivial_solution demo_kernels 0 demo_A demo_y 1%float 2
           0.001%float [0; 0]%float 1e-6%float (PInt 0) 1%float
           [0; 0]%float (PInt 1) 1%float eq_refl eq_refl eq_refl eq_refl
           eq_refl).
Defined.

(** ** The bracketing loop of [lscgnm] *)

Section Doubling.
Variable ker : kernels.
Variables (A : matrix) (y : vec) (sigma : float) (d : Z).
Variables (L : float) (x0 : vec) (gtol : float) (gmaxit : pynum).

Let try_gamma := trial ker A y d L x0 gtol gmaxit.
Let loop := doubling ker A y sigma d L x0 gtol gmaxit.
Let below := stays_below ker A y sigma d L x0 gtol gmaxit.

Lemma doubling_step (fuel : nat) (g : Z) :
  loop (S fuel) g
  = (nrm <- try_gamma (PInt g) ;;
     if (sigma <? nrm)%float then Ok g else loop fuel (2 * g)%Z).
Proof. reflexivity. Qed.

Lemma doubling_skip (n : nat) :
  forall (fuel : nat) (g : Z),
    (forall k, (k < n)%nat -> below g k) ->
    loop (n + fuel)%nat g = loop fuel (g * 2 ^ Z.of_nat n)%Z.
Proof.
  induction n as [|n IH]; intros fuel g Hbelow.
  - simpl. now rewrite Z.mul_1_r.
  - destruct (Hbelow 0%nat) as [r [Hr Htest]]; [lia|].
    change (Z.of_nat 0) with 0%Z in Hr. rewrite Z.mul_1_r in Hr.
    fold try_gamma in Hr.
    change (S n + fuel)%nat with (S (n + fuel)).
    rewrite doubling_step, Hr. unfold bind. rewrite Htest, IH.
    + f_equal. rewrite Nat2Z.inj_succ, Z.pow_succ_r by lia. ring.
    + intros k Hk. destruct (Hbelow (S k)) as [r' [Hr' Htest']]; [lia|].
      exists r'. split; [|exact Htest'].
      rewrite <- Hr'. do 2 f_equal.
      rewrite Nat2Z.inj_succ, Z.pow_succ_r by lia. ring.
Qed.

Lemma doubling_running (n : nat) :
  (forall k, (k < n)%nat -> below 1 k) -> loop n 1%Z = OutOfFuel.
Proof.
  intros Hbelow. replace n with (n + 0)%nat at 1 by lia.
  now rewrite (doubling_skip n 0 1%Z Hbelow).
Qed.

Lemma doubling_stops (n fuel : nat) (r : float) :
  (forall k, (k < n)%nat -> below 1 k) ->
  try_gamma (PInt (2 ^ Z.of_nat n)) = Ok r ->
  (sigma <? r)%float = true ->
  (n < fuel)%nat ->
  loop fuel 1%Z = Ok (2 ^ Z.of_nat n)%Z.
Proof.
  intros Hbelow Hr Htest Hfuel.
  replace fuel with (n + S (fuel - n - 1))%nat by lia.
  rewrite (doubling_skip n _ 1%Z Hbelow), Z.mul_1_l.
  rewrite doubling_step, Hr. unfold bind. now rewrite Htest.
Qed.

(** A trial that raises ends the loop with its exception. *)
Lemma doubling_raises (n fuel : nat) (e : exn) :
  (forall k, (k < n)%nat -> below 1 k) ->
  try_gamma (PInt (2 ^ Z.of_nat n)) = Raise e ->
  (n < fuel)%nat ->
  loop fuel 1%Z = Raise e.
Proof.
  intros Hbelow He Hfuel.
  replace fuel with (n + S (fuel - n - 1))%nat by lia.
  rewrite (doubling_skip n _ 1%Z Hbelow), Z.mul_1_l.
  rewrite doubling_step, He. reflexivity.
Qed.
End Doubling.

(** C6 as stated fails: the loop is [while True] with no cap.  With
    [maxit = 0] every trial returns the initial iterate, whose residual 0
    never exceeds [sigma = 0.5]; whatever the fuel, the loop and [lscgnm]
    are still running when it is spent, and no error is reported. *)
Lemma lscgnm_doubling_never_ends :
  (forall fuel : nat,
      doubling demo_kernels demo_A demo_y 0.5%float 2 1%float [1; 0]%float
        1e-6%float (PInt 0) fuel 1 = OutOfFuel)
  /\ (forall fuel : nat,
         lscgnm demo_kernels fuel demo_A demo_y 0.5%float 2 0.001%float
           [1; 0]%float 1e-6%float (PInt 0) = OutOfFuel).
Proof.
  assert (Hloop : forall fuel : nat,
             doubling demo_kernels demo_A demo_y 0.5%float 2 1%float
               [1; 0]%float 1e-6%float (PInt 0) fuel 1 = OutOfFuel).
  { intros fuel. apply doubling_running. intros k _.
    exists 0%float. split; [|reflexivity].
    unfold trial, solve. rewrite apgd_empty_range by lia. reflexivity. }
  split; [exact Hloop|].
  intros fuel. unfold lscgnm.
  change (lipschitz demo_kernels demo_A) with (Ok 1%float : outcome float).
  unfold bind at 1. unfold solve at 1. rewrite apgd_empty_range by lia.
  unfold bind at 1.
  change (residual demo_kernels demo_A [1; 0]%float demo_y)
    with (Ok 0%float : outcome float).
  unfold bind at 1.
  change (0 <=? 0.5)%float with true.
  change (norm demo_kernels demo_y <=? 0.5)%float with false.
  cbv iota. now rewrite Hloop.
Qed.

(** ** Python ints in the bracket

    [gamma_u] is a Python int, a power of two.  A trial that makes at least
    one pass multiplies it by the step size, which converts it to a float:
    that bounds the exponent, so the bracket's midpoint is a float too. *)

Lemma halves_fit_1024 : halves_fit 1024 = true.
Proof. vm_compute. reflexivity. Qed.

Lemma halves_fit_spec (n k : nat) :
  halves_fit n = true -> (k < n)%nat ->
  is_infinity (round_int (2 ^ Z.of_nat k) (-1)) = false.
Proof.
  unfold halves_fit. rewrite forallb_forall. intros H Hk.
  apply negb_true_iff, H, in_seq. lia.
Qed.

Lemma int_half_pow2 (k : nat) :
  (k < 1024)%nat -> exists f : float, int_half (2 ^ Z.of_nat k) = Ok f.
Proof.
  intros Hk. unfold int_half.
  rewrite (halves_fit_spec 1024 k halves_fit_1024 Hk).
  eexists. reflexivity.
Qed.

Lemma float_of_int_pow2 (k : nat) (f : float) :
  float_of_int (2 ^ Z.of_nat k) = Ok f -> (k < 1024)%nat.
Proof.
  intros H. destruct (Nat.lt_ge_cases k 1024) as [Hlt | Hge]; [exact Hlt|].
  unfold float_of_int in H. rewrite (round_pow2_overflow k Hge) in H.
  discriminate H.
Qed.

Section ApgdPass.
Variable ker : kernels.
Variable gradf : vec -> outcome vec.
Variable proxf : vec -> float -> outcome vec.

Lemma apgd_pass_multiplies (gamma : pynum) (L : float) (x : vec)
    (tol : float) (m : Z) (r : vec * pynum) :
  (1 <= m)%Z ->
  apgd ker gradf proxf gamma L x tol (PInt m) = Ok r ->
  exists thr : float, py_mul_float gamma (1 / L)%float = Ok thr.
Proof.
  intros Hm. unfold apgd. cbn [py_range bind].
  destruct (Z.to_nat m) as [|n] eqn:Hn; [lia|].
  cbn [apgd_loop]. unfold apgd_step. cbn [st_z st_x st_t].
  destruct (gradf x) as [grad | |]; cbn [bind]; try discriminate.
  destruct (vsub x (scale (1 / L)%float grad)) as [u | |]; cbn [bind];
    try discriminate.
  destruct (py_mul_float gamma (1 / L)%float) as [thr | |]; cbn [bind];
    try discriminate.
  intros _. now exists thr.
Qed.

(** The first pass reaches [gamma * step_size] through calls that do not
    depend on [gamma]: where one threshold lets the solver return, the int
    [2 ^ k] with [k >= 1024] fails at that product. *)
Lemma apgd_pass_overflows (gamma : pynum) (L : float) (x : vec)
    (tol : float) (m : Z) (r : vec * pynum) (k : nat) :
  (1 <= m)%Z ->
  apgd ker gradf proxf gamma L x tol (PInt m) = Ok r ->
  (1024 <= k)%nat ->
  apgd ker gradf proxf (PInt (2 ^ Z.of_nat k)) L x tol (PInt m)
  = Raise OverflowError.
Proof.
  intros Hm Hr Hk. unfold apgd in *. cbn [py_range bind] in *.
  destruct (Z.to_nat m) as [|n] eqn:Hn; [lia|].
  cbn [apgd_loop] in *. unfold apgd_step in *. cbn [st_z st_x st_t] in *.
  destruct (gradf x) as [grad | |]; cbn [bind] in *; try discriminate.
  destruct (vsub x (scale (1 / L)%float grad)) as [u | |]; cbn [bind] in *;
    try discriminate.
  unfold py_mul_float, float_of_int.
  rewrite (round_pow2_overflow k Hk). reflexivity.
Qed.
End ApgdPass.

Section DoublingResult.
Variable ker : kernels.
Variables (A : matrix) (y : vec) (sigma : float) (d : Z).
Variables (L : float) (x0 : vec) (gtol : float) (gmaxit : pynum).

Let try_gamma := trial ker A y d L x0 gtol gmaxit.
Let loop := doubling ker A y sigma d L x0 gtol gmaxit.

Lemma doubling_returns (fuel : nat) :
  forall g gu : Z,
    loop fuel g = Ok gu ->
    exists (k : nat) (r : float),
      gu = (g * 2 ^ Z.of_nat k)%Z
      /\ try_gamma (PInt gu) = Ok r
      /\ (sigma <? r)%float = true
      /\ (forall j, (j < k)%nat -> stays_below ker A y sigma d L x0 gtol gmaxit g j).
Proof.
  induction fuel as [|fuel IH]; intros g gu Hloop; [discriminate|].
  unfold loop in Hloop. cbn [doubling] in Hloop. fold try_gamma in Hloop.
  destruct (try_gamma (PInt g)) as [r | |] eqn:Hr; cbn [bind] in Hloop;
    try discriminate.
  destruct (sigma <? r)%float eqn:Htest.
  - injection Hloop as <-. exists 0%nat, r.
    change (Z.of_nat 0) with 0%Z. rewrite Z.mul_1_r.
    repeat split; try assumption. intros j Hj. lia.
  - destruct (IH (2 * g)%Z gu Hloop) as [k [r' [Hgu [Hr' [Htest' Hbelow]]]]].
    exists (S k), r'. repeat split; try assumption.
    + rewrite Hgu, Nat2Z.inj_succ, Z.pow_succ_r by lia. ring.
    + intros [|j] Hj.
      * exists r. change (Z.of_nat 0) with 0%Z. rewrite Z.mul_1_r.
        now split.
      * destruct (Hbelow j) as [rj [Hrj Htj]]; [lia|].
        exists rj. split; [|exact Htj]. rewrite <- Hrj.
        unfold try_gamma. do 2 f_equal.
        rewrite Nat2Z.inj_succ, Z.pow_succ_r by lia. ring.
Qed.

(** The bracket handed to the bisection is an int that halves to a float. *)
Lemma doubling_bracket_halves (fuel : nat) (gu : Z) :
  loop fuel 1%Z = Ok gu -> exists f : float, int_half gu = Ok f.
Proof.
  intros Hloop.
  destruct (doubling_returns fuel 1%Z gu Hloop)
    as [k [r [Hgu [Hr [Htest Hbelow]]]]].
  rewrite Z.mul_1_l in Hgu.
  unfold try_gamma, trial in Hr.
  destruct (solve ker A y d L x0 gtol gmaxit (PInt gu)) as [[x c] | |] eqn:Hs;
    cbn [bind] in Hr; try discriminate.
  unfold solve in Hs.
  destruct gmaxit as [m | f]; [|discriminate Hs].
  destruct (Z_le_gt_dec m 0) as [Hle | Hgt].
  - (* no pass is made: every trial sees the same residual as the last one *)
    destruct k as [|k].
    + subst gu. exists 0.5%float. reflexivity.
    + exfalso. destruct (Hbelow 0%nat) as [r0 [Hr0 Ht0]]; [lia|].
      unfold trial, solve in Hr0.
      rewrite apgd_empty_range in Hr0 by exact Hle.
      rewrite apgd_empty_range in Hs by exact Hle.
      injection Hs as <- <-. cbn [bind] in Hr0. congruence.
  - assert (Hm : (1 <= m)%Z) by lia.
    destruct (apgd_pass_multiplies _ _ _ _ _ _ _ _ _ Hm Hs) as [thr Hthr].
    unfold py_mul_float in Hthr.
    destruct (float_of_int gu) as [f | |] eqn:Hf; try discriminate.
    subst gu. apply int_half_pow2. now apply float_of_int_pow2 with (f := f).
Qed.
End DoublingResult.

(** ** What ends the bracketing loop *)

Lemma trial_overflows (ker : kernels) (A : matrix) (y : vec) (d : Z)
    (L : float) (x0 : vec) (gtol : float) (m : Z) (g : pynum) (r : float)
    (k : nat) :
  (1 <= m)%Z ->
  trial ker A y d L x0 gtol (PInt m) g = Ok r ->
  (1024 <= k)%nat ->
  trial ker A y d L x0 gtol (PInt m) (PInt (2 ^ Z.of_nat k))
  = Raise OverflowError.
Proof.
  intros Hm Hr Hk. unfold trial in *.
  destruct (solve ker A y d L x0 gtol (PInt m) g) as [xc | |] eqn:Hs;
    cbn [bind] in Hr; try discriminate.
  unfold solve in *.
  now rewrite (apgd_pass_overflows _ _ _ _ _ _ _ _ _ k Hm Hs Hk).
Qed.

(** With at least one pass allowed, the loop makes at most 1025 trials. *)
Lemma doubling_trials_bounded (ker : kernels) (A : matrix) (y : vec)
    (sigma : float) (d : Z) (L : float) (x0 : vec) (gtol : float) (m : Z)
    (n : nat) :
  (1 <= m)%Z ->
  (forall k, (k < n)%nat ->
             stays_below ker A y sigma d L x0 gtol (PInt m) 1 k) ->
  (n <= 1024)%nat.
Proof.
  intros Hm Hbelow.
  destruct (Nat.le_gt_cases n 1024) as [Hle | Hgt]; [exact Hle|].
  exfalso. destruct (Hbelow 1024%nat Hgt) as [r [Hr _]].
  rewrite Z.mul_1_l in Hr.
  rewrite (trial_overflows _ _ _ _ _ _ _ _ _ _ 1024 Hm Hr) in Hr by lia.
  discriminate Hr.
Qed.

Lemma doubling_overflows (ker : kernels) (A : matrix) (y : vec)
    (sigma : float) (d : Z) (L : float) (x0 : vec) (gtol : float) (m : Z)
    (fuel : nat) :
  (1 <= m)%Z ->
  (forall k, (k < 1024)%nat ->
             stays_below ker A y sigma d L x0 gtol (PInt m) 1 k) ->
  (1024 < fuel)%nat ->
  doubling ker A y sigma d L x0 gtol (PInt m) fuel 1 = Raise OverflowError.
Proof.
  intros Hm Hbelow Hfuel.
  apply doubling_raises with (n := 1024%nat); [exact Hbelow | | exact Hfuel].
  destruct (Hbelow 0%nat) as [r [Hr _]]; [lia|].
  now apply trial_overflows with (g := PInt (1 * 2 ^ Z.of_nat 0)) (r := r).
Qed.

(** With no pass allowed every trial sees the initial iterate. *)
Lemma doubling_idle (ker : kernels) (A : matrix) (y : vec)
    (sigma : float) (d : Z) (L : float) (x0 : vec) (gtol : float) (m : Z)
    (fuel : nat) :
  (m <= 0)%Z ->
  stays_below ker A y sigma d L x0 gtol (PInt m) 1 0 ->
  doubling ker A y sigma d L x0 gtol (PInt m) fuel 1 = OutOfFuel.
Proof.
  intros Hm [r [Hr Htest]]. apply doubling_running. intros k _.
  exists r. split; [|exact Htest].
  unfold trial, solve in *. rewrite apgd_empty_range in * by exact Hm.
  exact Hr.
Qed.

(** The trials of the example below: the second coordinate of the initial
    iterate is so large that the squares of its group overflow, the
    proximal operator leaves the iterate alone, and the residual is 0 at
    every threshold. *)
Lemma overflow_trials_stay_below (k : nat) :
  (k < 1024)%nat ->
  stays_below demo_kernels demo_A demo_y 0.5%float 2 1%float
    [1; 1e200]%float 1e-6%float (PInt 100) 1 k.
Proof.
  intros Hk.
  assert (Hall : forallb
            (fun j =>
               match trial demo_kernels demo_A demo_y 2 1%float
                       [1; 1e200]%float 1e-6%float (PInt 100)
                       (PInt (1 * 2 ^ Z.of_nat j)) with
               | Ok r => negb (0.5 <? r)%float
               | _ => false
               end) (seq 0 1024) = true).
  { vm_compute. reflexivity. }
  rewrite forallb_forall in Hall.
  specialize (Hall k). rewrite in_seq in Hall.
  assert (Hin : (0 <= k < 0 + 1024)%nat) by lia.
  specialize (Hall Hin). unfold stays_below.
  destruct (trial _ _ _ _ _ _ _ _ _) as [r | |]; try discriminate Hall.
  exists r. split; [reflexivity|]. now apply negb_true_iff.
Qed.

(** On that input [lscgnm] itself ends with the [OverflowError] of its 1025th
    trial. *)
Lemma lscgnm_doubling_overflows (fuel : nat) :
  (1024 < fuel)%nat ->
  lscgnm demo_kernels fuel demo_A demo_y 0.5%float 2 0.001%float
    [1; 1e200]%float 1e-6%float (PInt 100) = Raise OverflowError.
Proof.
  intros Hfuel. unfold lscgnm.
  change (lipschitz demo_kernels demo_A) with (Ok 1%float : outcome float).
  unfold bind at 1.
  assert (Hs : solve demo_kernels demo_A demo_y 2 1%float [1; 1e200]%float
                 1e-6%float (PInt 100) (PFloat gamma0)
               = Ok ([1; 1e200]%float, PInt 0)).
  { vm_compute. reflexivity. }
  rewrite Hs. unfold bind at 1.
  change (residual demo_kernels demo_A [1; 1e200]%float demo_y)
    with (Ok 0%float : outcome float).
  unfold bind at 1.
  change (0 <=? 0.5)%float with true.
  change (norm demo_kernels demo_y <=? 0.5)%float with false.
  cbv iota.
  rewrite (doubling_overflows demo_kernels demo_A demo_y 0.5%float 2 1%float
             [1; 1e200]%float 1e-6%float 100 fuel);
    [reflexivity | lia | exact overflow_trials_stay_below | exact Hfuel].
Qed.

(** C6, amended: the bracketing loop has no iteration cap and reports no
    error of its own.  While the trials at [gamma_u = 1, 2, 4, ...] return a
    residual at or below [sigma] the loop goes on; it ends at the first
    trial whose residual exceeds [sigma], with that [gamma_u], or at the
    first trial that raises, with its exception.  When the inner solver is
    allowed at least one pass, a trial multiplies the int [gamma_u] by the
    float step size, so at most 1024 trials can stay at or below [sigma]:
    after them the trial at [2 ^ 1024] raises [OverflowError].  When the
    solver is allowed no pass, every trial returns the initial iterate, and
    a loop whose first trial does not end it never ends. *)
Theorem doubling_has_no_cap (ker : kernels) (A : matrix) (y : vec)
    (sigma : float) (d : Z) (L : float) (x0 : vec) (gtol : float)
    (gmaxit : pynum) (n : nat) :
  (forall k, (k < n)%nat -> stays_below ker A y sigma d L x0 gtol gmaxit 1 k) ->
  doubling ker A y sigma d L x0 gtol gmaxit n 1 = OutOfFuel
  /\ (forall (r : float) (fuel : nat),
         trial ker A y d L x0 gtol gmaxit (PInt (2 ^ Z.of_nat n)) = Ok r ->
         (sigma <? r)%float = true ->
         (n < fuel)%nat ->
         doubling ker A y sigma d L x0 gtol gmaxit fuel 1
         = Ok (2 ^ Z.of_nat n)%Z)
  /\ (forall (e : exn) (fuel : nat),
         trial ker A y d L x0 gtol gmaxit (PInt (2 ^ Z.of_nat n)) = Raise e ->
         (n < fuel)%nat ->
         doubling ker A y sigma d L x0 gtol gmaxit fuel 1 = Raise e)
  /\ (forall m : Z,
         gmaxit = PInt m -> (1 <= m)%Z ->
         (n <= 1024)%nat
         /\ (n = 1024%nat ->
             forall fuel : nat,
               (1024 < fuel)%nat ->
               doubling ker A y sigma d L x0 gtol gmaxit fuel 1
               = Raise OverflowError))
  /\ (forall m : Z,
         gmaxit = PInt m -> (m <= 0)%Z -> (1 <= n)%nat ->
         forall fuel : nat,
           doubling ker A y sigma d L x0 gtol gmaxit fuel 1 = OutOfFuel).
Proof.
  intros Hbelow. split; [|split; [|split; [|split]]].
  - now apply doubling_running.
  - intros r fuel Hr Htest Hfuel. now apply doubling_stops with (r := r).
  - intros e fuel He Hfuel. now apply doubling_raises with (n := n).
  - intros m -> Hm. split.
    + now apply doubling_trials_bounded with (n := n) in Hbelow.
    + intros -> fuel Hfuel. now apply doubling_overflows.
  - intros m -> Hm Hn fuel. apply doubling_idle; [exact Hm|].
    apply Hbelow. lia.
Qed.

Lemma doubling_has_no_cap_witness :
  doubling demo_kernels demo_A demo_y 0.5%float 2 1%float [1; 1e200]%float
    1e-6%float (PInt 100) 1024 1 = OutOfFuel
  /\ (forall (r : float) (fuel : nat),
         trial demo_kernels demo_A demo_y 2 1%float [1; 1e200]%float
           1e-6%float (PInt 100) (PInt (2 ^ Z.of_nat 1024)) = Ok r ->
         (0.5 <? r)%float = true ->
         (1024 < fuel)%nat ->
         doubling demo_kernels demo_A demo_y 0.5%float 2 1%float
           [1; 1e200]%float 1e-6%float (PInt 100) fuel 1
         = Ok (2 ^ Z.of_nat 1024)%Z)
  /\ (forall (e : exn) (fuel : nat),
         trial demo_kernels demo_A demo_y 2 1%float [1; 1e200]%float
           1e-6%float (PInt 100) (PInt (2 ^ Z.of_nat 1024)) = Raise e ->
         (1024 < fuel)%nat ->
         doubling demo_kernels demo_A demo_y 0.5%float 2 1%float
           [1; 1e200]%float 1e-6%float (PInt 100) fuel 1 = Raise e)
  /\ (forall m : Z,
         PInt 100 = PInt m -> (1 <= m)%Z ->
         (1024 <= 1024)%nat
         /\ (1024%nat = 1024%nat ->
             forall fuel : nat,
               (1024 < fuel)%nat ->
               doubling demo_kernels demo_A demo_y 0.5%float 2 1%float
                 [1; 1e200]%float 1e-6%float (PInt 100) fuel 1
               = Raise OverflowError))
  /\ (forall m : Z,
         PInt 100 = PInt m -> (m <= 0)%Z -> (1 <= 1024)%nat ->
         forall fuel : nat,
           doubling demo_kernels demo_A demo_y 0.5%float 2 1%float
             [1; 1e200]%float 1e-6%float (PInt 100) fuel 1 = OutOfFuel).
Proof.
  apply (doubling_has_no_cap demo_kernels demo_A demo_y 0.5%float 2 1%float
           [1; 1e200]%float 1e-6%float (PInt 100) 1024).
  exact overflow_trials_stay_below.
Defined.

(** ** An empty bisection *)

Lemma bisection_skipped (ker : kernels) (A : matrix) (y : vec) (sigma : float)
    (d : Z) (tol L : float) (x0 : vec) (gtol : float) (gmaxit : pynum)
    (fuel : nat) (gu : Z) (x_opt : option vec) :
  py_leb (PInt gu) (PFloat tol) = true ->
  bisection ker A y sigma d tol L x0 gtol gmaxit fuel (PInt 0) (PInt gu) x_opt
  = Ok (PInt 0, PInt gu, x_opt).
Proof.
  intros Hle. apply py_leb_gtb_false in Hle.
  destruct fuel; cbn [bisection py_sub bind]; rewrite Z.sub_0_r, Hle;
    reflexivity.
Qed.

(** C9: when the bracket [[0, gamma_u]] left by the doubling phase is no
    wider than [tol], the bisection loop body never runs, [x_opt] is still
    unbound at the [return], and the call raises [NameError] (Python's
    [UnboundLocalError]) instead of returning a coefficient vector. *)
Theorem lscgnm_unbound_x_opt (ker : kernels) (fuel : nat) (A : matrix)
    (y : vec) (sigma : float) (d : Z) (tol : float) (x0 : vec) (gtol : float)
    (gmaxit : pynum) (L : float) (x : vec) (c : pynum) (sigma0 : float)
    (gu : Z) :
  lipschitz ker A = Ok L ->
  solve ker A y d L x0 gtol gmaxit (PFloat gamma0) = Ok (x, c) ->
  residual ker A x y = Ok sigma0 ->
  (sigma0 <=? sigma)%float = true ->
  (norm ker y <=? sigma)%float = false ->
  doubling ker A y sigma d L x0 gtol gmaxit fuel 1 = Ok gu ->
  py_leb (PInt gu) (PFloat tol) = true ->
  bisection ker A y sigma d tol L x0 gtol gmaxit fuel (PInt 0) (PInt gu) None
  = Ok (PInt 0, PInt gu, None)
  /\ lscgnm ker fuel A y sigma d tol x0 gtol gmaxit = Raise NameError.
Proof.
  intros HL Hsolve Hres Hfeas Htriv Hdbl Hle.
  pose proof (bisection_skipped ker A y sigma d tol L x0 gtol gmaxit fuel gu
                None Hle) as Hbis.
  split; [exact Hbis|].
  destruct (doubling_bracket_halves ker A y sigma d L x0 gtol gmaxit fuel gu
              Hdbl) as [f Hf].
  unfold lscgnm. rewrite HL. cbn [bind]. rewrite Hsolve. cbn [bind].
  rewrite Hres. cbn [bind]. rewrite Hfeas, Htriv, Hdbl. cbn [bind].
  rewrite Hbis. cbn [bind py_add py_half]. rewrite Z.add_0_l, Hf.
  reflexivity.
Qed.

Lemma lscgnm_unbound_x_opt_witness :
  bisection demo_kernels demo_A demo_y 0.5%float 2 1%float 1%float
    [0; 0]%float 1e-6%float (PInt 100) 5 (PInt 0) (PInt 1) None
  = Ok (PInt 0, PInt 1, None)
  /\ lscgnm demo_kernels 5 demo_A demo_y 0.5%float 2 1%float [0; 0]%float
       1e-6%float (PInt 100) = Raise NameError.
Proof.
  eapply (lscgnm_unbound_x_opt demo_kernels 5 demo_A demo_y 0.5%float 2
            1%float [0; 0]%float 1e-6%float (PInt 100) 1%float);
    try (vm_compute; reflexivity).
Defined.

(** ** The block driver *)

Section DriverLoop.
Variable ker : kernels.
Variables (A : matrix) (L : float) (x0 : vec).
Variables (d : Z) (gamma : pynum) (tol : float) (maxit : pynum).

Let solve_y := solve_block ker A L x0 d gamma tol maxit.
Let loop := driver_loop ker A L x0 d gamma tol maxit.
Let solution := solution_of ker A L x0 d gamma tol maxit.

Lemma driver_loop_appends (blocks : list vec) :
  forall result : list vec,
    (forall y, In y blocks -> exists r, solve_y y = Ok r) ->
    exists out : list vec,
      loop blocks result = Ok (result ++ out)
      /\ Forall2 solution blocks out.
Proof.
  induction blocks as [|y blocks IH]; intros result Hall.
  - exists []. split; [simpl; now rewrite app_nil_r | constructor].
  - destruct (Hall y (or_introl eq_refl)) as [[x c] Hy].
    destruct (IH (result ++ [x])) as [out [Hloop Hout]].
    { intros y' Hin. apply Hall. now right. }
    exists (x :: out). split.
    + unfold loop. simpl. fold solve_y. rewrite Hy. simpl.
      fold loop. rewrite Hloop. now rewrite <- app_assoc.
    + constructor; [now exists c | exact Hout].
Qed.
End DriverLoop.

Lemma removelast_length {T : Type} (l : list T) :
  length (removelast l) = (length l - 1)%nat.
Proof.
  rewrite removelast_firstn_len, length_firstn. lia.
Qed.

(** C4 as stated fails: of three blocks the driver solves two and returns two
    coefficient vectors; the last block is never passed to the solver. *)
Lemma apgd_driver_drops_last_block :
  exists out : list vec,
    apgd_driver driver_kernels series_libm demo_blocks 1000 1 2
      (PFloat 4%float) 1e-6%float (PInt 3) = Ok out
    /\ length demo_blocks = 3%nat
    /\ length out = 2%nat.
Proof.
  eexists. split; [vm_compute; reflexivity | split; reflexivity].
Qed.

(** C4, amended: the driver calls the solver once for every block but the
    last, always from the zero initial iterate, and returns the solutions in
    the order of the blocks: one vector per block of [data[:-1]]. *)
Theorem apgd_driver_all_but_last (ker : kernels) (lm : libm)
    (data : list vec) (f_s l d : Z) (gamma : pynum) (tol : float)
    (maxit : pynum) (A : matrix) (L : float) :
  get_A lm (get_piano_keys lm) f_s l = Ok A ->
  lipschitz ker A = Ok L ->
  (forall y, In y (removelast data) ->
     exists r,
       solve_block ker A L (zeros (shape1 A)) d gamma tol maxit y = Ok r) ->
  exists out : list vec,
    apgd_driver ker lm data f_s l d gamma tol maxit = Ok out
    /\ length out = (length data - 1)%nat
    /\ Forall2
         (solution_of ker A L (zeros (shape1 A)) d gamma tol maxit)
         (removelast data) out.
Proof.
  intros HA HL Hall.
  destruct (driver_loop_appends ker A L (zeros (shape1 A)) d gamma tol maxit
              (removelast data) [] Hall) as [out [Hloop Hout]].
  exists out. split; [|split].
  - unfold apgd_driver. rewrite HA. simpl. rewrite HL. simpl. exact Hloop.
  - rewrite <- (Forall2_length Hout). apply removelast_length.
  - exact Hout.
Qed.

Lemma apgd_driver_all_but_last_witness :
  exists out : list vec,
    apgd_driver driver_kernels series_libm demo_blocks 1000 1 2
      (PFloat 4%float) 1e-6%float (PInt 3) = Ok out
    /\ length out = (length demo_blocks - 1)%nat
    /\ Forall2
         (solution_of driver_kernels demo_dictionary 88%float
            (zeros (shape1 demo_dictionary)) 2 (PFloat 4%float) 1e-6%float
            (PInt 3))
         (removelast demo_blocks) out.
Proof.
  apply (apgd_driver_all_but_last driver_kernels series_libm demo_blocks
           1000 1 2 (PFloat 4%float) 1e-6%float (PInt 3) demo_dictionary
           88%float).
  - vm_compute. reflexivity.
  - reflexivity.
  - intros y Hin. simpl in Hin.
    destruct Hin as [<- | [<- | []]]; eexists; vm_compute; reflexivity.
Defined.

(** * The rest of the pipeline *)

(** ** Chunking *)

Lemma slice_chunk (data : vec) (c k : nat) :
  (0 < c)%nat -> (k * c < length data)%nat ->
  slice data (Z.of_nat k * Z.of_nat c) (Z.of_nat k * Z.of_nat c + Z.of_nat c)
  = firstn c (skipn (k * c) data).
Proof.
  intros Hc Hk. unfold slice, slice_bound.
  destruct (Z.ltb_spec (Z.of_nat k * Z.of_nat c) 0); [lia|].
  destruct (Z.ltb_spec (Z.of_nat k * Z.of_nat c + Z.of_nat c) 0); [lia|].
  replace (Z.to_nat (Z.of_nat k * Z.of_nat c)) with (k * c)%nat by lia.
  replace (Z.to_nat (Z.of_nat k * Z.of_nat c + Z.of_nat c))
    with (k * c + c)%nat by lia.
  rewrite (Nat.min_l (k * c)) by lia.
  destruct (Nat.le_ge_cases (k * c + c) (length data)) as [Hle | Hge].
  - rewrite Nat.min_l by lia. f_equal. lia.
  - rewrite Nat.min_r by lia.
    rewrite !firstn_all2; rewrite ?length_skipn; try lia. reflexivity.
Qed.

Lemma range_count (n c : nat) :
  (0 < c)%nat ->
  Z.to_nat ((Z.of_nat n + Z.of_nat c - 1) / Z.of_nat c) = ceil_div n c.
Proof.
  intros Hc. unfold ceil_div.
  replace (Z.of_nat n + Z.of_nat c - 1)%Z with (Z.of_nat (n + c - 1)) by lia.
  rewrite <- Nat2Z.inj_div. apply Nat2Z.id.
Qed.

Lemma ceil_div_spec (n c : nat) :
  (0 < c)%nat ->
  (n <= ceil_div n c * c /\ (0 < n -> (ceil_div n c - 1) * c < n))%nat.
Proof.
  intros Hc. unfold ceil_div.
  pose proof (Nat.div_mod_eq (n + c - 1) c) as E.
  pose proof (Nat.mod_upper_bound (n + c - 1) c ltac:(lia)) as B.
  set (q := ((n + c - 1) / c)%nat) in *.
  set (r := ((n + c - 1) mod c)%nat) in *.
  split; [nia|]. intros Hn. destruct q as [|q]; [nia|].
  simpl. rewrite Nat.sub_0_r. nia.
Qed.

Lemma ceil_div_lt (n c k : nat) :
  (0 < c)%nat -> (k < ceil_div n c)%nat -> (k * c < n)%nat.
Proof.
  intros Hc Hk. destruct (ceil_div_spec n c Hc) as [_ Hlt].
  destruct n as [|n].
  - unfold ceil_div in Hk. rewrite Nat.div_small in Hk by lia. lia.
  - specialize (Hlt ltac:(lia)). nia.
Qed.

(** Chunk [k] starts at entry [k * c]. *)
Lemma get_audio_chunks_eq (data : vec) (c : nat) :
  (0 < c)%nat ->
  get_audio_chunks data (Z.of_nat c)
  = Ok (map (fun k => firstn c (skipn (k * c) data))
          (seq 0 (ceil_div (length data) c))).
Proof.
  intros Hc. unfold get_audio_chunks, py_range_step.
  destruct (Z.eqb_spec (Z.of_nat c) 0); [lia|].
  destruct (Z.ltb_spec (Z.of_nat c) 0); [lia|].
  simpl. rewrite range_count by exact Hc. f_equal. rewrite map_map.
  apply map_ext_in. intros k Hk. apply in_seq in Hk.
  apply slice_chunk; [exact Hc|].
  apply ceil_div_lt; [exact Hc | lia].
Qed.

Lemma chunks_concat (c : nat) : forall (q : nat) (data : vec),
  (length data <= q * c)%nat ->
  concat (map (fun k => firstn c (skipn (k * c) data)) (seq 0 q)) = data.
Proof.
  induction q as [|q IH]; intros data Hlen.
  - destruct data; [reflexivity | simpl in Hlen; lia].
  - rewrite <- cons_seq, <- seq_shift. simpl. rewrite map_map.
    etransitivity; [| apply (firstn_skipn c data)]. f_equal.
    etransitivity; [| apply (IH (skipn c data)); rewrite length_skipn; lia].
    f_equal. apply map_ext. intros k.
    rewrite skipn_skipn. f_equal. f_equal. lia.
Qed.

Lemma chunk_length (data : vec) (c k : nat) :
  length (firstn c (skipn (k * c) data)) = Nat.min c (length data - k * c).
Proof. now rewrite length_firstn, length_skipn. Qed.

Lemma removelast_map {S T : Type} (f : S -> T) (l : list S) :
  removelast (map f l) = map f (removelast l).
Proof.
  induction l as [|a [|b l] IH]; try reflexivity.
  change (f a :: removelast (map f (b :: l))
          = f a :: map f (removelast (b :: l))).
  now rewrite IH.
Qed.

Lemma removelast_seq (q : nat) : removelast (seq 0 q) = seq 0 (q - 1).
Proof.
  destruct q as [|q]; [reflexivity|].
  rewrite seq_S, removelast_last. simpl. now rewrite Nat.sub_0_r.
Qed.

(** The chunks of a positive [chunk_size]. *)
Lemma get_audio_chunks_spec (data : vec) (chunk_size : Z) :
  (0 < chunk_size)%Z ->
  exists chunks : list vec,
    get_audio_chunks data chunk_size = Ok chunks
    /\ concat chunks = data
    /\ Z.of_nat (length chunks)
       = ((Z.of_nat (length data) + chunk_size - 1) / chunk_size)%Z
    /\ Forall (fun chunk => Z.of_nat (length chunk) = chunk_size)
         (removelast chunks)
    /\ Forall (fun chunk => (1 <= Z.of_nat (length chunk) <= chunk_size)%Z)
         chunks
    /\ ((Z.of_nat (length data) mod chunk_size = 0)%Z ->
        Forall (fun chunk => Z.of_nat (length chunk) = chunk_size) chunks).
Proof.
  intros Hc. set (c := Z.to_nat chunk_size).
  assert (Hcn : (0 < c)%nat) by (unfold c; lia).
  assert (Ec : chunk_size = Z.of_nat c) by (unfold c; lia).
  exists (map (fun k => firstn c (skipn (k * c) data))
            (seq 0 (ceil_div (length data) c))).
  split; [rewrite Ec; apply get_audio_chunks_eq; exact Hcn|].
  split; [apply chunks_concat; now apply ceil_div_spec|].
  split; [|split; [|split]].
  - rewrite length_map, length_seq, Ec, <- (range_count _ _ Hcn).
    rewrite Z2Nat.id; [reflexivity|]. apply Z.div_pos; lia.
  - rewrite removelast_map, removelast_seq. apply Forall_map, Forall_forall.
    intros k Hk. apply in_seq in Hk. rewrite chunk_length.
    assert (((ceil_div (length data) c - 1) * c < length data)%nat).
    { apply ceil_div_spec; [exact Hcn|].
      destruct (length data); [|lia].
      unfold ceil_div in Hk. rewrite Nat.div_small in Hk by lia. lia. }
    assert (((k + 1) * c <= (ceil_div (length data) c - 1) * c)%nat)
      by (apply Nat.mul_le_mono_r; lia).
    lia.
  - apply Forall_map, Forall_forall. intros k Hk. apply in_seq in Hk.
    rewrite chunk_length.
    pose proof (ceil_div_lt (length data) c k Hcn ltac:(lia)). lia.
  - intros Hmod. apply Forall_map, Forall_forall. intros k Hk.
    apply in_seq in Hk. rewrite chunk_length.
    pose proof (ceil_div_lt (length data) c k Hcn ltac:(lia)) as Hlt.
    rewrite Ec in Hmod. apply Z.mod_divide in Hmod; [|lia].
    destruct Hmod as [q Hq].
    assert (Hq' : length data = (Z.to_nat q * c)%nat) by nia.
    rewrite Hq' in *.
    assert ((k < Z.to_nat q)%nat) by nia.
    assert (((k + 1) * c <= Z.to_nat q * c)%nat)
      by (apply Nat.mul_le_mono_r; lia).
    lia.
Qed.

(** X1: for a positive [chunk_size], [get_audio_chunks] loses and repeats
    nothing: the chunks, concatenated in order, are the input. *)
Theorem get_audio_chunks_concat (data : vec) (chunk_size : Z) :
  (0 < chunk_size)%Z ->
  exists chunks : list vec,
    get_audio_chunks data chunk_size = Ok chunks /\ concat chunks = data.
Proof.
  intros Hc.
  destruct (get_audio_chunks_spec data chunk_size Hc)
    as [chunks [H [Hcat _]]].
  now exists chunks.
Qed.

Lemma get_audio_chunks_concat_witness :
  exists chunks : list vec,
    get_audio_chunks [1; 2; 3; 4; 5]%float 2 = Ok chunks
    /\ concat chunks = [1; 2; 3; 4; 5]%float.
Proof.
  apply (get_audio_chunks_concat [1; 2; 3; 4; 5]%float 2). reflexivity.
Defined.

(** X2: for a positive [chunk_size] there are [ceil(len(data) /
    chunk_size)] chunks; every chunk but the last has exactly [chunk_size]
    entries, no chunk is empty or longer, and the last one is full too when
    [chunk_size] divides the length. *)
Theorem get_audio_chunks_lengths (data : vec) (chunk_size : Z) :
  (0 < chunk_size)%Z ->
  exists chunks : list vec,
    get_audio_chunks data chunk_size = Ok chunks
    /\ Z.of_nat (length chunks)
       = ((Z.of_nat (length data) + chunk_size - 1) / chunk_size)%Z
    /\ Forall (fun chunk => Z.of_nat (length chunk) = chunk_size)
         (removelast chunks)
    /\ Forall (fun chunk => (1 <= Z.of_nat (length chunk) <= chunk_size)%Z)
         chunks
    /\ ((Z.of_nat (length data) mod chunk_size = 0)%Z ->
        Forall (fun chunk => Z.of_nat (length chunk) = chunk_size) chunks).
Proof.
  intros Hc.
  destruct (get_audio_chunks_spec data chunk_size Hc)
    as [chunks [H [_ Hrest]]].
  now exists chunks.
Qed.

Lemma get_audio_chunks_lengths_witness :
  exists chunks : list vec,
    get_audio_chunks [1; 2; 3; 4; 5]%float 2 = Ok chunks
    /\ Z.of_nat (length chunks) = ((Z.of_nat 5 + 2 - 1) / 2)%Z
    /\ Forall (fun chunk => Z.of_nat (length chunk) = 2%Z) (removelast chunks)
    /\ Forall (fun chunk => (1 <= Z.of_nat (length chunk) <= 2)%Z) chunks
    /\ ((Z.of_nat 5 mod 2 = 0)%Z ->
        Forall (fun chunk => Z.of_nat (length chunk) = 2%Z) chunks).
Proof.
  apply (get_audio_chunks_lengths [1; 2; 3; 4; 5]%float 2). reflexivity.
Defined.

(** X3: a [chunk_size] of zero is a [ValueError], also on empty data; a
    negative one yields no chunk at all and drops the data without a word;
    and a call that returns yields no chunk only in that case or on empty
    data. *)
Theorem get_audio_chunks_degenerate :
  (forall data, get_audio_chunks data 0 = Raise ValueError)
  /\ (forall data chunk_size,
        (chunk_size < 0)%Z -> get_audio_chunks data chunk_size = Ok [])
  /\ (forall data chunk_size chunks,
        get_audio_chunks data chunk_size = Ok chunks ->
        (chunks = [] <-> (chunk_size < 0)%Z \/ data = [])).
Proof.
  assert (Hneg : forall data c,
             (c < 0)%Z -> get_audio_chunks data c = Ok []).
  { intros data c Hc. unfold get_audio_chunks, py_range_step.
    destruct (Z.eqb_spec c 0); [lia|].
    destruct (Z.ltb_spec c 0); [reflexivity | lia]. }
  split; [reflexivity|]. split; [exact Hneg|].
  intros data c chunks H.
  destruct (Z.lt_trichotomy c 0) as [Hc | [Hc | Hc]].
  - rewrite (Hneg data c Hc) in H. injection H as <-. split; auto.
  - subst c. discriminate.
  - destruct (get_audio_chunks_spec data c Hc)
      as [chunks' [H' [Hcat [_ [_ [Hall _]]]]]].
    rewrite H in H'. injection H' as <-. split.
    + intros ->. right. now rewrite <- Hcat.
    + intros [Hlt | ->]; [lia|].
      destruct chunks as [|ch chunks]; [reflexivity|]. exfalso.
      inversion Hall as [|? ? Hch _]; subst.
      assert (E : length (concat (ch :: chunks)) = 0%nat) by now rewrite Hcat.
      simpl in E. rewrite length_app in E. lia.
Qed.

(** X4: fed with the chunks of a signal cut at the block length [l], the
    driver passes only full blocks of [l] samples to the solver, in order.
    When [l] does not divide the length it returns one vector per full
    block, [len(data) // l] of them; when it does, the block dropped by
    [data[:-1]] is a full one and one vector is missing. *)
Theorem driver_solves_full_blocks (ker : kernels) (lm : libm) (data : vec)
    (f_s l d : Z) (gamma : pynum) (tol : float) (maxit : pynum)
    (chunks : list vec) (A : matrix) (L : float) :
  (0 < l)%Z ->
  get_audio_chunks data l = Ok chunks ->
  get_A lm (get_piano_keys lm) f_s l = Ok A ->
  lipschitz ker A = Ok L ->
  (forall y, In y (removelast chunks) ->
     exists r,
       solve_block ker A L (zeros (shape1 A)) d gamma tol maxit y = Ok r) ->
  exists out : list vec,
    apgd_driver ker lm chunks f_s l d gamma tol maxit = Ok out
    /\ Forall (fun y => Z.of_nat (length y) = l) (removelast chunks)
    /\ Forall2 (solution_of ker A L (zeros (shape1 A)) d gamma tol maxit)
         (removelast chunks) out
    /\ ((Z.of_nat (length data) mod l <> 0)%Z ->
        Z.of_nat (length out) = (Z.of_nat (length data) / l)%Z)
    /\ ((Z.of_nat (length data) mod l = 0)%Z -> data <> [] ->
        Z.of_nat (length out) = (Z.of_nat (length data) / l - 1)%Z
        /\ Z.of_nat (length (last chunks [])) = l).
Proof.
  intros Hl Hchunks HA HL Hall.
  destruct (driver_loop_appends ker A L (zeros (shape1 A)) d gamma tol maxit
              (removelast chunks) [] Hall) as [out [Hloop Hout]].
  destruct (get_audio_chunks_spec data l Hl)
    as [chunks' [H' [_ [Hcount [Hfull [Hsome Hdiv]]]]]].
  rewrite Hchunks in H'. injection H' as <-.
  assert (Hlen : length out = (length chunks - 1)%nat).
  { rewrite <- (Forall2_length Hout). apply removelast_length. }
  pose proof (Z.div_mod (Z.of_nat (length data)) l ltac:(lia)) as Hdm.
  pose proof (Z.mod_pos_bound (Z.of_nat (length data)) l Hl) as Hb.
  pose proof (Z.div_pos (Z.of_nat (length data)) l ltac:(lia) Hl) as Hq.
  exists out. split; [|split; [|split; [|split]]].
  - unfold apgd_driver. rewrite HA. simpl. rewrite HL. simpl. exact Hloop.
  - exact Hfull.
  - exact Hout.
  - intros Hmod. rewrite Hlen.
    assert (E : ((Z.of_nat (length data) + l - 1) / l
                 = Z.of_nat (length data) / l + 1)%Z).
    { symmetry.
      apply (Z.div_unique _ _ _ (Z.of_nat (length data) mod l - 1)); lia. }
    lia.
  - intros Hmod Hne.
    assert (E : ((Z.of_nat (length data) + l - 1) / l
                 = Z.of_nat (length data) / l)%Z).
    { symmetry. apply (Z.div_unique _ _ _ (l - 1)); lia. }
    assert (Hpos : (0 < Z.of_nat (length data) / l)%Z).
    { destruct data; [congruence|]. simpl length in *. nia. }
    split; [lia|].
    specialize (Hdiv Hmod).
    destruct chunks as [|ch chunks]; [simpl in Hcount; lia|].
    apply (proj1 (Forall_forall _ _) Hdiv).
    pose proof (@app_removelast_last _ (ch :: chunks) [] ltac:(discriminate))
      as Hl'.
    rewrite Hl' at 2. apply in_or_app. right. now left.
Qed.

Lemma driver_solves_full_blocks_witness :
  exists out : list vec,
    apgd_driver driver_kernels series_libm demo_blocks 1000 1 2
      (PFloat 4%float) 1e-6%float (PInt 3) = Ok out
    /\ Forall (fun y => Z.of_nat (length y) = 1%Z) (removelast demo_blocks)
    /\ Forall2
         (solution_of driver_kernels demo_dictionary 88%float
            (zeros (shape1 demo_dictionary)) 2 (PFloat 4%float) 1e-6%float
            (PInt 3))
         (removelast demo_blocks) out
    /\ ((Z.of_nat (length [1; 0.5; 0.25]%float) mod 1 <> 0)%Z ->
        Z.of_nat (length out)
        = (Z.of_nat (length [1; 0.5; 0.25]%float) / 1)%Z)
    /\ ((Z.of_nat (length [1; 0.5; 0.25]%float) mod 1 = 0)%Z ->
        [1; 0.5; 0.25]%float <> [] ->
        Z.of_nat (length out)
        = (Z.of_nat (length [1; 0.5; 0.25]%float) / 1 - 1)%Z
        /\ Z.of_nat (length (last demo_blocks [])) = 1%Z).
Proof.
  apply (driver_solves_full_blocks driver_kernels series_libm
           [1; 0.5; 0.25]%float 1000 1 2 (PFloat 4%float) 1e-6%float (PInt 3)
           demo_blocks demo_dictionary 88%float).
  - reflexivity.
  - reflexivity.
  - vm_compute. reflexivity.
  - reflexivity.
  - intros y Hin. simpl in Hin.
    destruct Hin as [<- | [<- | []]]; eexists; vm_compute; reflexivity.
Defined.

(** X5: given at most one block, the driver builds the dictionary and
    returns the empty list without a single solve, so that even a float
    [maxit] goes unnoticed; from two blocks on a float [maxit] is a
    [TypeError]. *)
Theorem apgd_driver_short_data (ker : kernels) (lm : libm) (data : list vec)
    (f_s l d : Z) (gamma : pynum) (tol : float) (maxit : pynum) (A : matrix)
    (L : float) :
  get_A lm (get_piano_keys lm) f_s l = Ok A ->
  lipschitz ker A = Ok L ->
  ((length data <= 1)%nat ->
   apgd_driver ker lm data f_s l d gamma tol maxit = Ok [])
  /\ ((2 <= length data)%nat -> (exists f, maxit = PFloat f) ->
      apgd_driver ker lm data f_s l d gamma tol maxit = Raise TypeError).
Proof.
  intros HA HL. unfold apgd_driver. rewrite HA. cbn [bind]. rewrite HL.
  cbn [bind]. split.
  - intros Hlen. destruct data as [|y [|y' data]]; [reflexivity .. |].
    cbn [length] in Hlen. lia.
  - intros Hlen [f ->]. destruct data as [|y [|y' data]];
      [cbn [length] in Hlen; lia .. |].
    reflexivity.
Qed.

Lemma apgd_driver_short_data_witness :
  ((length [[1]%float] <= 1)%nat ->
   apgd_driver driver_kernels series_libm [[1]%float] 1000 1 2
     (PFloat 4%float) 1e-6%float default_maxit = Ok [])
  /\ ((2 <= length [[1]%float])%nat ->
      (exists f, default_maxit = PFloat f) ->
      apgd_driver driver_kernels series_libm [[1]%float] 1000 1 2
        (PFloat 4%float) 1e-6%float default_maxit = Raise TypeError).
Proof.
  apply (apgd_driver_short_data driver_kernels series_libm [[1]%float] 1000 1
           2 (PFloat 4%float) 1e-6%float default_maxit demo_dictionary
           88%float).
  - vm_compute. reflexivity.
  - reflexivity.
Defined.

(** ** The order on binary64 values, continued *)

Ltac compare_cases :=
  repeat match goal with
    | H : context [(?a ?= ?b)%Z] |- _ =>
        destruct (Z.compare_spec a b); try discriminate H
    | |- context [(?a ?= ?b)%Z] =>
        destruct (Z.compare_spec a b)
    | H : context [Pos.compare_cont Eq ?a ?b] |- _ =>
        change (Pos.compare_cont Eq a b) with (Pos.compare a b) in H;
        destruct (Pos.compare_spec a b); try discriminate H
    | |- context [Pos.compare_cont Eq ?a ?b] =>
        change (Pos.compare_cont Eq a b) with (Pos.compare a b);
        destruct (Pos.compare_spec a b)
    end.

Lemma SFleb_trans (a b c : spec_float) :
  SFleb a b = true -> SFleb b c = true -> SFleb a c = true.
Proof.
  unfold SFleb.
  destruct a as [sa | sa | | sa ma ea], b as [sb | sb | | sb mb eb],
    c as [sc | sc | | sc mc ec];
    try destruct sa; try destruct sb; try destruct sc;
    cbn [SFcompare CompOpp]; intros H1 H2; try reflexivity; try discriminate;
    compare_cases; cbn [CompOpp] in *; try reflexivity; try discriminate; try lia.
Qed.

Lemma leb_trans (a b c : float) :
  (a <=? b)%float = true -> (b <=? c)%float = true -> (a <=? c)%float = true.
Proof. rewrite !FloatAxioms.leb_spec. apply SFleb_trans. Qed.

Lemma SFleb_refl (a : spec_float) : a <> S754_nan -> SFleb a a = true.
Proof.
  unfold SFleb. destruct a as [[]|[]| |[] m e]; cbn [SFcompare]; intros H;
    try reflexivity; try congruence;
    rewrite Z.compare_refl, Pos.compare_cont_refl; reflexivity.
Qed.

Lemma SFleb_total (a b : spec_float) :
  a <> S754_nan -> b <> S754_nan -> SFleb a b = false -> SFleb b a = true.
Proof.
  unfold SFleb. rewrite (SFcompare_antisym a b).
  destruct a as [[]|[]| |[] ma ea], b as [[]|[]| |[] mb eb];
    cbn [SFcompare option_map CompOpp]; intros Ha Hb H;
    try reflexivity; try discriminate; try congruence;
    destruct (ea ?= eb)%Z; cbn [CompOpp] in *; try reflexivity; try discriminate;
    destruct (Pos.compare_cont Eq ma mb); cbn [CompOpp] in *;
    try reflexivity; try discriminate.
Qed.

Lemma SFltb_false_leb (a b : spec_float) :
  a <> S754_nan -> b <> S754_nan -> SFltb a b = false -> SFleb b a = true.
Proof.
  unfold SFleb, SFltb. rewrite (SFcompare_antisym a b).
  destruct (SFcompare a b) as [[ | | ]|] eqn:E; cbn [option_map CompOpp];
    intros Ha Hb H; try reflexivity; try discriminate.
  exfalso. destruct a as [[]|[]| |[] ma ea], b as [[]|[]| |[] mb eb];
    cbn [SFcompare] in E; try discriminate; congruence.
Qed.

Lemma SFltb_leb (a b : spec_float) : SFltb a b = true -> SFleb a b = true.
Proof.
  unfold SFleb, SFltb. destruct (SFcompare a b) as [[ | | ]|]; congruence.
Qed.

Lemma is_finite_SF (v : float) :
  is_finite v = true -> SFfinite (Prim2SF v).
Proof.
  unfold is_finite, is_nan, is_infinity.
  rewrite !FloatAxioms.eqb_spec, abs_spec.
  destruct (Prim2SF v) as [[]|[]| |[] m e]; cbn; try discriminate; auto.
Qed.

Lemma SFfinite_not_nan (a : spec_float) : SFfinite a -> a <> S754_nan.
Proof. destruct a; simpl; congruence. Qed.

(** ** Order facts on finite floats *)

Lemma finite_not_nan (v : float) : is_finite v = true -> is_nan v = false.
Proof.
  unfold is_finite. destruct (is_nan v); [discriminate | reflexivity].
Qed.

Lemma finite_SF_not_nan (v : float) :
  is_finite v = true -> Prim2SF v <> S754_nan.
Proof. intros H. apply SFfinite_not_nan. now apply is_finite_SF. Qed.

Lemma leb_refl (a : float) : is_finite a = true -> (a <=? a)%float = true.
Proof.
  intros H. rewrite FloatAxioms.leb_spec. apply SFleb_refl.
  now apply finite_SF_not_nan.
Qed.

Lemma leb_total (a b : float) :
  is_finite a = true -> is_finite b = true ->
  (a <=? b)%float = false -> (b <=? a)%float = true.
Proof.
  intros Ha Hb. rewrite !FloatAxioms.leb_spec.
  apply SFleb_total; now apply finite_SF_not_nan.
Qed.

Lemma ltb_false_leb (a b : float) :
  is_finite a = true -> is_finite b = true ->
  (a <? b)%float = false -> (b <=? a)%float = true.
Proof.
  intros Ha Hb. rewrite FloatAxioms.ltb_spec, FloatAxioms.leb_spec.
  apply SFltb_false_leb; now apply finite_SF_not_nan.
Qed.

Lemma ltb_leb (a b : float) :
  (a <? b)%float = true -> (a <=? b)%float = true.
Proof.
  rewrite FloatAxioms.ltb_spec, FloatAxioms.leb_spec. apply SFltb_leb.
Qed.

(** ** Extrema of an array *)

Lemma minimum_finite (a b : float) :
  is_finite a = true -> is_finite b = true ->
  (minimum a b = a \/ minimum a b = b)
  /\ (minimum a b <=? a)%float = true /\ (minimum a b <=? b)%float = true.
Proof.
  intros Ha Hb. unfold minimum. rewrite (finite_not_nan a Ha), orb_false_r.
  destruct (a <=? b)%float eqn:E.
  - split; [now left|]. split; [now apply leb_refl | exact E].
  - split; [now right|]. split; [now apply leb_total | now apply leb_refl].
Qed.

Lemma maximum_finite (a b : float) :
  is_finite a = true -> is_finite b = true ->
  (maximum a b = a \/ maximum a b = b)
  /\ (a <=? maximum a b)%float = true /\ (b <=? maximum a b)%float = true.
Proof.
  intros Ha Hb. unfold maximum. rewrite (finite_not_nan a Ha), orb_false_r.
  destruct (b <=? a)%float eqn:E.
  - split; [now left|]. split; [now apply leb_refl | exact E].
  - split; [now right|]. split; [now apply leb_total | now apply leb_refl].
Qed.

Lemma fold_minimum_spec (r : vec) :
  forall a : float,
    is_finite a = true -> Forall (fun v => is_finite v = true) r ->
    In (fold_left minimum r a) (a :: r)
    /\ Forall (fun v => (fold_left minimum r a <=? v)%float = true) (a :: r).
Proof.
  induction r as [|b r IH]; intros a Ha Hr.
  - cbn [fold_left]. split; [now left|]. constructor; [now apply leb_refl|].
    constructor.
  - inversion Hr as [|? ? Hb Hr']; subst. cbn [fold_left].
    destruct (minimum_finite a b Ha Hb) as [Hin [Hla Hlb]].
    assert (Hm : is_finite (minimum a b) = true)
      by (destruct Hin as [-> | ->]; assumption).
    destruct (IH (minimum a b) Hm Hr') as [Hin' Hall].
    inversion Hall as [|? ? Hlm Hall']; subst. split.
    + destruct Hin' as [<- | Hin'].
      * destruct Hin as [-> | ->]; [now left | right; now left].
      * right. now right.
    + constructor; [exact (leb_trans _ _ _ Hlm Hla)|].
      constructor; [exact (leb_trans _ _ _ Hlm Hlb) | exact Hall'].
Qed.

Lemma fold_maximum_spec (r : vec) :
  forall a : float,
    is_finite a = true -> Forall (fun v => is_finite v = true) r ->
    In (fold_left maximum r a) (a :: r)
    /\ Forall (fun v => (v <=? fold_left maximum r a)%float = true) (a :: r).
Proof.
  induction r as [|b r IH]; intros a Ha Hr.
  - cbn [fold_left]. split; [now left|]. constructor; [now apply leb_refl|].
    constructor.
  - inversion Hr as [|? ? Hb Hr']; subst. cbn [fold_left].
    destruct (maximum_finite a b Ha Hb) as [Hin [Hla Hlb]].
    assert (Hm : is_finite (maximum a b) = true)
      by (destruct Hin as [-> | ->]; assumption).
    destruct (IH (maximum a b) Hm Hr') as [Hin' Hall].
    inversion Hall as [|? ? Hlm Hall']; subst. split.
    + destruct Hin' as [<- | Hin'].
      * destruct Hin as [-> | ->]; [now left | right; now left].
      * right. now right.
    + constructor; [exact (leb_trans _ _ _ Hla Hlm)|].
      constructor; [exact (leb_trans _ _ _ Hlb Hlm) | exact Hall'].
Qed.

(** The extrema of a non-empty array of finite values are entries of it
    that bound every entry. *)
Lemma extrema_spec (data : vec) :
  data <> [] -> Forall (fun v => is_finite v = true) data ->
  exists lo hi : float,
    array_min data = Ok lo /\ array_max data = Ok hi
    /\ In lo data /\ In hi data
    /\ Forall (fun v => (lo <=? v)%float = true /\ (v <=? hi)%float = true) data.
Proof.
  intros Hne Hfin. destruct data as [|a r]; [congruence|].
  inversion Hfin as [|? ? Ha Hr]; subst.
  destruct (fold_minimum_spec r a Ha Hr) as [Hlo Hlos].
  destruct (fold_maximum_spec r a Ha Hr) as [Hhi Hhis].
  exists (fold_left minimum r a), (fold_left maximum r a).
  repeat split; try assumption.
  rewrite Forall_forall in *. intros v Hv. split; auto.
Qed.

(** ** Quotients of magnitude at most one *)

Local Open Scope Z_scope.

(** A finite value divided by itself is one. *)
Lemma SFdiv_self (a : positive) (e : Z) :
  SF64div (S754_finite false a e) (S754_finite false a e) = SFone.
Proof.
  unfold SF64div, SFdiv, SFdiv_core_binary.
  replace (Zdigits2 (Zpos a) + e - (Zdigits2 (Zpos a) + e)) with 0 by lia.
  rewrite Z.sub_diag.
  change (Z.min (fexp prec emax 0) 0) with (-53).
  change (0 - -53) with 53. cbv iota.
  rewrite Z.shiftl_mul_pow2 by lia.
  rewrite (Z.mul_comm (Zpos a)).
  assert (E : Z.div_eucl (2 ^ 53 * Zpos a) (Zpos a) = (2 ^ 53, 0)).
  { pose proof (Z.div_eucl_eq (2 ^ 53 * Zpos a) (Zpos a) ltac:(lia)) as Heq.
    pose proof (Z.mod_pos_bound (2 ^ 53 * Zpos a) (Zpos a) ltac:(lia)) as Hb.
    unfold Z.modulo in Hb.
    destruct (Z.div_eucl (2 ^ 53 * Zpos a) (Zpos a)) as [q r].
    assert (q = 2 ^ 53) by nia. subst q. f_equal. lia. }
  rewrite E. unfold new_location, new_location_even, new_location_odd.
  cbn [Z.eqb]. destruct (Z.even (Zpos a)); reflexivity.
Qed.

(** Rounding does not look at the sign. *)
Lemma round_aux_sign (s : bool) (m e : Z) (l : location) :
  binary_round_aux prec emax s m e l
  = match binary_round_aux prec emax false m e l with
    | S754_zero _ => S754_zero s
    | S754_infinity _ => S754_infinity s
    | S754_nan => S754_nan
    | S754_finite _ m' e' => S754_finite s m' e'
    end.
Proof.
  unfold binary_round_aux.
  destruct (shr_fexp prec emax m e l) as [mrs' e'].
  destruct (shr_fexp prec emax _ e' loc_Exact) as [mrs'' e''].
  destruct (shr_m mrs'') as [|p|p]; try reflexivity.
  destruct (e'' <=? emax - prec); reflexivity.
Qed.

(** A quotient whose numerator does not exceed the denominator in
    magnitude is a zero or at most one in magnitude. *)
Lemma SFdiv_le_one (s : bool) (a b : positive) (ea eb : Z) :
  bounded prec emax a ea = true -> bounded prec emax b eb = true ->
  SFleb (S754_finite false a ea) (S754_finite false b eb) = true ->
  SF64div (S754_finite s a ea) (S754_finite false b eb) = S754_zero s
  \/ exists (m : positive) (e : Z),
       SF64div (S754_finite s a ea) (S754_finite false b eb)
       = S754_finite s m e
       /\ Zpos m <= 2 ^ (- e).
Proof.
  intros Ha Hb Hle.
  assert (Hpos : SF64div (S754_finite false a ea) (S754_finite false b eb)
                 = S754_zero false
                 \/ exists (m : positive) (e : Z),
                      SF64div (S754_finite false a ea) (S754_finite false b eb)
                      = S754_finite false m e
                      /\ Zpos m <= 2 ^ (- e)).
  { destruct (SFltb (S754_finite false a ea) (S754_finite false b eb)) eqn:Hlt.
    - now apply SFdiv_lt_one.
    - right. exists 4503599627370496%positive, (-52).
      split; [|vm_compute; discriminate].
      pose proof (compare_aligned a b ea eb Ha Hb) as Hcmp. cbv zeta in Hcmp.
      unfold SFleb in Hle. unfold SFltb in Hlt.
      assert (Heq : SFcompare (S754_finite false a ea) (S754_finite false b eb)
                    = Some Eq).
      { destruct (SFcompare _ _) as [[ | | ] | ]; congruence. }
      cbn [SFcompare] in Heq.
      destruct (Z.compare_spec ea eb); try discriminate. subst eb.
      change (Pos.compare_cont Eq a b) with (Pos.compare a b) in Heq.
      destruct (Pos.compare_spec a b); try discriminate. subst b.
      apply SFdiv_self. }
  unfold SF64div, SFdiv in *.
  destruct (SFdiv_core_binary prec emax (Zpos a) ea (Zpos b) eb)
    as [[mz ez] lz].
  cbn [xorb] in *. rewrite xorb_false_r, (round_aux_sign s).
  destruct Hpos as [-> | [m [e [-> Hm]]]]; [now left|].
  right. now exists m, e.
Qed.

(** A valid finite value of magnitude at most one lies between [-1] and
    [1]. *)
Lemma unit_bound (s : bool) (m : positive) (e : Z) :
  bounded prec emax m e = true -> Zpos m <= 2 ^ (- e) ->
  SFleb (Prim2SF (-1)%float) (S754_finite s m e) = true
  /\ SFleb (S754_finite s m e) SFone = true.
Proof.
  intros Hb Hm.
  assert (Hone : bounded prec emax 4503599627370496 (-52) = true)
    by reflexivity.
  pose proof (compare_aligned m 4503599627370496 e (-52) Hb Hone) as Hcmp.
  cbv zeta in Hcmp.
  assert (Hle : match SFcompare (S754_finite false m e) SFone with
                | Some (Lt | Eq) => True
                | _ => False
                end).
  { unfold SFone. destruct (SFcompare _ _) as [[ | | ] | ]; try exact I;
      try contradiction. exfalso.
    assert (He : 0 <= - e).
    { destruct (Z.le_gt_cases 0 (- e)) as [H | H]; [exact H|].
      rewrite Z.pow_neg_r in Hm by lia. lia. }
    set (z := Z.min e (-52)) in *.
    assert (E1 : 2 ^ (- e) * 2 ^ (e - z) = 2 ^ (- z))
      by (rewrite <- Z.pow_add_r; [f_equal |..]; lia).
    assert (E2 : 4503599627370496 * 2 ^ (-52 - z) = 2 ^ (- z)).
    { change 4503599627370496 with (2 ^ 52).
      rewrite <- Z.pow_add_r; [f_equal |..]; lia. }
    assert (0 <= 2 ^ (e - z)) by (apply Z.pow_nonneg; lia).
    nia. }
  change (Prim2SF (-1)%float) with (S754_finite true 4503599627370496 (-52)).
  unfold SFleb, SFone in *. destruct s.
  - split; [|reflexivity].
    rewrite (SFcompare_antisym (S754_finite false 4503599627370496 (-52))
               (S754_finite false m e)) in Hle.
    cbn [SFcompare] in *.
    destruct (-52 ?= e); cbn [option_map CompOpp] in *;
      try contradiction; try reflexivity.
    destruct (Pos.compare_cont Eq 4503599627370496 m);
      cbn [CompOpp] in *; try contradiction; reflexivity.
  - split; [reflexivity|].
    destruct (SFcompare _ _) as [[ | | ] | ]; try contradiction; reflexivity.
Qed.

Local Close Scope Z_scope.

(** [v / M] lies in [[-1, 1]] when [M] is positive and finite and
    [|v| <= M]. *)
Lemma div_in_unit_range (v M : float) :
  is_finite v = true -> is_finite M = true ->
  (0 <? M)%float = true -> (abs v <=? M)%float = true ->
  in_unit_range (v / M).
Proof.
  intros Hv HM Hpos Hle. unfold in_unit_range.
  destruct (positive_finite_inv M Hpos HM) as [b [eb [EM Hb]]].
  pose proof (Prim2SF_valid (v / M)) as Hvalid.
  rewrite !FloatAxioms.leb_spec. change (Prim2SF 1) with SFone.
  rewrite FloatAxioms.leb_spec, abs_spec, EM in Hle.
  rewrite div_spec, EM in *.
  pose proof (Prim2SF_valid v) as Hvv.
  apply is_finite_SF in Hv.
  destruct (Prim2SF v) as [s | s | | s a ea]; try contradiction.
  - cbn. destruct s; split; reflexivity.
  - cbn [SFabs valid_binary] in *.
    destruct (SFdiv_le_one s a b ea eb Hvv Hb Hle) as [Hq | [m [e [Hq Hm]]]];
      rewrite Hq in *.
    + destruct s; split; reflexivity.
    + cbn [valid_binary] in Hvalid. now apply unit_bound.
Qed.

(** ** Rescaling *)

Lemma abs_finite (v : float) : is_finite v = true -> is_finite (abs v) = true.
Proof.
  unfold is_finite, is_nan, is_infinity.
  rewrite !FloatAxioms.eqb_spec, !abs_spec.
  destruct (Prim2SF v) as [[]|[]| |[] m e]; cbn; auto;
    rewrite !Z.compare_refl, !Pos.compare_cont_refl; auto.
Qed.

Lemma py_max_finite (a b : float) :
  is_finite a = true -> is_finite b = true ->
  (py_max a b = a \/ py_max a b = b)
  /\ (a <=? py_max a b)%float = true /\ (b <=? py_max a b)%float = true.
Proof.
  intros Ha Hb. unfold py_max. destruct (a <? b)%float eqn:E.
  - split; [now right|]. split; [now apply ltb_leb | now apply leb_refl].
  - split; [now left|]. split; [now apply leb_refl | now apply ltb_false_leb].
Qed.

(** Below a larger entry a positive entry is smaller in magnitude; above a
    smaller entry a negative one is. *)
Lemma abs_le_upper (v hi : float) :
  (v <=? hi)%float = true -> (0 <=? v)%float = true ->
  (abs v <=? abs hi)%float = true.
Proof.
  rewrite !FloatAxioms.leb_spec, !abs_spec.
  change (Prim2SF 0) with (S754_zero false). unfold SFleb.
  destruct (Prim2SF v) as [[]|[]| |[] a ea],
    (Prim2SF hi) as [[]|[]| |[] b eb];
    cbn [SFcompare SFabs]; intros H1 H2; try reflexivity; try discriminate;
    exact H1.
Qed.

Lemma abs_le_lower (lo v : float) :
  (lo <=? v)%float = true -> (v <=? 0)%float = true ->
  (abs v <=? abs lo)%float = true.
Proof.
  rewrite !FloatAxioms.leb_spec, !abs_spec.
  change (Prim2SF 0) with (S754_zero false). unfold SFleb.
  destruct (Prim2SF v) as [[]|[]| |[] a ea],
    (Prim2SF lo) as [[]|[]| |[] b eb];
    cbn [SFcompare SFabs]; intros H1 H2; try reflexivity; try discriminate.
  rewrite (Z.compare_antisym eb ea).
  destruct (eb ?= ea)%Z; cbn [CompOpp] in *; try reflexivity; try discriminate.
  rewrite (Pos.compare_cont_antisym b a Eq) in H1. exact H1.
Qed.

(** An entry beyond [-1] or [1] has a magnitude above zero. *)
Lemma abs_positive_low (lo M : float) :
  (lo <? -1)%float = true -> (abs lo <=? M)%float = true ->
  (0 <? M)%float = true.
Proof.
  rewrite FloatAxioms.ltb_spec, FloatAxioms.leb_spec, FloatAxioms.ltb_spec,
    abs_spec.
  change (Prim2SF 0) with (S754_zero false).
  change (Prim2SF (-1)) with (S754_finite true 4503599627370496 (-52)).
  unfold SFltb, SFleb.
  destruct (Prim2SF lo) as [[]|[]| |[] a ea],
    (Prim2SF M) as [[]|[]| |[] b eb];
    cbn [SFcompare SFabs]; intros H1 H2; try reflexivity; discriminate.
Qed.

Lemma abs_positive_high (hi M : float) :
  (1 <? hi)%float = true -> (abs hi <=? M)%float = true ->
  (0 <? M)%float = true.
Proof.
  rewrite FloatAxioms.ltb_spec, FloatAxioms.leb_spec, FloatAxioms.ltb_spec,
    abs_spec.
  change (Prim2SF 0) with (S754_zero false).
  change (Prim2SF 1) with (S754_finite false 4503599627370496 (-52)).
  unfold SFltb, SFleb.
  destruct (Prim2SF hi) as [[]|[]| |[] a ea],
    (Prim2SF M) as [[]|[]| |[] b eb];
    cbn [SFcompare SFabs]; intros H1 H2; try reflexivity; discriminate.
Qed.

Lemma SF_is_finite (v : float) :
  SFfinite (Prim2SF v) -> is_finite v = true.
Proof.
  unfold is_finite, is_nan, is_infinity.
  rewrite !FloatAxioms.eqb_spec, abs_spec. unfold SFeqb.
  destruct (Prim2SF v) as [[]|[]| |[] m e]; cbn [SFfinite SFabs SFcompare];
    intros H; try contradiction; try reflexivity;
    rewrite Z.compare_refl, Pos.compare_cont_refl; reflexivity.
Qed.

Lemma in_unit_range_finite (v : float) :
  in_unit_range v -> is_finite v = true.
Proof.
  intros [H1 H2]. apply SF_is_finite.
  rewrite FloatAxioms.leb_spec in H1, H2.
  change (Prim2SF 1) with (S754_finite false 4503599627370496 (-52)) in H2.
  change (Prim2SF (-1)) with (S754_finite true 4503599627370496 (-52)) in H1.
  unfold SFleb in H1, H2.
  destruct (Prim2SF v) as [[]|[]| |[] a ea]; cbn [SFcompare] in H1, H2;
    try exact I; discriminate.
Qed.

Lemma leb_ltb_false (a b : float) :
  (a <=? b)%float = true -> (b <? a)%float = false.
Proof.
  intros H. destruct (b <? a)%float eqn:E; [|reflexivity].
  apply ltb_leb_false in E. congruence.
Qed.

Lemma rescale_audio_in_range (data : vec) :
  data <> [] -> Forall in_unit_range data -> rescale_audio data = Ok data.
Proof.
  intros Hne Hall.
  assert (Hfin : Forall (fun v => is_finite v = true) data).
  { revert Hall. apply Forall_impl. exact in_unit_range_finite. }
  destruct (extrema_spec data Hne Hfin) as [lo [hi [Hlo [Hhi [Il [Ih _]]]]]].
  unfold rescale_audio. rewrite Hlo, Hhi. cbn [bind].
  rewrite Forall_forall in Hall.
  destruct (Hall lo Il) as [Hl _]. destruct (Hall hi Ih) as [_ Hh].
  now rewrite (leb_ltb_false _ _ Hl), (leb_ltb_false _ _ Hh).
Qed.

Lemma rescale_audio_bounds (data : vec) :
  data <> [] -> Forall (fun v => is_finite v = true) data ->
  exists out : vec,
    rescale_audio data = Ok out
    /\ length out = length data
    /\ Forall in_unit_range out.
Proof.
  intros Hne Hfin.
  destruct (extrema_spec data Hne Hfin) as [lo [hi [Hlo [Hhi [Il [Ih Hb]]]]]].
  rewrite Forall_forall in Hfin, Hb.
  pose proof (Hfin lo Il) as Flo. pose proof (Hfin hi Ih) as Fhi.
  unfold rescale_audio. rewrite Hlo, Hhi. cbn [bind].
  destruct ((lo <? -1)%float || (1 <? hi)%float) eqn:Hout.
  - eexists. split; [reflexivity|]. split; [apply length_map|].
    destruct (py_max_finite (abs lo) (abs hi) (abs_finite lo Flo)
                (abs_finite hi Fhi)) as [HM [HMl HMh]].
    set (M := py_max (abs lo) (abs hi)) in *.
    assert (FM : is_finite M = true)
      by (destruct HM as [-> | ->]; now apply abs_finite).
    assert (PM : (0 <? M)%float = true).
    { apply orb_true_iff in Hout. destruct Hout as [H | H].
      - exact (abs_positive_low lo M H HMl).
      - exact (abs_positive_high hi M H HMh). }
    apply Forall_map, Forall_forall. intros v Hv.
    destruct (Hb v Hv) as [Hlv Hvh]. pose proof (Hfin v Hv) as Fv.
    apply div_in_unit_range; try assumption.
    destruct (0 <=? v)%float eqn:Hsign.
    + exact (leb_trans _ _ _ (abs_le_upper v hi Hvh Hsign) HMh).
    + assert (Hneg : (v <=? 0)%float = true)
        by (apply leb_total; [reflexivity | exact Fv | exact Hsign]).
      exact (leb_trans _ _ _ (abs_le_lower lo v Hlv Hneg) HMl).
  - exists data. split; [reflexivity|]. split; [reflexivity|].
    apply orb_false_iff in Hout. destruct Hout as [H1 H2].
    apply Forall_forall. intros v Hv.
    destruct (Hb v Hv) as [Hlv Hvh]. pose proof (Hfin v Hv) as Fv. split.
    + apply (leb_trans _ lo); [|exact Hlv].
      apply ltb_false_leb; [exact Flo | reflexivity | exact H1].
    + apply (leb_trans _ hi); [exact Hvh|].
      apply ltb_false_leb; [reflexivity | exact Fhi | exact H2].
Qed.

(** X6: on a non-empty array of finite samples [rescale_audio] returns an
    array of the same length whose entries all lie in [[-1, 1]], whether or
    not it had to divide. *)
Theorem rescale_audio_range (data : vec) :
  data <> [] -> Forall (fun v => is_finite v = true) data ->
  exists out : vec,
    rescale_audio data = Ok out
    /\ length out = length data
    /\ Forall in_unit_range out.
Proof. exact (rescale_audio_bounds data). Qed.

Lemma rescale_audio_range_witness :
  exists out : vec,
    rescale_audio [0.5; -4; 2]%float = Ok out
    /\ length out = length [0.5; -4; 2]%float
    /\ Forall in_unit_range out.
Proof.
  apply (rescale_audio_range [0.5; -4; 2]%float);
    [discriminate | repeat constructor].
Defined.

(** X7: [rescale_audio] is idempotent on finite samples: an array already
    within [[-1, 1]] is returned as it is, and so is the result of a first
    call when given to a second one. *)
Theorem rescale_audio_idempotent (data : vec) :
  data <> [] -> Forall (fun v => is_finite v = true) data ->
  (Forall in_unit_range data -> rescale_audio data = Ok data)
  /\ exists out : vec,
       rescale_audio data = Ok out /\ rescale_audio out = Ok out.
Proof.
  intros Hne Hfin. split; [now apply rescale_audio_in_range|].
  destruct (rescale_audio_bounds data Hne Hfin) as [out [Hout [Hlen Hrange]]].
  exists out. split; [exact Hout|].
  apply rescale_audio_in_range; [|exact Hrange].
  destruct data; [congruence|]. destruct out; discriminate.
Qed.

Lemma rescale_audio_idempotent_witness :
  (Forall in_unit_range [0.5; -4; 2]%float ->
   rescale_audio [0.5; -4; 2]%float = Ok [0.5; -4; 2]%float)
  /\ exists out : vec,
       rescale_audio [0.5; -4; 2]%float = Ok out
       /\ rescale_audio out = Ok out.
Proof.
  apply (rescale_audio_idempotent [0.5; -4; 2]%float);
    [discriminate | repeat constructor].
Defined.

(** ** Samples that are no numbers *)

Lemma is_nan_SF (f : float) : is_nan f = true -> Prim2SF f = S754_nan.
Proof.
  unfold is_nan. rewrite FloatAxioms.eqb_spec. unfold SFeqb.
  destruct (Prim2SF f) as [[]|[]| |[] m e]; cbn [SFcompare]; intros H;
    try discriminate; try reflexivity;
    rewrite Z.compare_refl, Pos.compare_cont_refl in H; discriminate.
Qed.

Lemma leb_nan_r (a b : float) : is_nan b = true -> (a <=? b)%float = false.
Proof.
  intros H. rewrite FloatAxioms.leb_spec, (is_nan_SF b H). unfold SFleb.
  destruct (Prim2SF a) as [[]|[]| |[] m e]; reflexivity.
Qed.

Lemma ltb_nan_l (a b : float) : is_nan a = true -> (a <? b)%float = false.
Proof.
  intros H. rewrite FloatAxioms.ltb_spec, (is_nan_SF a H). reflexivity.
Qed.

Lemma ltb_nan_r (a b : float) : is_nan b = true -> (a <? b)%float = false.
Proof.
  intros H. rewrite FloatAxioms.ltb_spec, (is_nan_SF b H). unfold SFltb.
  destruct (Prim2SF a) as [[]|[]| |[] m e]; reflexivity.
Qed.

(** A NaN operand wins in [np.minimum] and [np.maximum], on either side. *)
Lemma minimum_nan (a b : float) :
  is_nan a = true \/ is_nan b = true -> is_nan (minimum a b) = true.
Proof.
  unfold minimum. intros [H | H].
  - now rewrite H, orb_true_r.
  - rewrite (leb_nan_r a b H). cbn [orb].
    destruct (is_nan a) eqn:Ha; assumption.
Qed.

Lemma maximum_nan (a b : float) :
  is_nan a = true \/ is_nan b = true -> is_nan (maximum a b) = true.
Proof.
  unfold maximum. intros [H | H].
  - now rewrite H, orb_true_r.
  - destruct (is_nan a) eqn:Ha; [now rewrite orb_true_r|].
    rewrite orb_false_r.
    destruct (b <=? a)%float eqn:E; [|exact H].
    exfalso. rewrite FloatAxioms.leb_spec, (is_nan_SF b H) in E. discriminate.
Qed.

Lemma fold_nan (op : float -> float -> float) :
  (forall a b, is_nan a = true \/ is_nan b = true -> is_nan (op a b) = true) ->
  forall (r : vec) (a : float),
    is_nan a = true \/ Exists (fun v => is_nan v = true) r ->
    is_nan (fold_left op r a) = true.
Proof.
  intros Hop. induction r as [|b r IH]; intros a H; cbn [fold_left].
  - destruct H as [H | H]; [exact H | inversion H].
  - apply IH. destruct H as [H | H].
    + left. apply Hop. now left.
    + inversion H as [? ? Hb | ? ? Hr]; subst.
      * left. apply Hop. now right.
      * now right.
Qed.

(** X21: a NaN sample defeats [rescale_audio]: the minimum and the maximum
    of the array are then NaN, both range tests are false, and the array is
    returned as it is, whatever the size of its other samples. *)
Theorem rescale_audio_nan (data : vec) (v : float) :
  In v data -> is_nan v = true ->
  rescale_audio data = Ok data
  /\ exists lo hi : float,
       array_min data = Ok lo /\ array_max data = Ok hi
       /\ is_nan lo = true /\ is_nan hi = true.
Proof.
  intros Hin Hv. destruct data as [|a r]; [contradiction|].
  assert (Hex : is_nan a = true \/ Exists (fun w => is_nan w = true) r).
  { destruct Hin as [-> | Hin]; [now left | right].
    apply Exists_exists. now exists v. }
  pose proof (fold_nan minimum minimum_nan r a Hex) as Hlo.
  pose proof (fold_nan maximum maximum_nan r a Hex) as Hhi.
  split.
  - unfold rescale_audio. cbn [array_min array_max bind].
    now rewrite (ltb_nan_l _ _ Hlo), (ltb_nan_r _ _ Hhi).
  - exists (fold_left minimum r a), (fold_left maximum r a). now repeat split.
Qed.

Lemma rescale_audio_nan_witness :
  rescale_audio [3; nan; -7]%float = Ok [3; nan; -7]%float
  /\ exists lo hi : float,
       array_min [3; nan; -7]%float = Ok lo
       /\ array_max [3; nan; -7]%float = Ok hi
       /\ is_nan lo = true /\ is_nan hi = true.
Proof.
  apply (rescale_audio_nan [3; nan; -7]%float nan);
    [right; left; reflexivity | reflexivity].
Defined.

(** ** Groups of a longer vector *)

Lemma rows_of_groups (d : nat) (groups : list vec) :
  Forall (fun g => length g = d) groups ->
  rows_of (length groups) d (concat groups) = groups.
Proof.
  induction 1 as [|g groups Hg _ IH]; [reflexivity|].
  cbn [length rows_of concat].
  rewrite firstn_app, skipn_app, Hg, Nat.sub_diag, firstn_all2, skipn_all2
    by lia.
  cbn [firstn skipn app]. now rewrite app_nil_r, IH.
Qed.

Lemma concat_groups_length (d : nat) (groups : list vec) :
  Forall (fun g => length g = d) groups ->
  length (concat groups) = (length groups * d)%nat.
Proof.
  induction 1 as [|g groups Hg _ IH]; [reflexivity|].
  cbn [concat length]. rewrite length_app, Hg, IH. lia.
Qed.

(** Reshaping the concatenation of groups of [d] entries gives the groups
    back. *)
Lemma reshape_concat (d : Z) (groups : list vec) :
  (0 < d)%Z -> Forall (fun g => length g = Z.to_nat d) groups ->
  reshape (concat groups) d = Ok groups.
Proof.
  intros Hd Hall. unfold reshape.
  destruct (Z.leb_spec d 0) as [|_]; [lia|].
  rewrite (concat_groups_length _ _ Hall).
  assert (Hmod : (Z.of_nat (length groups * Z.to_nat d) mod d = 0)%Z).
  { rewrite Nat2Z.inj_mul, Z2Nat.id by lia. apply Z.mod_mul. lia. }
  rewrite Hmod. cbn [Z.eqb]. rewrite Nat.div_mul by lia.
  now rewrite rows_of_groups.
Qed.

Lemma reshape_groups (x : vec) (d : Z) (groups : list vec) :
  reshape x d = Ok groups ->
  (0 < d)%Z /\ concat groups = x
  /\ Forall (fun g => length g = Z.to_nat d) groups.
Proof.
  intros H. pose proof H as H0. unfold reshape in H.
  destruct (Z.leb_spec d 0) as [|Hd]; [discriminate|].
  destruct (Z.eqb_spec (Z.of_nat (length x) mod d) 0) as [Hmod|];
    [|discriminate].
  destruct (reshape_ok x d Hd Hmod) as [rows' [Hrows' [Hcat Hlen]]].
  rewrite H0 in Hrows'. injection Hrows' as <-. auto.
Qed.



(** X9: [prox12norm] commutes with concatenation: when it returns on [x]
    and on [y], its result on [x ++ y] is the two results one after the
    other. *)
Theorem prox12norm_app (x y : vec) (gamma : float) (d : Z) (ox oy : vec) :
  prox12norm x gamma d = Ok ox ->
  prox12norm y gamma d = Ok oy ->
  prox12norm (x ++ y) gamma d = Ok (ox ++ oy).
Proof.
  unfold prox12norm. intros Hx Hy.
  destruct (reshape x d) as [gx | | ] eqn:Ex; try discriminate.
  destruct (reshape y d) as [gy | | ] eqn:Ey; try discriminate.
  cbn [bind] in *. injection Hx as <-. injection Hy as <-.
  destruct (reshape_groups x d gx Ex) as [Hd [Hcx Hlx]].
  destruct (reshape_groups y d gy Ey) as [_ [Hcy Hly]].
  assert (E : reshape (x ++ y) d = Ok (gx ++ gy)).
  { rewrite <- Hcx, <- Hcy, <- concat_app. apply reshape_concat; [exact Hd|].
    apply Forall_app. now split. }
  rewrite E. cbn [bind]. now rewrite map_app, concat_app.
Qed.

Lemma prox12norm_app_witness :
  prox12norm ([3; 4] ++ [0.6; 0.8])%float 2 2
  = Ok ([1.7999999999999998; 2.3999999999999999] ++ [0; 0])%float.
Proof.
  apply (prox12norm_app [3; 4]%float [0.6; 0.8]%float 2 2
           [1.7999999999999998; 2.3999999999999999]%float [0; 0]%float);
    vm_compute; reflexivity.
Defined.

(** ** No threshold *)

Lemma div_zero_positive (r : float) :
  (0 <? r)%float = true -> (0 / r)%float = 0%float.
Proof.
  intros H. apply Prim2SF_inj. rewrite div_spec.
  change (Prim2SF 0) with (S754_zero false).
  destruct (ltb_zero_inv r H) as [-> | [m [e ->]]]; reflexivity.
Qed.

Lemma shrink_no_threshold (g : vec) :
  (0 <? row_norm g)%float = true -> shrink 0 g = g.
Proof.
  intros H. unfold shrink, factor. rewrite (div_zero_positive _ H).
  change (maximum (1 - 0) 0) with 1%float.
  unfold scale. etransitivity; [|apply map_id]. apply map_ext. exact mul_one.
Qed.

Lemma nan_mul (v : float) : is_nan (nan * v)%float = true.
Proof.
  assert (E : (nan * v)%float = nan).
  { apply Prim2SF_inj. rewrite mul_spec. reflexivity. }
  now rewrite E.
Qed.

Lemma shrink_zero_over_zero (g : vec) :
  (row_norm g =? 0)%float = true ->
  Forall (fun v => is_nan v = true) (shrink 0 g).
Proof.
  intros H. unfold shrink, factor. rewrite (row_norm_zero g H).
  change (maximum (1 - 0 / 0) 0) with nan.
  unfold scale. apply Forall_map, Forall_forall. intros v _. apply nan_mul.
Qed.

(** X18: at [gamma = 0] nothing is shrunk.  [prox12norm] returns its
    input when every group has a positive computed norm; but a group whose
    norm is zero gets the factor [max(1 - 0/0, 0)], a NaN, and comes out as
    NaNs. *)
Theorem prox12norm_no_threshold (x : vec) (d : Z) (groups : list vec) :
  reshape x d = Ok groups ->
  (Forall (fun g => (0 <? row_norm g)%float = true) groups ->
   prox12norm x 0 d = Ok x)
  /\ (forall g, In g groups ->
        ((0 <? row_norm g)%float = true -> shrink 0 g = g)
        /\ ((row_norm g =? 0)%float = true ->
            Forall (fun v => is_nan v = true) (shrink 0 g))).
Proof.
  intros Hx. split.
  - intros Hpos. unfold prox12norm. rewrite Hx. cbn [bind]. f_equal.
    rewrite <- (reshape_inv x d groups Hx). f_equal.
    etransitivity; [|apply map_id]. apply map_ext_in. intros g Hg.
    apply shrink_no_threshold. exact (proj1 (Forall_forall _ _) Hpos g Hg).
  - intros g _. split; [apply shrink_no_threshold | apply shrink_zero_over_zero].
Qed.

Lemma prox12norm_no_threshold_witness :
  (Forall (fun g => (0 <? row_norm g)%float = true) [[3; 4]; [0.6; 0.8]]%float ->
   prox12norm [3; 4; 0.6; 0.8]%float 0 2 = Ok [3; 4; 0.6; 0.8]%float)
  /\ (forall g, In g [[3; 4]; [0.6; 0.8]]%float ->
        ((0 <? row_norm g)%float = true -> shrink 0 g = g)
        /\ ((row_norm g =? 0)%float = true ->
            Forall (fun v => is_nan v = true) (shrink 0 g))).
Proof.
  apply (prox12norm_no_threshold [3; 4; 0.6; 0.8]%float 2
           [[3; 4]; [0.6; 0.8]]%float).
  reflexivity.
Defined.

(** ** Spectrogram values *)

Lemma magnitudes_pairs (groups : list vec) :
  Forall (fun g => length g = 2%nat) groups ->
  length (evens (concat groups)) = length groups
  /\ length (odds (concat groups)) = length groups
  /\ map PrimFloat.sqrt
       (map2 PrimFloat.add
          (map (fun v => v * v)%float (evens (concat groups)))
          (map (fun v => v * v)%float (odds (concat groups))))
     = map row_norm groups.
Proof.
  induction 1 as [|g groups Hg _ [IH1 [IH2 IH3]]]; [repeat split|].
  destruct g as [|a [|b [|? ?]]]; try discriminate.
  cbn [concat app evens odds map map2 length].
  rewrite IH1, IH2, IH3. repeat split.
Qed.

(** X10: the value that [generate_spectograms] computes for key [j] of a
    coefficient vector is the norm that [prox12norm] computes for pair [j]
    with [d = 2].  So the spectrogram of a [prox12norm] output holds the
    norms of the shrunk pairs, and a pair of zeros has the value [+0]. *)
Theorem magnitudes_are_group_norms (x : vec) (groups : list vec) :
  reshape x 2 = Ok groups ->
  magnitudes x = Ok (map row_norm groups)
  /\ (forall (gamma : float) (out : vec),
        prox12norm x gamma 2 = Ok out ->
        magnitudes out = Ok (map (fun g => row_norm (shrink gamma g)) groups))
  /\ (forall g, Forall zero_entry g -> row_norm g = 0%float).
Proof.
  intros Hx.
  assert (Hmag : forall gs : list vec,
             Forall (fun g => length g = 2%nat) gs ->
             magnitudes (concat gs) = Ok (map row_norm gs)).
  { intros gs Hgs. destruct (magnitudes_pairs gs Hgs) as [H1 [H2 H3]].
    unfold magnitudes, vadd, broadcast.
    rewrite !length_map, H1, H2, Nat.eqb_refl. cbn [bind]. now rewrite H3. }
  destruct (reshape_groups x 2 groups Hx) as [_ [Hcat Hlen]].
  change (Z.to_nat 2) with 2%nat in Hlen.
  split; [|split].
  - rewrite <- Hcat. now apply Hmag.
  - intros gamma out Hout. unfold prox12norm in Hout. rewrite Hx in Hout.
    cbn [bind] in Hout. injection Hout as <-.
    rewrite <- (map_map (shrink gamma) row_norm). apply Hmag.
    apply Forall_map. revert Hlen. apply Forall_impl.
    intros g Hg. now rewrite shrink_length.
  - intros g Hg. apply row_norm_zero. now apply zeros_row_norm.
Qed.

Lemma magnitudes_are_group_norms_witness :
  magnitudes [3; 4; 0.6; 0.8]%float
  = Ok (map row_norm [[3; 4]; [0.6; 0.8]]%float)
  /\ (forall (gamma : float) (out : vec),
        prox12norm [3; 4; 0.6; 0.8]%float gamma 2 = Ok out ->
        magnitudes out
        = Ok (map (fun g => row_norm (shrink gamma g))
                [[3; 4]; [0.6; 0.8]]%float))
  /\ (forall g, Forall zero_entry g -> row_norm g = 0%float).
Proof.
  apply (magnitudes_are_group_norms [3; 4; 0.6; 0.8]%float
           [[3; 4]; [0.6; 0.8]]%float).
  reflexivity.
Defined.

(** ** The exits of [apgd] *)

Section ApgdExit.
Variable ker : kernels.
Variable gradf : vec -> outcome vec.
Variable proxf : vec -> float -> outcome vec.
Variable gamma : pynum.
Variable step_size : float.
Variable tol : float.
Variable last : pynum.

Let step := apgd_step ker gradf proxf gamma step_size tol.
Let loop := apgd_loop ker gradf proxf gamma step_size tol last.
Let run := unconverged ker gradf proxf gamma step_size tol.

(** The passes counted from the first one. *)
Lemma unconverged_first (k : nat) :
  forall s : state,
    run (S k) s
    = match step s with
      | Ok (Continue s1) => run k s1
      | _ => None
      end.
Proof.
  induction k as [|k IH]; intros s.
  - unfold run, step. cbn [unconverged].
    destruct (apgd_step ker gradf proxf gamma step_size tol s) as [[x|s1]| |];
      reflexivity.
  - change (run (S (S k)) s)
      with (match run (S k) s with
            | Some s' => match step s' with
                         | Ok (Continue s'') => Some s''
                         | _ => None
                         end
            | None => None
            end).
    rewrite IH. destruct (step s) as [[x|s1]| |]; reflexivity.
Qed.

(** A loop that returns either met the test at some pass [k], or made all
    its passes without meeting it. *)
Lemma apgd_loop_returns (n : nat) :
  forall (i : Z) (s : state) (x : vec) (c : pynum),
    loop n i s = Ok (x, c) ->
    (exists (k : nat) (s' : state),
        (k < n)%nat /\ run k s = Some s'
        /\ step s' = Ok (Converged x) /\ c = PInt (i + Z.of_nat k))
    \/ (exists s' : state, run n s = Some s' /\ x = st_x s' /\ c = last).
Proof.
  induction n as [|n IH]; intros i s x c H.
  - right. exists s. injection H as <- <-. repeat split.
  - unfold loop in H. cbn [apgd_loop] in H. fold step in H.
    destruct (step s) as [[x1 | s1] | |] eqn:Hstep; cbn [bind] in H;
      try discriminate.
    + injection H as <- <-. left. exists 0%nat, s.
      rewrite Z.add_0_r. repeat split; [lia | exact Hstep].
    + destruct (IH _ _ _ _ H)
        as [[k [s' [Hk [Hrun [Hs' Hc]]]]] | [s' [Hrun Hx]]].
      * left. exists (S k), s'. rewrite unconverged_first, Hstep.
        repeat split;
          [lia | exact Hrun | exact Hs' | rewrite Hc; f_equal; lia].
      * right. exists s'. now rewrite unconverged_first, Hstep.
Qed.

(** After [k] passes that do not converge, the next pass decides. *)
Lemma apgd_loop_exit (k n : nat) (i : Z) (s s' : state) :
  run k s = Some s' ->
  loop (k + S n) i s
  = (r <- step s' ;;
     match r with
     | Converged x_next => Ok (x_next, PInt (i + Z.of_nat k))
     | Continue s'' => loop n (i + Z.of_nat k + 1) s''
     end).
Proof.
  intros Hrun. unfold loop.
  now rewrite (apgd_loop_skip ker gradf proxf gamma step_size tol last k
                 (S n) i s s' Hrun).
Qed.
End ApgdExit.

(** X11: the outcome of [apgd] is that of the first pass which does not go
    on.  If passes [0 .. k-1] do not converge and [k < maxit], then a pass
    [k] that meets the test returns its [x_next] with the count [k] (the
    index of the pass, so [0] on the first one), and a pass [k] that raises
    makes the call raise the same exception. *)
Theorem apgd_first_exit (ker : kernels) (gradf : vec -> outcome vec)
    (proxf : vec -> float -> outcome vec) (gamma : pynum) (L : float)
    (x0 : vec) (tol : float) (m : Z) (k : nat) (s : state) :
  (Z.of_nat k < m)%Z ->
  unconverged ker gradf proxf gamma (1 / L)%float tol k
    (mk_state (PInt 1) x0 x0) = Some s ->
  (forall x : vec,
      apgd_step ker gradf proxf gamma (1 / L)%float tol s = Ok (Converged x) ->
      apgd ker gradf proxf gamma L x0 tol (PInt m) = Ok (x, PInt (Z.of_nat k)))
  /\ (forall e : exn,
        apgd_step ker gradf proxf gamma (1 / L)%float tol s = Raise e ->
        apgd ker gradf proxf gamma L x0 tol (PInt m) = Raise e).
Proof.
  intros Hk Hrun. unfold apgd. cbn [py_range bind].
  replace (Z.to_nat m) with (k + S (Z.to_nat m - k - 1))%nat by lia.
  rewrite (apgd_loop_exit _ _ _ _ _ _ _ _ _ _ _ _ Hrun).
  split; intros r Hr; rewrite Hr; reflexivity.
Qed.

Lemma apgd_first_exit_witness :
  apgd demo_kernels demo_gradf demo_proxf (PFloat 0.001%float) 1%float
    [0; 0]%float 1e-6%float (PInt 5)
  = Ok ([0.999; 0]%float, PInt (Z.of_nat 1)).
Proof.
  apply (proj1 (apgd_first_exit demo_kernels demo_gradf demo_proxf
                  (PFloat 0.001%float) 1%float [0; 0]%float 1e-6%float 5 1
                  (mk_state (PFloat 1.618033988749895%float) [0.999; 0]%float
                     [0.999; 0]%float)
                  eq_refl eq_refl)).
  vm_compute. reflexivity.
Defined.

(** X12: the count returned by [apgd] tells whether the test was met.  A
    call that returns was given an int [maxit]; its count is either the
    index [k < maxit] of the pass that met the test, whose [x_next] is the
    vector returned, or [maxit + 1] after [maxit] passes that did not meet
    it, with the last iterate.  The count is never [maxit] itself. *)
Theorem apgd_count_tells_convergence (ker : kernels)
    (gradf : vec -> outcome vec) (proxf : vec -> float -> outcome vec)
    (gamma : pynum) (L : float) (x0 : vec) (tol : float) (maxit : pynum)
    (x : vec) (c : pynum) :
  apgd ker gradf proxf gamma L x0 tol maxit = Ok (x, c) ->
  exists m : Z,
    maxit = PInt m
    /\ c <> PInt m
    /\ ((exists (k : nat) (s : state),
            c = PInt (Z.of_nat k) /\ (Z.of_nat k < m)%Z
            /\ unconverged ker gradf proxf gamma (1 / L)%float tol k
                 (mk_state (PInt 1) x0 x0) = Some s
            /\ apgd_step ker gradf proxf gamma (1 / L)%float tol s
               = Ok (Converged x))
        \/ (c = PInt (m + 1)
            /\ exists s : state,
                 unconverged ker gradf proxf gamma (1 / L)%float tol
                   (Z.to_nat m) (mk_state (PInt 1) x0 x0) = Some s
                 /\ x = st_x s)).
Proof.
  intros H. destruct maxit as [m | f]; [|discriminate H].
  exists m. split; [reflexivity|].
  unfold apgd in H. cbn [py_range bind] in H.
  destruct (apgd_loop_returns _ _ _ _ _ _ _ _ _ _ _ _ H)
    as [[k [s [Hk [Hrun [Hstep Hc]]]]] | [s [Hrun [Hx Hc]]]].
  - rewrite Z.add_0_l in Hc. split.
    + rewrite Hc. intros E. injection E as E. lia.
    + left. exists k, s. repeat split; try assumption. lia.
  - split.
    + rewrite Hc. intros E. injection E as E. lia.
    + right. split; [exact Hc|]. now exists s.
Qed.

Lemma apgd_count_tells_convergence_witness :
  exists m : Z,
    PInt 5 = PInt m
    /\ PInt 1 <> PInt m
    /\ ((exists (k : nat) (s : state),
            PInt 1 = PInt (Z.of_nat k) /\ (Z.of_nat k < m)%Z
            /\ unconverged demo_kernels demo_gradf demo_proxf
                 (PFloat 0.001%float) (1 / 1)%float 1e-6%float k
                 (mk_state (PInt 1) [0; 0]%float [0; 0]%float) = Some s
            /\ apgd_step demo_kernels demo_gradf demo_proxf
                 (PFloat 0.001%float) (1 / 1)%float 1e-6%float s
               = Ok (Converged [0.999; 0]%float))
        \/ (PInt 1 = PInt (m + 1)
            /\ exists s : state,
                 unconverged demo_kernels demo_gradf demo_proxf
                   (PFloat 0.001%float) (1 / 1)%float 1e-6%float
                   (Z.to_nat m) (mk_state (PInt 1) [0; 0]%float [0; 0]%float)
                 = Some s
                 /\ [0.999; 0]%float = st_x s)).
Proof.
  apply (apgd_count_tells_convergence demo_kernels demo_gradf demo_proxf
           (PFloat 0.001%float) 1%float [0; 0]%float 1e-6%float (PInt 5)
           [0.999; 0]%float (PInt 1)).
  vm_compute. reflexivity.
Defined.

Section ApgdProx.
Variable ker : kernels.
Variable gradf : vec -> outcome vec.
Variable proxf : vec -> float -> outcome vec.
Variable gamma : pynum.
Variable step_size : float.
Variable tol : float.

Let step := apgd_step ker gradf proxf gamma step_size tol.
Let run := unconverged ker gradf proxf gamma step_size tol.

Lemma apgd_step_prox (s : state) (r : step_result) :
  step s = Ok r ->
  prox_value proxf gamma step_size
    match r with
    | Converged x_next => x_next
    | Continue s' => st_x s'
    end.
Proof.
  unfold step, apgd_step. intros H.
  destruct (gradf (st_z s)) as [grad | |]; cbn [bind] in H; try discriminate.
  destruct (vsub (st_z s) (scale step_size grad)) as [u | |]; cbn [bind] in H;
    try discriminate.
  destruct (py_mul_float gamma step_size) as [thr | |] eqn:Hthr;
    cbn [bind] in H; try discriminate.
  destruct (proxf u thr) as [x_next | |] eqn:Hprox; cbn [bind] in H;
    try discriminate.
  destruct (t_update ker (st_t s)) as [t_new | |]; cbn [bind] in H;
    try discriminate.
  destruct (momentum (st_t s) t_new) as [c | |]; cbn [bind] in H;
    try discriminate.
  destruct (vsub x_next (st_x s)) as [dx | |]; cbn [bind] in H;
    try discriminate.
  destruct (vadd x_next (scale c dx)) as [z_next | |]; cbn [bind] in H;
    try discriminate.
  destruct (norm ker dx <=? tol)%float; injection H as <-;
    exists u, thr; now split.
Qed.

Lemma unconverged_prox (k : nat) (s s' : state) :
  run (S k) s = Some s' -> prox_value proxf gamma step_size (st_x s').
Proof.
  unfold run. cbn [unconverged]. intros H.
  destruct (unconverged ker gradf proxf gamma step_size tol k s) as [s1|];
    [|discriminate].
  destruct (apgd_step ker gradf proxf gamma step_size tol s1)
    as [[x | s2] | |] eqn:Hstep; try discriminate.
  injection H as <-. exact (apgd_step_prox s1 (Continue s2) Hstep).
Qed.
End ApgdProx.

(** X19: a vector returned by [apgd] after at least one pass ([maxit >= 1])
    is a value of the proximal oracle: it is what [proxf] returned on some
    point at the threshold [gamma * (1 / L)], with nothing done to it
    afterwards.  The momentum only moves the points at which the oracles
    are called. *)
Theorem apgd_returns_prox_value (ker : kernels) (gradf : vec -> outcome vec)
    (proxf : vec -> float -> outcome vec) (gamma : pynum) (L : float)
    (x0 : vec) (tol : float) (m : Z) (x : vec) (c : pynum) :
  (1 <= m)%Z ->
  apgd ker gradf proxf gamma L x0 tol (PInt m) = Ok (x, c) ->
  prox_value proxf gamma (1 / L)%float x.
Proof.
  intros Hm H. unfold apgd in H. cbn [py_range bind] in H.
  destruct (apgd_loop_returns _ _ _ _ _ _ _ _ _ _ _ _ H)
    as [[k [s [Hk [Hrun [Hstep Hc]]]]] | [s [Hrun [Hx Hc]]]].
  - exact (apgd_step_prox _ _ _ _ _ _ s (Converged x) Hstep).
  - subst x. destruct (Z.to_nat m) as [|n] eqn:Hn; [lia|].
    exact (unconverged_prox _ _ _ _ _ _ n _ s Hrun).
Qed.

Lemma apgd_returns_prox_value_witness :
  prox_value demo_proxf (PFloat 0.001%float) (1 / 1)%float [0.999; 0]%float.
Proof.
  apply (apgd_returns_prox_value demo_kernels demo_gradf demo_proxf
           (PFloat 0.001%float) 1%float [0; 0]%float 1e-6%float 5
           [0.999; 0]%float (PInt 1)).
  - lia.
  - vm_compute. reflexivity.
Defined.

(** ** What [lscgnm] returns *)

(** X13: the upper bracket found by the doubling loop of [lscgnm] is the
    first power of two whose trial leaves a residual above [sigma]: every
    smaller power was tried and did not exceed it.  The loop took [k + 1]
    trials to find [2 ^ k], and finds the same value however long it is
    allowed to run. *)
Theorem doubling_first_excess (ker : kernels) (A : matrix) (y : vec)
    (sigma : float) (d : Z) (L : float) (x0 : vec) (gtol : float)
    (gmaxit : pynum) (fuel : nat) (gamma_u : Z) :
  doubling ker A y sigma d L x0 gtol gmaxit fuel 1 = Ok gamma_u ->
  exists (k : nat) (r : float),
    gamma_u = (2 ^ Z.of_nat k)%Z
    /\ (k < fuel)%nat
    /\ trial ker A y d L x0 gtol gmaxit (PInt gamma_u) = Ok r
    /\ (sigma <? r)%float = true
    /\ (forall j, (j < k)%nat ->
          exists rj : float,
            trial ker A y d L x0 gtol gmaxit (PInt (2 ^ Z.of_nat j)) = Ok rj
            /\ (sigma <? rj)%float = false)
    /\ (forall fuel' : nat, (fuel <= fuel')%nat ->
          doubling ker A y sigma d L x0 gtol gmaxit fuel' 1 = Ok gamma_u).
Proof.
  intros H.
  destruct (doubling_returns ker A y sigma d L x0 gtol gmaxit fuel 1 gamma_u H)
    as [k [r [Hgu [Hr [Htest Hbelow]]]]].
  rewrite Z.mul_1_l in Hgu.
  assert (Hk : (k < fuel)%nat).
  { destruct (Nat.lt_ge_cases k fuel) as [Hlt | Hge]; [exact Hlt|]. exfalso.
    pose proof (doubling_running ker A y sigma d L x0 gtol gmaxit fuel) as Hrun.
    rewrite Hrun in H; [discriminate|].
    intros j Hj. apply Hbelow. lia. }
  exists k, r. split; [exact Hgu|]. split; [exact Hk|].
  split; [exact Hr|]. split; [exact Htest|]. split.
  - intros j Hj. destruct (Hbelow j Hj) as [rj [Hrj Htj]].
    rewrite Z.mul_1_l in Hrj. now exists rj.
  - intros fuel' Hf. rewrite Hgu.
    apply (doubling_stops ker A y sigma d L x0 gtol gmaxit k fuel' r);
      try assumption; [now rewrite <- Hgu | lia].
Qed.

Lemma doubling_first_excess_witness :
  exists (k : nat) (r : float),
    4%Z = (2 ^ Z.of_nat k)%Z
    /\ (k < 5)%nat
    /\ trial demo_kernels demo_A [4]%float 2 1%float [0; 0]%float 1e-6%float
         (PInt 100) (PInt 4) = Ok r
    /\ (2.5 <? r)%float = true
    /\ (forall j, (j < k)%nat ->
          exists rj : float,
            trial demo_kernels demo_A [4]%float 2 1%float [0; 0]%float
              1e-6%float (PInt 100) (PInt (2 ^ Z.of_nat j)) = Ok rj
            /\ (2.5 <? rj)%float = false)
    /\ (forall fuel' : nat, (5 <= fuel')%nat ->
          doubling demo_kernels demo_A [4]%float 2.5%float 2 1%float
            [0; 0]%float 1e-6%float (PInt 100) fuel' 1 = Ok 4%Z).
Proof.
  apply (doubling_first_excess demo_kernels demo_A [4]%float 2.5%float 2
           1%float [0; 0]%float 1e-6%float (PInt 100) 5 4).
  vm_compute. reflexivity.
Defined.

Section BisectionResult.
Variable ker : kernels.
Variables (A : matrix) (y : vec) (sigma : float) (d : Z) (tol : float).
Variables (L : float) (x0 : vec) (gtol : float) (gmaxit : pynum).

Let bisect := bisection ker A y sigma d tol L x0 gtol gmaxit.

(** A bisection that returns has a bracket no wider than [tol]; either it
    made no pass, or [x_opt] is the solution of the last trial. *)
Lemma bisection_returns (fuel : nat) :
  forall (gl gu : pynum) (xo : option vec) (gl' gu' : pynum) (xo' : option vec),
    bisect fuel gl gu xo = Ok (gl', gu', xo') ->
    (exists w : pynum,
        py_sub gu' gl' = Ok w /\ py_gtb w (PFloat tol) = false)
    /\ ((gl' = gl /\ gu' = gu /\ xo' = xo)
        \/ (exists x : vec,
               xo' = Some x
               /\ last_trial ker A y sigma d L x0 gtol gmaxit gl' gu' x)).
Proof.
  induction fuel as [|fuel IH]; intros gl gu xo gl' gu' xo' H.
  - unfold bisect in H. cbn [bisection] in H.
    destruct (py_sub gu gl) as [w | |] eqn:Hw; cbn [bind] in H;
      try discriminate.
    destruct (py_gtb w (PFloat tol)) eqn:Hg; [discriminate|].
    injection H as <- <- <-. split; [now exists w|]. now left.
  - unfold bisect in H. cbn [bisection] in H.
    destruct (py_sub gu gl) as [w | |] eqn:Hw; cbn [bind] in H;
      try discriminate.
    destruct (py_gtb w (PFloat tol)) eqn:Hg.
    + destruct (py_add gl gu) as [s | |]; cbn [bind] in H; try discriminate.
      destruct (py_half s) as [mid | |]; cbn [bind] in H; try discriminate.
      destruct (solve ker A y d L x0 gtol gmaxit (PFloat mid))
        as [[x c] | |] eqn:Hs; cbn [bind] in H; try discriminate.
      destruct (residual ker A x y) as [e | |] eqn:He; cbn [bind] in H;
        try discriminate.
      destruct (e <? sigma)%float eqn:Ht.
      * destruct (IH _ _ _ _ _ _ H)
          as [Hexit [[-> [-> ->]] | Hlast]]; (split; [exact Hexit|]);
          right; [|exact Hlast].
        exists x. split; [reflexivity|]. exists mid, c, e. auto.
      * destruct (IH _ _ _ _ _ _ H)
          as [Hexit [[-> [-> ->]] | Hlast]]; (split; [exact Hexit|]);
          right; [|exact Hlast].
        exists x. split; [reflexivity|]. exists mid, c, e. auto.
    + injection H as <- <- <-. split; [now exists w|]. now left.
Qed.
End BisectionResult.

(** X14: every pair that [lscgnm] returns is of one of three kinds, told
    apart by the baseline residual [sigma0] of the run at [gamma0].
    [(None, -1)] is returned exactly when [sigma >= sigma0] fails, a NaN
    [sigma0] included.  Otherwise the zero vector comes with [+infinity] when
    [sigma >= ||y||]; and else a vector comes with the midpoint
    [gamma_star] of a final bracket no wider than [tol].  That vector is the
    solution of the last bisection trial, which ran at one end of the final
    bracket and not at [gamma_star]: its residual is below [sigma] when that
    end is the lower one, and not below [sigma] when it is the upper one. *)
Theorem lscgnm_returns (ker : kernels) (fuel : nat) (A : matrix) (y : vec)
    (sigma : float) (d : Z) (tol : float) (x0 : vec) (gtol : float)
    (gmaxit : pynum) (r : option vec * pynum) :
  lscgnm ker fuel A y sigma d tol x0 gtol gmaxit = Ok r ->
  exists (L : float) (xb : vec) (c : pynum) (sigma0 : float),
    lipschitz ker A = Ok L
    /\ solve ker A y d L x0 gtol gmaxit (PFloat gamma0) = Ok (xb, c)
    /\ residual ker A xb y = Ok sigma0
    /\ (((sigma0 <=? sigma)%float = false /\ r = (None, PInt (-1)))
        \/ ((sigma0 <=? sigma)%float = true
            /\ (norm ker y <=? sigma)%float = true
            /\ r = (Some (zeros (shape1 A)), PFloat infinity))
        \/ ((sigma0 <=? sigma)%float = true
            /\ (norm ker y <=? sigma)%float = false
            /\ exists (x : vec) (gamma_l gamma_u s : pynum) (gamma_star : float),
                 r = (Some x, PFloat gamma_star)
                 /\ py_add gamma_l gamma_u = Ok s
                 /\ py_half s = Ok gamma_star
                 /\ last_trial ker A y sigma d L x0 gtol gmaxit
                      gamma_l gamma_u x
                 /\ exists w : pynum,
                      py_sub gamma_u gamma_l = Ok w
                      /\ py_gtb w (PFloat tol) = false)).
Proof.
  unfold lscgnm. intros H.
  destruct (lipschitz ker A) as [L | |] eqn:HL; cbn [bind] in H;
    try discriminate.
  destruct (solve ker A y d L x0 gtol gmaxit (PFloat gamma0))
    as [[xb c] | |] eqn:Hs; cbn [bind] in H; try discriminate.
  destruct (residual ker A xb y) as [sigma0 | |] eqn:Hr; cbn [bind] in H;
    try discriminate.
  exists L, xb, c, sigma0. split; [reflexivity|].
  split; [exact Hs|]. split; [exact Hr|].
  destruct (sigma0 <=? sigma)%float.
  - right. destruct (norm ker y <=? sigma)%float.
    + left. injection H as <-. auto.
    + right. split; [reflexivity|]. split; [reflexivity|].
      destruct (doubling _ _ _ _ _ _ _ _ _ _ _) as [gu | |]; cbn [bind] in H;
        try discriminate.
      destruct (bisection _ _ _ _ _ _ _ _ _ _ _ _ _ _) as [[[gl gu'] xo] | |]
        eqn:Hb; cbn [bind] in H; try discriminate.
      destruct (py_add gl gu') as [s | |] eqn:Hadd; cbn [bind] in H;
        try discriminate.
      destruct (py_half s) as [gs | |] eqn:Hhalf; cbn [bind] in H;
        try discriminate.
      destruct xo as [x|]; [|discriminate]. injection H as <-.
      destruct (bisection_returns _ _ _ _ _ _ _ _ _ _ _ _ _ _ _ _ _ Hb)
        as [Hexit [[_ [_ Hnone]] | [x' [Hx' Hlast]]]]; [discriminate|].
      injection Hx' as <-.
      exists x, gl, gu', s, gs. auto.
  - left. injection H as <-. auto.
Qed.

Lemma lscgnm_returns_witness :
  exists (L : float) (xb : vec) (c : pynum) (sigma0 : float),
    lipschitz demo_kernels demo_A = Ok L
    /\ solve demo_kernels demo_A demo_y 2 L [0; 0]%float 1e-6%float
         (PInt 100) (PFloat gamma0) = Ok (xb, c)
    /\ residual demo_kernels demo_A xb demo_y = Ok sigma0
    /\ (((sigma0 <=? 0.5)%float = false
         /\ (Some [0.5009765625; 0]%float, PFloat 0.49951171875%float)
            = (None, PInt (-1)))
        \/ ((sigma0 <=? 0.5)%float = true
            /\ (norm demo_kernels demo_y <=? 0.5)%float = true
            /\ (Some [0.5009765625; 0]%float, PFloat 0.49951171875%float)
               = (Some (zeros (shape1 demo_A)), PFloat infinity))
        \/ ((sigma0 <=? 0.5)%float = true
            /\ (norm demo_kernels demo_y <=? 0.5)%float = false
            /\ exists (x : vec) (gamma_l gamma_u s : pynum) (gamma_star : float),
                 (Some [0.5009765625; 0]%float, PFloat 0.49951171875%float)
                 = (Some x, PFloat gamma_star)
                 /\ py_add gamma_l gamma_u = Ok s
                 /\ py_half s = Ok gamma_star
                 /\ last_trial demo_kernels demo_A demo_y 0.5%float 2 L
                      [0; 0]%float 1e-6%float (PInt 100) gamma_l gamma_u x
                 /\ exists w : pynum,
                      py_sub gamma_u gamma_l = Ok w
                      /\ py_gtb w (PFloat 0.001%float) = false)).
Proof.
  apply (lscgnm_returns demo_kernels 60 demo_A demo_y 0.5%float 2 0.001%float
           [0; 0]%float 1e-6%float (PInt 100)).
  vm_compute. reflexivity.
Defined.

(** ** The sweep over [sigma] *)

Section SweepFacts.
Variable ker : kernels.
Variable fuel : nat.
Variables (A : matrix) (block : vec) (d : Z) (tol : float) (x0 : vec).
Variables (gtol : float) (gmaxit : pynum).

Let call (sigma : float) := lscgnm ker fuel A block sigma d tol x0 gtol gmaxit.
Let loop := sweep ker fuel A block d tol x0 gtol gmaxit.

(** What a returning call tells about the feasibility test. *)
Lemma lscgnm_feasibility (sigma : float) (x : option vec) (g : pynum) :
  call sigma = Ok (x, g) ->
  exists (L : float) (xb : vec) (c : pynum) (sigma0 : float),
    lipschitz ker A = Ok L
    /\ solve ker A block d L x0 gtol gmaxit (PFloat gamma0) = Ok (xb, c)
    /\ residual ker A xb block = Ok sigma0
    /\ (((sigma0 <=? sigma)%float = false /\ x = None /\ g = PInt (-1))
        \/ ((sigma0 <=? sigma)%float = true
            /\ exists (v : vec) (gf : float), x = Some v /\ g = PFloat gf)).
Proof.
  unfold call, lscgnm. intros H.
  destruct (lipschitz ker A) as [L | |] eqn:HL; cbn [bind] in H;
    try discriminate.
  destruct (solve ker A block d L x0 gtol gmaxit (PFloat gamma0))
    as [[xb c] | |] eqn:Hs; cbn [bind] in H; try discriminate.
  destruct (residual ker A xb block) as [sigma0 | |] eqn:Hr; cbn [bind] in H;
    try discriminate.
  exists L, xb, c, sigma0. split; [reflexivity|].
  split; [exact Hs|]. split; [exact Hr|].
  destruct (sigma0 <=? sigma)%float.
  - right. split; [reflexivity|].
    destruct (norm ker block <=? sigma)%float.
    + injection H as <- <-. eauto.
    + destruct (doubling _ _ _ _ _ _ _ _ _ _ _) as [gu | |]; cbn [bind] in H;
        try discriminate.
      destruct (bisection _ _ _ _ _ _ _ _ _ _ _ _ _ _) as [[[gl gu'] xo] | |];
        cbn [bind] in H; try discriminate.
      destruct (py_add gl gu') as [s | |]; cbn [bind] in H; try discriminate.
      destruct (py_half s) as [gs | |]; cbn [bind] in H; try discriminate.
      destruct xo as [xo|]; [|discriminate].
      injection H as <- <-. eauto.
  - left. injection H as <- <-. auto.
Qed.

Lemma sweep_calls (sigmas : list float) :
  forall result printed r p,
    loop sigmas result printed = Ok (r, p) ->
    exists outs : list (option vec * pynum),
      Forall2 (fun sigma out => call sigma = Ok out) sigmas outs
      /\ r = result ++ map fst outs
      /\ p = printed ++ combine sigmas (map snd outs).
Proof.
  induction sigmas as [|sigma sigmas IH]; intros result printed r p H.
  - injection H as <- <-. exists []. rewrite !app_nil_r. repeat constructor.
  - unfold loop in H. cbn [sweep] in H. fold (call sigma) in H.
    destruct (call sigma) as [[x g] | |] eqn:Hc; cbn [bind] in H;
      try discriminate.
    destruct (IH _ _ _ _ H) as [outs [Hall [Hr Hp]]].
    exists ((x, g) :: outs). split; [now constructor|].
    cbn [map fst snd combine]. now rewrite Hr, Hp, <- !app_assoc.
Qed.

(** On an ascending list of [sigma] values the infeasible calls come
    first. *)
Lemma ascending_prefix (sigmas : list float) :
  ascending sigmas = true ->
  forall outs : list (option vec * pynum),
    Forall2 (fun sigma out => call sigma = Ok out) sigmas outs ->
    exists (k : nat) (xs : list vec),
      map fst outs = repeat None k ++ map Some xs.
Proof.
  induction sigmas as [|sigma sigmas IH]; intros Hasc outs Hall.
  - inversion Hall; subst. now exists 0%nat, [].
  - inversion Hall as [|? [x g] ? outs' Hc Hall']; subst.
    cbn [ascending] in Hasc. apply andb_true_iff in Hasc.
    destruct Hasc as [Hle Hasc].
    destruct (IH Hasc outs' Hall') as [k [xs Hk]].
    destruct (lscgnm_feasibility sigma x g Hc)
      as [L [xb [c [sigma0 [HL [Hs [Hr [[_ [-> _]] | [Hfeas [v [gf [-> _]]]]]]]]]]]].
    + exists (S k), xs. cbn [map fst repeat app]. now rewrite Hk.
    + (* every later call passes the test too *)
      assert (Hsome : Forall (fun out => exists w, fst out = Some w) outs').
      { rewrite forallb_forall in Hle. clear - Hall' Hle Hfeas HL Hs Hr.
        induction Hall' as [|s' [x' g'] sigmas outs' Hc' _ IH']; constructor.
        - destruct (lscgnm_feasibility s' x' g' Hc')
            as [L' [xb' [c' [sigma0' [HL' [Hs' [Hr' Hcase]]]]]]].
          rewrite HL in HL'. injection HL' as <-.
          rewrite Hs in Hs'. injection Hs' as <- <-.
          rewrite Hr in Hr'. injection Hr' as <-.
          destruct Hcase as [[Hinf _] | [_ [w [gf' [-> _]]]]]; [|now exists w].
          rewrite (leb_trans sigma0 sigma s' Hfeas) in Hinf; [discriminate|].
          apply Hle. now left.
        - apply IH'. intros b Hb. apply Hle. now right. }
      exists 0%nat. clear - Hsome.
      assert (exists ws, map fst outs' = map Some ws) as [ws Hws].
      { induction Hsome as [|[x' g'] outs' [w Hw] _ [ws IH]].
        - now exists [].
        - exists (w :: ws). cbn [map fst] in *. now rewrite Hw, IH. }
      exists (v :: ws). cbn [map fst repeat app]. now rewrite Hws.
Qed.
End SweepFacts.

Lemma sigma_list_ascending : ascending sigma_list = true.
Proof. vm_compute. reflexivity. Qed.

(** X15: a call of [lscgnm_driver] that returns made ten calls of [lscgnm],
    one per [sigma] from 0.1 to 1.0 in that order, and printed one line for
    each.  An entry of the result is [None] exactly when its line shows
    [gamma = -1]; since all calls share one baseline and the list ascends,
    the [None] entries come first, followed by vectors only.  The argument
    [d] has no effect: the group size is always 2. *)
Theorem lscgnm_driver_sweep (ker : kernels) (lm : libm) (fuel : nat)
    (block : vec) (f_s l d : Z) (tol gnrls_tol : float) (gnrls_maxit : pynum)
    (result : list (option vec)) (printed : list (float * pynum)) :
  lscgnm_driver ker lm fuel block f_s l d tol gnrls_tol gnrls_maxit
  = Ok (result, printed) ->
  length result = 10%nat
  /\ map fst printed = sigma_list
  /\ Forall2 (fun x line => x = None <-> snd line = PInt (-1)) result printed
  /\ (exists (k : nat) (xs : list vec), result = repeat None k ++ map Some xs)
  /\ (forall d' : Z,
        lscgnm_driver ker lm fuel block f_s l d' tol gnrls_tol gnrls_maxit
        = Ok (result, printed)).
Proof.
  unfold lscgnm_driver. intros H.
  destruct (get_A lm (get_piano_keys lm) f_s l) as [A | |]; cbn [bind] in H;
    try discriminate.
  destruct (lipschitz ker A) as [L | |] eqn:HL; cbn [bind] in H;
    try discriminate.
  destruct (sweep_calls _ _ _ _ _ _ _ _ _ _ _ _ _ _ H) as [outs [Hall [-> ->]]].
  cbn [app]. pose proof (Forall2_length Hall) as Hlen.
  split; [|split; [|split; [|split]]].
  - now rewrite length_map, <- Hlen.
  - clear - Hlen. revert outs Hlen.
    generalize sigma_list as sigmas.
    induction sigmas as [|s sigmas IH]; intros [|o outs] Hlen;
      try discriminate; [reflexivity|].
    cbn [map combine fst]. f_equal. apply IH. now injection Hlen.
  - clear HL H Hlen. revert Hall. generalize sigma_list as sigmas.
    intros sigmas Hall.
    induction Hall as [|s [x g] sigmas outs Hc _ IH]; [constructor|].
    cbn [map combine fst snd]. constructor; [|exact IH].
    destruct (lscgnm_feasibility _ _ _ _ _ _ _ _ _ _ _ _ Hc)
      as [L' [xb [c [sigma0 [_ [_ [_ [[_ [-> ->]] | [_ [v [gf [-> ->]]]]]]]]]]]];
      cbn [snd]; split; congruence.
  - apply (ascending_prefix _ _ _ _ _ _ _ _ _ _ sigma_list_ascending _ Hall).
  - intros d'. cbn [bind]. rewrite HL. exact H.
Qed.

Lemma lscgnm_driver_sweep_witness :
  exists (result : list (option vec)) (printed : list (float * pynum)),
    lscgnm_driver driver_kernels series_libm 0 [0.35]%float 1000 1 3
      0.001%float 1e-6%float (PInt 0) = Ok (result, printed)
    /\ length result = 10%nat
    /\ map fst printed = sigma_list
    /\ Forall2 (fun x line => x = None <-> snd line = PInt (-1)) result printed
    /\ (exists (k : nat) (xs : list vec), result = repeat None k ++ map Some xs)
    /\ (forall d' : Z,
          lscgnm_driver driver_kernels series_libm 0 [0.35]%float 1000 1 d'
            0.001%float 1e-6%float (PInt 0) = Ok (result, printed)).
Proof.
  eexists. eexists. split; [vm_compute; reflexivity|].
  apply (lscgnm_driver_sweep driver_kernels series_libm 0 [0.35]%float 1000 1 3
           0.001%float 1e-6%float (PInt 0)).
  vm_compute. reflexivity.
Defined.

(** ** The dictionary *)

Lemma mapM_ok {S T : Type} (f : S -> outcome T) (l : list S) (out : list T) :
  mapM f l = Ok out -> Forall2 (fun a b => f a = Ok b) l out.
Proof.
  revert out. induction l as [|a l IH]; intros out H.
  - injection H as <-. constructor.
  - cbn [mapM] in H. destruct (f a) as [b | |] eqn:Hb; cbn [bind] in H;
      try discriminate.
    destruct (mapM f l) as [bs | |]; cbn [bind] in H; try discriminate.
    injection H as <-. constructor; [exact Hb | now apply IH].
Qed.

Lemma mapM_first_raises {S T : Type} (f : S -> outcome T) (a : S) (l : list S)
    (e : exn) :
  f a = Raise e -> mapM f (a :: l) = Raise e.
Proof. intros H. cbn [mapM]. now rewrite H. Qed.

Lemma Forall2_nth_error {S T : Type} (R : S -> T -> Prop) (l : list S)
    (l' : list T) :
  Forall2 R l l' ->
  forall (k : nat) (a : S),
    nth_error l k = Some a -> exists b, nth_error l' k = Some b /\ R a b.
Proof.
  induction 1 as [|a0 b0 l l' Hab _ IH]; intros [|k] a Hk; try discriminate.
  - injection Hk as <-. now exists b0.
  - now apply IH.
Qed.

Lemma concat_pairs_nth (pairs : list vec) (i : nat) (p q : float) :
  Forall (fun pr => length pr = 2%nat) pairs ->
  nth_error pairs i = Some [p; q] ->
  nth_error (concat pairs) (2 * i) = Some p
  /\ nth_error (concat pairs) (2 * i + 1) = Some q.
Proof.
  intros Hall. revert i. induction Hall as [|pr pairs Hpr _ IH]; intros [|i] Hi;
    try discriminate.
  - injection Hi as ->. split; reflexivity.
  - destruct pr as [|a [|b [|? ?]]]; try discriminate.
    cbn [nth_error] in Hi. destruct (IH i Hi) as [H1 H2].
    replace (2 * S i)%nat with (S (S (2 * i))) by lia.
    replace (S (S (2 * i)) + 1)%nat with (S (S (2 * i + 1))) by lia.
    split; assumption.
Qed.

(** X16: a dictionary returned by [get_A] has [l] rows of
    [2 * len(frequencies)] entries each; in row [j], columns [2 i] and
    [2 i + 1] hold the cosine and the sine of one and the same angle, that
    of frequency [i] at sample [j]. *)
Theorem get_A_layout (lm : libm) (frequencies : list float) (f_s l : Z)
    (A : matrix) :
  get_A lm frequencies f_s l = Ok A ->
  (0 <= l)%Z
  /\ shape1 A = (2 * length frequencies)%nat
  /\ Z.of_nat (length (rows A)) = l
  /\ Forall (fun row => length row = shape1 A) (rows A)
  /\ (forall (j i : nat) (row : vec) (f : float),
        nth_error (rows A) j = Some row ->
        nth_error frequencies i = Some f ->
        exists a : float,
          angle f (Z.of_nat j) f_s = Ok a
          /\ nth_error row (2 * i) = Some (cos lm a)
          /\ nth_error row (2 * i + 1) = Some (sin lm a)).
Proof.
  unfold get_A. intros H.
  destruct (Z.ltb_spec l 0) as [|Hl]; [discriminate|].
  destruct (mapM (dictionary_row lm frequencies f_s) (seq 0 (Z.to_nat l)))
    as [rs | |] eqn:Hrs; cbn [bind] in H; try discriminate.
  injection H as <-. cbn [shape1 rows].
  apply mapM_ok in Hrs.
  assert (Hrow : forall (j : nat) (row : vec),
             dictionary_row lm frequencies f_s j = Ok row ->
             exists pairs : list vec,
               row = concat pairs
               /\ Forall2 (fun f pr => exists a, angle f (Z.of_nat j) f_s = Ok a
                                        /\ pr = [cos lm a; sin lm a])
                    frequencies pairs).
  { intros j row Hj. unfold dictionary_row in Hj.
    destruct (mapM _ frequencies) as [pairs | |] eqn:Hp; cbn [bind] in Hj;
      try discriminate.
    injection Hj as <-. exists pairs. split; [reflexivity|].
    apply mapM_ok in Hp. revert Hp. apply Forall2_impl.
    intros f pr Hf. destruct (angle f (Z.of_nat j) f_s) as [a | |];
      cbn [bind] in Hf; try discriminate.
    injection Hf as <-. now exists a. }
  assert (Hpairs : forall (j : nat) (fs : list float) (pairs : list vec),
             Forall2 (fun f pr => exists a, angle f (Z.of_nat j) f_s = Ok a
                                    /\ pr = [cos lm a; sin lm a])
               fs pairs ->
             Forall (fun pr => length pr = 2%nat) pairs).
  { intros j fs pairs Hp. induction Hp as [|f pr fs pairs [a [_ ->]] _ IH];
      constructor; [reflexivity | exact IH]. }
  split; [exact Hl|]. split; [reflexivity|]. split; [|split].
  - rewrite <- (Forall2_length Hrs), length_seq. lia.
  - clear Hl. induction Hrs as [|j row js rs Hj _ IH]; constructor; [|exact IH].
    destruct (Hrow j row Hj) as [pairs [-> Hp]].
    rewrite (Forall2_length Hp).
    pose proof (Hpairs j _ pairs Hp) as Hlen. clear - Hlen.
    induction Hlen as [|pr pairs Hpr _ IH]; [reflexivity|].
    cbn [concat length]. rewrite length_app, Hpr, IH. lia.
  - intros j i row f Hj Hi.
    assert (Hjrow : dictionary_row lm frequencies f_s j = Ok row).
    { assert (Hseq : forall k, (k < length rs)%nat ->
                nth_error (seq 0 (Z.to_nat l)) k = Some k).
      { intros k Hk. rewrite <- (Forall2_length Hrs), length_seq in Hk.
        rewrite nth_error_nth' with (d := 0%nat) by now rewrite length_seq.
        now rewrite seq_nth. }
      assert (Hjlt : (j < length rs)%nat)
        by (apply nth_error_Some; congruence).
      destruct (Forall2_nth_error _ _ _ Hrs j j (Hseq j Hjlt)) as [row' [Hj' Hr']].
      congruence. }
    destruct (Hrow j row Hjrow) as [pairs [-> Hp]].
    destruct (Forall2_nth_error _ _ _ Hp i f Hi) as [pr [Hpr [a [Ha ->]]]].
    exists a. split; [exact Ha|].
    apply concat_pairs_nth; [exact (Hpairs j _ pairs Hp) | exact Hpr].
Qed.

Lemma get_A_layout_witness :
  exists A : matrix,
    get_A series_libm [440]%float 1000 2 = Ok A
    /\ (0 <= 2)%Z
    /\ shape1 A = (2 * length [440]%float)%nat
    /\ Z.of_nat (length (rows A)) = 2%Z
    /\ Forall (fun row => length row = shape1 A) (rows A)
    /\ (forall (j i : nat) (row : vec) (f : float),
          nth_error (rows A) j = Some row ->
          nth_error [440]%float i = Some f ->
          exists a : float,
            angle f (Z.of_nat j) 1000 = Ok a
            /\ nth_error row (2 * i) = Some (cos series_libm a)
            /\ nth_error row (2 * i + 1) = Some (sin series_libm a)).
Proof.
  eexists. split; [vm_compute; reflexivity|].
  apply (get_A_layout series_libm [440]%float 1000 2).
  vm_compute. reflexivity.
Defined.

(** X17: the degenerate calls of [get_A].  A negative [l] is a
    [ValueError]; with [l = 0] or no frequency the matrix has no entry and
    no angle is evaluated, so that even [f_s = 0] passes; with at least one
    row and one frequency, [f_s = 0] is a [ZeroDivisionError]. *)
Theorem get_A_errors (lm : libm) (frequencies : list float) (f_s l : Z) :
  ((l < 0)%Z -> get_A lm frequencies f_s l = Raise ValueError)
  /\ (l = 0%Z ->
      get_A lm frequencies f_s l = Ok (mk_matrix (2 * length frequencies) []))
  /\ ((0 <= l)%Z -> frequencies = [] ->
      get_A lm frequencies f_s l = Ok (mk_matrix 0 (repeat [] (Z.to_nat l))))
  /\ ((0 < l)%Z -> frequencies <> [] -> f_s = 0%Z ->
      get_A lm frequencies f_s l = Raise ZeroDivisionError).
Proof.
  unfold get_A. split; [|split; [|split]].
  - intros Hl. destruct (Z.ltb_spec l 0); [reflexivity | lia].
  - intros ->. reflexivity.
  - intros Hl ->. destruct (Z.ltb_spec l 0); [lia|].
    assert (E : forall n s,
               mapM (dictionary_row lm [] f_s) (seq s n) = Ok (repeat [] n)).
    { induction n as [|n IH]; intros s; [reflexivity|].
      cbn [seq mapM]. unfold dictionary_row at 1. cbn [mapM bind concat].
      now rewrite IH. }
    now rewrite E.
  - intros Hl Hf ->. destruct (Z.ltb_spec l 0); [lia|].
    destruct (Z.to_nat l) as [|n] eqn:Hn; [lia|].
    destruct frequencies as [|f fs]; [congruence|].
    cbn [seq]. rewrite mapM_first_raises with (e := ZeroDivisionError);
      [reflexivity|].
    unfold dictionary_row. rewrite mapM_first_raises with (e := ZeroDivisionError);
      reflexivity.
Qed.

(** ** Exact arithmetic on a dyadic grid

    The ends of the bisection bracket are integer multiples of a power of
    two; sums, differences and halves of such values are exact. *)

Local Open Scope Z_scope.

Lemma shift_nat_value (n : nat) (p : positive) :
  Zpos (shift_nat n p) = Zpos p * 2 ^ Z.of_nat n.
Proof. rewrite shift_nat_correct, Zpower_nat_Z. lia. Qed.

(** A mantissa of 53 bits at an exponent of the normal range is its own
    rounding. *)
Lemma round_aux_canonical (q : positive) (E : Z) :
  Zpos (digits2_pos q) = 53 -> -1074 <= E <= 971 ->
  binary_round_aux prec emax false (Zpos q) E loc_Exact
  = S754_finite false q E.
Proof.
  intros Hd HE. unfold binary_round_aux, shr_fexp.
  cbn [Zdigits2 shr_record_of_loc]. rewrite Hd, fexp_binary64.
  replace (Z.max (53 + E - 53) (-1074) - E) with 0 by lia.
  cbn [shr shr_m loc_of_shr_record round_nearest_even Zdigits2 shr_record_of_loc].
  rewrite Hd, fexp_binary64.
  replace (Z.max (53 + E - 53) (-1074) - E) with 0 by lia.
  cbn [shr shr_m].
  replace (E <=? emax - prec) with true; [reflexivity|].
  symmetry. apply Z.leb_le. change (emax - prec) with 971. lia.
Qed.

(** Trailing zero bits beyond the 53rd are shifted out exactly. *)
Lemma round_aux_shifted (q : positive) (i : nat) (E : Z) :
  Zpos (digits2_pos q) = 53 -> -1074 <= E + Z.of_nat i <= 971 ->
  binary_round_aux prec emax false (Zpos (shift_nat i q)) E loc_Exact
  = S754_finite false q (E + Z.of_nat i).
Proof.
  intros Hd HE. destruct i as [|i].
  { change (shift_nat 0 q) with q. rewrite Z.add_0_r in *.
    now apply round_aux_canonical. }
  unfold binary_round_aux, shr_fexp.
  cbn [Zdigits2 shr_record_of_loc].
  rewrite digits2_shift_nat, Hd, fexp_binary64.
  replace (Z.max (Z.of_nat (S i) + 53 + E - 53) (-1074) - E)
    with (Zpos (Pos.of_succ_nat i)) by lia.
  cbn [shr]. rewrite iter_pos_nat, SuccNat2Pos.id_succ, shr_pow2.
  cbn [shr_m loc_of_shr_record round_nearest_even Zdigits2 shr_record_of_loc].
  rewrite Hd, fexp_binary64.
  replace (Z.max (53 + (E + Zpos (Pos.of_succ_nat i)) - 53) (-1074)
           - (E + Zpos (Pos.of_succ_nat i))) with 0 by lia.
  cbn [shr shr_m].
  replace (E + Zpos (Pos.of_succ_nat i) <=? emax - prec) with true.
  - f_equal; lia.
  - symmetry. apply Z.leb_le. change (emax - prec) with 971. lia.
Qed.

(** The float of [p * 2 ^ j] at exponent [e]: the mantissa moved to 53
    bits. *)
Lemma normalize_shifted (p : positive) (j : nat) (e : Z) :
  let t := 53 - Zpos (digits2_pos p) in
  0 <= t -> -1074 <= e + Z.of_nat j - t <= 971 ->
  binary_normalize prec emax (Zpos (shift_nat j p)) e false
  = S754_finite false (shift_nat (Z.to_nat t) p) (e + Z.of_nat j - t).
Proof.
  intros t Ht He. cbn [binary_normalize]. unfold binary_round.
  rewrite digits2_shift_nat, fexp_binary64.
  replace (Z.max (Z.of_nat j + Zpos (digits2_pos p) + e - 53) (-1074))
    with (e + Z.of_nat j - t) by (unfold t; lia).
  assert (Hq : Zpos (digits2_pos (shift_nat (Z.to_nat t) p)) = 53).
  { rewrite digits2_shift_nat. unfold t in *. lia. }
  destruct (Z_le_gt_dec t (Z.of_nat j)) as [Hle | Hgt].
  - (* at least 53 bits: nothing to shift in *)
    unfold shl_align.
    destruct (e + Z.of_nat j - t - e) as [|d|d] eqn:Hd; try lia.
    + replace (shift_nat j p) with (shift_nat 0 (shift_nat (Z.to_nat t) p)).
      2:{ rewrite <- shift_nat_plus. f_equal. lia. }
      rewrite round_aux_shifted; [f_equal; lia | exact Hq | lia].
    + replace (shift_nat j p)
        with (shift_nat (Pos.to_nat d) (shift_nat (Z.to_nat t) p)).
      2:{ rewrite <- shift_nat_plus. f_equal. lia. }
      rewrite round_aux_shifted; [f_equal; lia | exact Hq | lia].
  - unfold shl_align.
    destruct (e + Z.of_nat j - t - e) as [|d|d] eqn:Hd; try lia.
    change (Pos.iter xO (shift_nat j p) d) with (shift_pos d (shift_nat j p)).
    rewrite shift_pos_nat, <- shift_nat_plus.
    replace (Pos.to_nat d + j)%nat with (Z.to_nat t) by lia.
    apply round_aux_canonical; [exact Hq | lia].
Qed.

Lemma Zdigits2_pos (a : Z) : 0 < a -> Zdigits2 a = Zpos (digits2_pos (Z.to_pos a)).
Proof. destruct a; try lia. reflexivity. Qed.

(** The closed form of a grid value. *)
Lemma grid_closed (a e : Z) (j : nat) :
  fits a e ->
  binary_normalize prec emax (a * 2 ^ Z.of_nat j) (e - Z.of_nat j) false
  = S754_finite false
      (shift_nat (Z.to_nat (53 - Zdigits2 a)) (Z.to_pos a))
      (e + Zdigits2 a - 53).
Proof.
  intros [Ha [Hd [Hlo Hhi]]].
  rewrite (Zdigits2_pos a Ha) in *.
  replace (a * 2 ^ Z.of_nat j) with (Zpos (shift_nat j (Z.to_pos a))).
  2:{ rewrite shift_nat_value. rewrite Z2Pos.id by lia. reflexivity. }
  rewrite normalize_shifted by lia. f_equal. lia.
Qed.

Lemma grid_value (a e : Z) :
  fits a e ->
  grid a e
  = S754_finite false
      (shift_nat (Z.to_nat (53 - Zdigits2 a)) (Z.to_pos a))
      (e + Zdigits2 a - 53).
Proof.
  intros H. unfold grid.
  pose proof (grid_closed a e 0 H) as E.
  change (Z.of_nat 0) with 0 in E. rewrite Z.mul_1_r, Z.sub_0_r in E. exact E.
Qed.

(** The same value on a finer grid. *)
Lemma grid_scale (a e : Z) (j : nat) :
  fits a e -> grid (a * 2 ^ Z.of_nat j) (e - Z.of_nat j) = grid a e.
Proof.
  intros H. unfold grid at 1. now rewrite grid_closed, grid_value.
Qed.

Lemma grid_valid (a e : Z) : fits a e -> valid_binary (grid a e) = true.
Proof.
  intros H. rewrite (grid_value a e H). destruct H as [Ha [Hd [Hlo Hhi]]].
  cbn [SpecFloat.valid_binary]. unfold bounded, canonical_mantissa.
  rewrite digits2_shift_nat, fexp_binary64, <- (Zdigits2_pos a Ha).
  apply andb_true_iff. split; [apply Z.eqb_eq | apply Z.leb_le].
  - lia.
  - change (emax - prec) with 971. lia.
Qed.

(** The mantissas of two grid values, aligned at the smaller exponent. *)
Lemma grid_aligned (a b e : Z) :
  fits a e -> fits b e ->
  let T := Z.max (53 - Zdigits2 a) (53 - Zdigits2 b) in
  let Ma := shift_nat (Z.to_nat (53 - Zdigits2 a)) (Z.to_pos a) in
  let Ea := e + Zdigits2 a - 53 in
  let Eb := e + Zdigits2 b - 53 in
  Z.min Ea Eb = e - T
  /\ Zpos (fst (shl_align Ma Ea (Z.min Ea Eb))) = a * 2 ^ T.
Proof.
  intros [Ha [Hda _]] [Hb [Hdb _]] T Ma Ea Eb.
  assert (Hmin : Z.min Ea Eb = e - T) by (unfold Ea, Eb, T; lia).
  split; [exact Hmin|].
  rewrite shl_align_value by lia. unfold Ma.
  rewrite shift_nat_value, Z2Pos.id, Z2Nat.id by lia.
  rewrite <- Z.mul_assoc, <- Z.pow_add_r by (unfold Ea, Eb, T in *; lia).
  f_equal. f_equal. unfold Ea, T in *. lia.
Qed.

Lemma grid_add (a b e : Z) :
  fits a e -> fits b e -> fits (a + b) e ->
  SF64add (grid a e) (grid b e) = grid (a + b) e.
Proof.
  intros Ha Hb Hab.
  destruct (grid_aligned a b e Ha Hb) as [Hmin Hma].
  destruct (grid_aligned b a e Hb Ha) as [Hmin' Hmb].
  rewrite (grid_value a e Ha), (grid_value b e Hb).
  unfold SF64add, SFadd. cbn [cond_Zopp].
  rewrite (Z.min_comm (e + Zdigits2 b - 53)) in Hmb.
  rewrite Hma, Hmb, Hmin.
  rewrite (Z.max_comm (53 - Zdigits2 b)).
  set (T := Z.max (53 - Zdigits2 a) (53 - Zdigits2 b)).
  assert (HT : 0 <= T) by (destruct Ha as [_ [? _]]; unfold T; lia).
  rewrite <- Z.mul_add_distr_r, <- (Z2Nat.id T HT).
  now rewrite grid_closed, grid_value.
Qed.

Lemma grid_sub (a b e : Z) :
  fits a e -> fits b e -> fits (b - a) e ->
  SF64sub (grid b e) (grid a e) = grid (b - a) e.
Proof.
  intros Ha Hb Hab.
  destruct (grid_aligned a b e Ha Hb) as [Hmin Hma].
  destruct (grid_aligned b a e Hb Ha) as [Hmin' Hmb].
  rewrite (grid_value a e Ha), (grid_value b e Hb).
  unfold SF64sub, SFsub. cbn [cond_Zopp].
  rewrite (Z.min_comm (e + Zdigits2 a - 53)) in Hma.
  rewrite Hma, Hmb, Hmin'.
  rewrite (Z.max_comm (53 - Zdigits2 a)).
  set (T := Z.max (53 - Zdigits2 b) (53 - Zdigits2 a)).
  assert (HT : 0 <= T) by (destruct Ha as [_ [? _]]; unfold T; lia).
  rewrite <- Z.mul_sub_distr_r, <- (Z2Nat.id T HT).
  now rewrite grid_closed, grid_value.
Qed.

(** Halving a normal value well above the subnormal range is exact. *)
Lemma SFdiv_two (M : positive) (E : Z) :
  Zpos (digits2_pos M) = 53 -> -1072 <= E <= 971 ->
  SF64div (S754_finite false M E) (Prim2SF 2)
  = S754_finite false M (E - 1).
Proof.
  intros Hd HE.
  change (Prim2SF 2) with (S754_finite false 4503599627370496 (-51)).
  unfold SF64div, SFdiv, SFdiv_core_binary. cbn [xorb Zdigits2].
  rewrite Hd. change (Zpos (digits2_pos 4503599627370496)) with 53.
  rewrite fexp_binary64.
  replace (Z.min (Z.max (53 + E - (53 + -51) - 53) (-1074)) (E - -51))
    with (E - 2) by lia.
  replace (E - -51 - (E - 2)) with 53 by lia.
  rewrite Z.shiftl_mul_pow2 by lia.
  assert (Hdiv : Z.div_eucl (Zpos M * 2 ^ 53) 4503599627370496
                 = (Zpos M~0, 0)).
  { pose proof (Z.div_eucl_eq (Zpos M * 2 ^ 53) 4503599627370496 ltac:(lia))
      as Heq.
    pose proof (Z.mod_pos_bound (Zpos M * 2 ^ 53) 4503599627370496 ltac:(lia))
      as Hb.
    unfold Z.modulo in Hb.
    destruct (Z.div_eucl (Zpos M * 2 ^ 53) 4503599627370496) as [q r].
    change (2 ^ 53) with (2 * 4503599627370496) in Heq.
    assert (q = Zpos M~0) by lia. subst q. f_equal. lia. }
  rewrite Hdiv.
  change (new_location 4503599627370496 0) with loc_Exact.
  change (M~0)%positive with (shift_nat 1 M).
  rewrite round_aux_shifted; [f_equal; lia | exact Hd | lia].
Qed.

Lemma grid_half (s e : Z) :
  fits s e -> -1072 <= e + Zdigits2 s - 53 ->
  SF64div (grid s e) (Prim2SF 2) = grid s (e - 1).
Proof.
  intros Hs Hlo.
  assert (Hs' : fits s (e - 1)) by (unfold fits in *; lia).
  rewrite (grid_value s e Hs), (grid_value s (e - 1) Hs').
  destruct Hs as [Ha [Hd [_ Hhi]]].
  rewrite SFdiv_two.
  - f_equal. lia.
  - rewrite digits2_shift_nat, <- (Zdigits2_pos s Ha). lia.
  - lia.
Qed.

Local Close Scope Z_scope.

(** ** The bracket on a dyadic grid *)

Lemma fits_cell (k j : nat) (v : Z) :
  (k <= 1023)%nat -> (j <= 52)%nat ->
  (0 < v <= 2 ^ (Z.of_nat j + 1) - 1)%Z ->
  fits v (Z.of_nat k - Z.of_nat j)
  /\ (-1072 <= Z.of_nat k - Z.of_nat j + Zdigits2 v - 53)%Z.
Proof.
  intros Hk Hj Hv.
  assert (Hd : (Zdigits2 v <= Z.of_nat j + 1)%Z)
    by (apply Zdigits2_le; lia).
  assert (Hd1 : (1 <= Zdigits2 v)%Z).
  { destruct v as [|p|p]; try lia. cbn [Zdigits2]. lia. }
  unfold fits. lia.
Qed.

Lemma py_sub_view (gu gl : pynum) (fu fl : float) :
  (forall m n, gl = PInt m -> gu = PInt n -> False) ->
  float_view gu = Ok fu -> float_view gl = Ok fl ->
  py_sub gu gl = Ok (PFloat (fu - fl)).
Proof.
  intros Hmix Hu Hl. destruct gu as [n | u], gl as [m | l]; cbn in *.
  - exfalso. now apply (Hmix m n).
  - injection Hl as <-. now rewrite Hu.
  - injection Hu as <-. now rewrite Hl.
  - now injection Hu as <-; injection Hl as <-.
Qed.

Lemma py_add_view (gl gu : pynum) (fl fu : float) :
  (forall m n, gl = PInt m -> gu = PInt n -> False) ->
  float_view gl = Ok fl -> float_view gu = Ok fu ->
  py_add gl gu = Ok (PFloat (fl + fu)).
Proof.
  intros Hmix Hl Hu. destruct gu as [n | u], gl as [m | l]; cbn in *.
  - exfalso. now apply (Hmix m n).
  - injection Hl as <-. now rewrite Hu.
  - injection Hu as <-. now rewrite Hl.
  - now injection Hu as <-; injection Hl as <-.
Qed.

(** The width of a cell is the step of its grid. *)
Lemma cell_width (fl fu : float) (a e : Z) :
  on_grid fl a e -> fits (a + 1) e -> Prim2SF fu = grid (a + 1) e ->
  fits 1 e ->
  Prim2SF (fu - fl) = grid 1 e.
Proof.
  intros Hl Hfu Hu H1. rewrite sub_spec, Hu.
  destruct Hl as [[-> ->] | [Hfa Ha]].
  - change (Prim2SF 0) with (S754_zero false). cbn [Z.add].
    rewrite (grid_value 1 e H1). reflexivity.
  - rewrite Ha, grid_sub by (try assumption; now replace (a + 1 - a)%Z with 1%Z by lia).
    f_equal. lia.
Qed.

(** The sum of the two ends of a cell. *)
Lemma cell_sum (fl fu : float) (a e : Z) :
  on_grid fl a e -> fits (a + 1) e -> Prim2SF fu = grid (a + 1) e ->
  fits (2 * a + 1) e ->
  Prim2SF (fl + fu) = grid (2 * a + 1) e.
Proof.
  intros Hl Hfu Hu Hs. rewrite add_spec, Hu.
  destruct Hl as [[-> ->] | [Hfa Ha]].
  - change (Prim2SF 0) with (S754_zero false). cbn [Z.add Z.mul].
    rewrite (grid_value 1 e Hfu). reflexivity.
  - rewrite Ha, grid_add by (try assumption; now replace (a + (a + 1))%Z with (2 * a + 1)%Z by lia).
    f_equal. lia.
Qed.

(** An end that stays is the same float on the finer grid. *)
Lemma on_grid_refine (f : float) (v e : Z) :
  on_grid f v e -> fits (2 * v) (e - 1) \/ v = 0%Z ->
  on_grid f (2 * v) (e - 1).
Proof.
  intros [[-> ->] | [Hv Hf]] H.
  - left. now split.
  - right. destruct H as [H | ->]; [|destruct Hv; lia]. split; [exact H|].
    rewrite Hf. symmetry.
    replace (2 * v)%Z with (v * 2 ^ Z.of_nat 1)%Z
      by (change (2 ^ Z.of_nat 1)%Z with 2%Z; lia).
    change (e - 1)%Z with (e - Z.of_nat 1)%Z.
    now apply grid_scale.
Qed.

(** ** Floats of the grid *)

Lemma grid_float (v e : Z) :
  fits v e ->
  Prim2SF (round_int v e) = grid v e
  /\ is_infinity (round_int v e) = false.
Proof.
  intros H. unfold round_int. fold (grid v e).
  assert (E : Prim2SF (SF2Prim (grid v e)) = grid v e)
    by (apply Prim2SF_SF2Prim, grid_valid, H).
  split; [exact E|].
  unfold is_infinity. rewrite FloatAxioms.eqb_spec, abs_spec, E.
  rewrite (grid_value v e H). reflexivity.
Qed.

Lemma float_is_grid (f : float) (v e : Z) :
  Prim2SF f = grid v e -> f = round_int v e.
Proof.
  intros H. unfold round_int. fold (grid v e). rewrite <- H.
  symmetry. apply SF2Prim_Prim2SF.
Qed.

Lemma fits_one (k j : nat) :
  (k <= 1023)%nat -> (j <= 53)%nat -> fits 1 (Z.of_nat k - Z.of_nat j).
Proof. intros Hk Hj. unfold fits. cbn [Zdigits2 digits2_pos]. lia. Qed.

(** The int [2 ^ k] as a float, and its half. *)
Lemma pow2_view (k : nat) :
  (k <= 1023)%nat ->
  float_of_int (2 ^ Z.of_nat k) = Ok (round_int 1 (Z.of_nat k))
  /\ int_half (2 ^ Z.of_nat k) = Ok (round_int 1 (Z.of_nat k - 1)).
Proof.
  intros Hk.
  assert (H1 : fits 1 (Z.of_nat k))
    by (unfold fits; cbn [Zdigits2 digits2_pos]; lia).
  assert (H2 : fits 1 (Z.of_nat k - 1))
    by (unfold fits; cbn [Zdigits2 digits2_pos]; lia).
  assert (E1 : round_int (2 ^ Z.of_nat k) 0 = round_int 1 (Z.of_nat k)).
  { unfold round_int. f_equal.
    pose proof (grid_scale 1 (Z.of_nat k) k H1) as E. unfold grid in E.
    rewrite Z.mul_1_l, Z.sub_diag in E. exact E. }
  assert (E2 : round_int (2 ^ Z.of_nat k) (-1) = round_int 1 (Z.of_nat k - 1)).
  { unfold round_int. f_equal.
    pose proof (grid_scale 1 (Z.of_nat k - 1) k H2) as E. unfold grid in E.
    rewrite Z.mul_1_l in E.
    replace (Z.of_nat k - 1 - Z.of_nat k)%Z with (-1)%Z in E by lia. exact E. }
  unfold float_of_int, int_half. rewrite E1, E2.
  rewrite (proj2 (grid_float _ _ H1)), (proj2 (grid_float _ _ H2)).
  split; reflexivity.
Qed.

(** ** The bisection ends *)

Section BisectionEnds.
Variable ker : kernels.
Variables (A : matrix) (y : vec) (sigma : float) (d : Z) (tol : float).
Variables (L : float) (x0 : vec) (gtol : float) (gmaxit : pynum).
Variables (k N : nat).

Hypothesis Hk : (k <= 1023)%nat.
Hypothesis HN : (N <= 52)%nat.
Hypothesis Htol :
  py_leb (PFloat (round_int 1 (Z.of_nat k - Z.of_nat N))) (PFloat tol) = true.
Hypothesis Htrials :
  forall g : float,
    exists (x : vec) (c : pynum) (e : float),
      solve ker A y d L x0 gtol gmaxit (PFloat g) = Ok (x, c)
      /\ residual ker A x y = Ok e.

Let bisect := bisection ker A y sigma d tol L x0 gtol gmaxit.

Let ended := bisection_ended ker A y sigma d tol L x0 gtol gmaxit k N.

Lemma bracket_sum (j : nat) (gl gu : pynum) :
  (j <= 52)%nat -> bracket_at k j gl gu ->
  exists (a : Z) (fl fu : float),
    (0 <= a < 2 ^ Z.of_nat j)%Z
    /\ on_grid fl a (Z.of_nat k - Z.of_nat j)
    /\ Prim2SF fu = grid (a + 1) (Z.of_nat k - Z.of_nat j)
    /\ float_view gl = Ok fl /\ float_view gu = Ok fu
    /\ py_sub gu gl = Ok (PFloat (round_int 1 (Z.of_nat k - Z.of_nat j)))
    /\ py_add gl gu = Ok (PFloat (fl + fu))
    /\ Prim2SF ((fl + fu) / 2)
       = grid (2 * a + 1) (Z.of_nat k - Z.of_nat (S j)).
Proof.
  intros Hj [Hmix [a [fl [fu [Ha [Hl [Hu [Gl Gu]]]]]]]].
  assert (Hpow : (2 * 2 ^ Z.of_nat j = 2 ^ (Z.of_nat j + 1))%Z)
    by (rewrite Z.pow_add_r by lia; simpl (2 ^ 1)%Z; lia).
  destruct (fits_cell k j (a + 1) Hk Hj ltac:(lia)) as [Fu _].
  destruct (fits_cell k j (2 * a + 1) Hk Hj ltac:(lia)) as [Fs Fs'].
  destruct (fits_cell k j 1 Hk Hj ltac:(lia)) as [F1 _].
  assert (Eu : Prim2SF fu = grid (a + 1) (Z.of_nat k - Z.of_nat j)).
  { destruct Gu as [[E _] | [_ E]]; [lia | exact E]. }
  exists a, fl, fu. repeat (split; [assumption|]).
  split; [|split].
  - rewrite (py_sub_view gu gl fu fl Hmix Hu Hl). do 2 f_equal.
    apply float_is_grid. now apply (cell_width fl fu a).
  - exact (py_add_view gl gu fl fu Hmix Hl Hu).
  - rewrite div_spec, (cell_sum fl fu a _ Gl Fu Eu Fs), (grid_half _ _ Fs Fs').
    f_equal. lia.
Qed.

Lemma bisection_ends_from (n : nat) :
  forall (j : nat) (gl gu : pynum) (xo : option vec) (fuel : nat),
    (j + n = N)%nat -> bracket_at k j gl gu -> (n <= fuel)%nat ->
    ended fuel gl gu xo.
Proof.
  induction n as [|n IH]; intros j gl gu xo fuel Hjn Hb Hfuel.
  - (* the width has come down to [2 ^ (k - N)] *)
    assert (Hj : (j <= 52)%nat) by lia.
    destruct (bracket_sum j gl gu Hj Hb)
      as [a [fl [fu [Ha [_ [_ [_ [_ [Hsub [Hadd Hmid]]]]]]]]]].
    exists gl, gu, xo, (PFloat (fl + fu)), ((fl + fu) / 2)%float.
    split; [|split; [now left | split; [exact Hadd | split; [reflexivity|]]]].
    + replace j with N in Hsub by lia. unfold bisect.
      destruct fuel; cbn [bisection]; rewrite Hsub; cbn [bind];
        now rewrite (py_leb_gtb_false _ _ Htol).
    + exists j, a. split; [lia|]. split; [exact Ha|].
      now apply float_is_grid.
  - assert (Hj : (j <= 52)%nat) by lia.
    destruct (bracket_sum j gl gu Hj Hb)
      as [a [fl [fu [Ha [Gl [Eu [Hl [Hu [Hsub [Hadd Hmid]]]]]]]]]].
    destruct (py_gtb (PFloat (round_int 1 (Z.of_nat k - Z.of_nat j)))
                (PFloat tol)) eqn:Hg.
    + destruct fuel as [|fuel]; [lia|].
      destruct (Htrials ((fl + fu) / 2)%float) as [x [c [e [Hs He]]]].
      assert (Hpow : (2 * 2 ^ Z.of_nat j = 2 ^ Z.of_nat (S j))%Z)
        by (rewrite Nat2Z.inj_succ, Z.pow_succ_r by lia; lia).
      assert (Hpow1 : (2 * 2 ^ Z.of_nat j = 2 ^ (Z.of_nat j + 1))%Z)
        by (rewrite Z.pow_add_r by lia; simpl (2 ^ 1)%Z; lia).
      assert (Hpow2 : (4 * 2 ^ Z.of_nat j = 2 ^ (Z.of_nat (S j) + 1))%Z)
        by (rewrite Z.pow_add_r, <- Hpow by lia; simpl (2 ^ 1)%Z; lia).
      assert (Hj1 : (S j <= 52)%nat) by lia.
      assert (Hstep : bisect (S fuel) gl gu xo
                      = if (e <? sigma)%float
                        then bisect fuel (PFloat ((fl + fu) / 2)%float) gu
                               (Some x)
                        else bisect fuel gl (PFloat ((fl + fu) / 2)%float)
                               (Some x)).
      { unfold bisect. cbn [bisection]. rewrite Hsub. cbn [bind].
        rewrite Hg, Hadd. cbn [bind py_half]. rewrite Hs. cbn [bind].
        rewrite He. reflexivity. }
      assert (Hnext : ended fuel
                        (if (e <? sigma)%float
                         then PFloat ((fl + fu) / 2)%float else gl)
                        (if (e <? sigma)%float
                         then gu else PFloat ((fl + fu) / 2)%float)
                        (Some x)).
      { apply (IH (S j)); [lia | | lia].
        destruct (fits_cell k (S j) (2 * a + 1) Hk Hj1 ltac:(lia)) as [Fm _].
        destruct (e <? sigma)%float.
        - split; [discriminate|].
          exists (2 * a + 1)%Z, ((fl + fu) / 2)%float, fu.
          split; [lia|]. split; [reflexivity|]. split; [exact Hu|]. split.
          + right. now split.
          + replace (2 * a + 1 + 1)%Z with (2 * (a + 1))%Z by lia.
            replace (Z.of_nat k - Z.of_nat (S j))%Z
              with (Z.of_nat k - Z.of_nat j - 1)%Z by lia.
            apply on_grid_refine.
            * right. split; [|exact Eu].
              apply (fits_cell k j (a + 1) Hk Hj). lia.
            * left.
              replace (Z.of_nat k - Z.of_nat j - 1)%Z
                with (Z.of_nat k - Z.of_nat (S j))%Z by lia.
              apply (fits_cell k (S j) (2 * (a + 1)) Hk Hj1). lia.
        - split; [discriminate|].
          exists (2 * a)%Z, fl, ((fl + fu) / 2)%float.
          split; [lia|]. split; [exact Hl|]. split; [reflexivity|]. split.
          + replace (Z.of_nat k - Z.of_nat (S j))%Z
              with (Z.of_nat k - Z.of_nat j - 1)%Z by lia.
            apply on_grid_refine; [exact Gl|].
            destruct (Z.eq_dec a 0) as [-> | Hne]; [now right | left].
            replace (Z.of_nat k - Z.of_nat j - 1)%Z
              with (Z.of_nat k - Z.of_nat (S j))%Z by lia.
            apply (fits_cell k (S j) (2 * a) Hk Hj1). lia.
          + right. now split. }
      destruct Hnext as [gl' [gu' [xo' [s [gs [Hb' [Hxo [Hs' [Hgs Hodd]]]]]]]]].
      exists gl', gu', xo', s, gs.
      split; [|split; [|split; [exact Hs' | split; [exact Hgs | exact Hodd]]]].
      * change (bisect (S fuel) gl gu xo = Ok (gl', gu', xo')).
        rewrite Hstep. destruct (e <? sigma)%float; exact Hb'.
      * right. destruct Hxo as [-> | Hx]; [now exists x | exact Hx].
    + exists gl, gu, xo, (PFloat (fl + fu)), ((fl + fu) / 2)%float.
      split; [|split; [now left | split; [exact Hadd | split; [reflexivity|]]]].
      * unfold bisect.
        destruct fuel; cbn [bisection]; rewrite Hsub; cbn [bind];
          now rewrite Hg.
      * exists j, a. split; [lia|]. split; [exact Ha|].
        now apply float_is_grid.
Qed.

(** From the bracket [[0, 2 ^ k]] that the doubling loop leaves. *)
Lemma bisection_ends (fuel : nat) :
  (1 <= N)%nat -> (N <= fuel)%nat ->
  ended fuel (PInt 0) (PInt (2 ^ Z.of_nat k)) None.
Proof.
  intros HN1 Hfuel.
  destruct (pow2_view k Hk) as [Hview Hhalf].
  assert (F1 : fits 1 (Z.of_nat k - Z.of_nat 1)) by (apply fits_one; lia).
  destruct (grid_float _ _ F1) as [Emid _].
  change (Z.of_nat 1) with 1%Z in *.
  set (mid := round_int 1 (Z.of_nat k - 1)) in *.
  destruct (py_gtb (PInt (2 ^ Z.of_nat k - 0)) (PFloat tol)) eqn:Hg.
  - destruct fuel as [|fuel]; [lia|].
    destruct (Htrials mid) as [x [c [e [Hs He]]]].
    assert (Hstep : bisect (S fuel) (PInt 0) (PInt (2 ^ Z.of_nat k)) None
                    = if (e <? sigma)%float
                      then bisect fuel (PFloat mid) (PInt (2 ^ Z.of_nat k))
                             (Some x)
                      else bisect fuel (PInt 0) (PFloat mid) (Some x)).
    { unfold bisect. cbn [bisection py_sub bind]. rewrite Hg.
      cbn [py_add bind py_half]. rewrite Z.add_0_l, Hhalf. cbn [bind].
      rewrite Hs. cbn [bind]. rewrite He. reflexivity. }
    assert (Hnext : ended fuel
                      (if (e <? sigma)%float then PFloat mid else PInt 0)
                      (if (e <? sigma)%float
                       then PInt (2 ^ Z.of_nat k) else PFloat mid)
                      (Some x)).
    { apply (bisection_ends_from (N - 1) 1); [lia | | lia].
      change (Z.of_nat 1) with 1%Z.
      destruct (e <? sigma)%float.
      - split; [discriminate|].
        exists 1%Z, mid, (round_int 1 (Z.of_nat k)).
        split; [simpl; lia|]. split; [reflexivity|]. split; [exact Hview|].
        split; [right; now split|].
        assert (Fk : fits 1 (Z.of_nat k))
          by (unfold fits; cbn [Zdigits2 digits2_pos]; lia).
        change (1 + 1)%Z with (2 * 1)%Z. apply on_grid_refine.
        + right. split; [exact Fk|]. apply (grid_float _ _ Fk).
        + left. change (2 * 1)%Z with 2%Z. unfold fits.
          change (Zdigits2 2) with 2%Z. lia.
      - split; [discriminate|].
        exists 0%Z, 0%float, mid.
        split; [simpl; lia|]. split; [reflexivity|]. split; [reflexivity|].
        split; [left; now split | right; now split]. }
    destruct Hnext as [gl' [gu' [xo' [s [gs [Hb' [Hxo [Hs' [Hgs Hodd]]]]]]]]].
    exists gl', gu', xo', s, gs.
    split; [|split; [|split; [exact Hs' | split; [exact Hgs | exact Hodd]]]].
    + change (bisect (S fuel) (PInt 0) (PInt (2 ^ Z.of_nat k)) None
              = Ok (gl', gu', xo')).
      rewrite Hstep. destruct (e <? sigma)%float; exact Hb'.
    + right. destruct Hxo as [-> | Hx]; [now exists x | exact Hx].
  - exists (PInt 0), (PInt (2 ^ Z.of_nat k)), None,
      (PInt (2 ^ Z.of_nat k)), mid.
    split; [|split; [now left | split; [reflexivity | split; [exact Hhalf|]]]].
    + unfold bisect.
      destruct fuel; cbn [bisection py_sub bind]; now rewrite Hg.
    + exists 0%nat, 0%Z. split; [lia|]. split; [simpl; lia | reflexivity].
Qed.
End BisectionEnds.

(** X20: the bisection of [lscgnm] ends, and the call returns a vector.
    Suppose the doubling loop has left [gamma_u = 2 ^ k] with [k <= 1023],
    [tol] is below [2 ^ k] and at least [2 ^ (k - N)] for some [N] from 1 to
    52, and every trial returns.  Then each pass halves the bracket
    exactly, so that after at most [N] passes its width is no more than
    [tol]: with [N] passes allowed the bisection returns with [x_opt] bound
    and [lscgnm] returns that vector with a float [gamma_star], an odd
    multiple [(2 a + 1) * 2 ^ (k - j - 1)] of a power of two for some
    [j <= N] and [a < 2 ^ j], hence strictly between 0 and [2 ^ k].  For the
    default [tol = 1e-3] this is [N = k + 10]. *)
Theorem lscgnm_bisection_ends (ker : kernels) (fuel : nat) (A : matrix)
    (y : vec) (sigma : float) (d : Z) (tol : float) (x0 : vec) (gtol : float)
    (gmaxit : pynum) (L : float) (x : vec) (c : pynum) (sigma0 : float)
    (k N : nat) :
  lipschitz ker A = Ok L ->
  solve ker A y d L x0 gtol gmaxit (PFloat gamma0) = Ok (x, c) ->
  residual ker A x y = Ok sigma0 ->
  (sigma0 <=? sigma)%float = true ->
  (norm ker y <=? sigma)%float = false ->
  doubling ker A y sigma d L x0 gtol gmaxit fuel 1 = Ok (2 ^ Z.of_nat k)%Z ->
  (k <= 1023)%nat -> (1 <= N <= 52)%nat -> (N <= fuel)%nat ->
  py_gtb (PInt (2 ^ Z.of_nat k)) (PFloat tol) = true ->
  py_leb (PFloat (round_int 1 (Z.of_nat k - Z.of_nat N))) (PFloat tol) = true ->
  (forall g : float,
      exists (xg : vec) (cg : pynum) (e : float),
        solve ker A y d L x0 gtol gmaxit (PFloat g) = Ok (xg, cg)
        /\ residual ker A xg y = Ok e) ->
  exists (x_opt : vec) (gamma_l gamma_u : pynum) (gamma_star : float),
    bisection ker A y sigma d tol L x0 gtol gmaxit fuel (PInt 0)
      (PInt (2 ^ Z.of_nat k)) None
    = Ok (gamma_l, gamma_u, Some x_opt)
    /\ lscgnm ker fuel A y sigma d tol x0 gtol gmaxit
       = Ok (Some x_opt, PFloat gamma_star)
    /\ exists (j : nat) (a : Z),
         (j <= N)%nat /\ (0 <= a < 2 ^ Z.of_nat j)%Z
         /\ gamma_star
            = round_int (2 * a + 1) (Z.of_nat k - Z.of_nat (S j)).
Proof.
  intros HL Hsolve Hres Hfeas Htriv Hdbl Hk [HN1 HN] Hfuel Hgt Hle Htrials.
  destruct (bisection_ends ker A y sigma d tol L x0 gtol gmaxit k N Hk HN Hle
              Htrials fuel HN1 Hfuel)
    as [gl [gu [xo [s [gs [Hb [Hxo [Hadd [Hhalf Hodd]]]]]]]]].
  assert (Hsome : exists x_opt, xo = Some x_opt).
  { destruct Hxo as [-> | Hx]; [|exact Hx]. exfalso.
    destruct (bisection_returns _ _ _ _ _ _ _ _ _ _ _ _ _ _ _ _ _ Hb)
      as [[w [Hw Hg]] [[-> [-> _]] | [x' [Hx' _]]]]; [|discriminate].
    cbn [py_sub] in Hw. injection Hw as <-.
    rewrite Z.sub_0_r in Hg. congruence. }
  destruct Hsome as [x_opt ->].
  exists x_opt, gl, gu, gs. split; [exact Hb|]. split; [|exact Hodd].
  unfold lscgnm. rewrite HL. cbn [bind]. rewrite Hsolve. cbn [bind].
  rewrite Hres. cbn [bind]. rewrite Hfeas, Htriv, Hdbl. cbn [bind].
  rewrite Hb. cbn [bind]. rewrite Hadd. cbn [bind]. rewrite Hhalf.
  reflexivity.
Qed.

Lemma demo_trials_return (g : float) :
  exists (xg : vec) (cg : pynum) (e : float),
    solve demo_kernels demo_A demo_y 2 1%float [0; 0]%float 1e-6%float
      (PInt 1) (PFloat g) = Ok (xg, cg)
    /\ residual demo_kernels demo_A xg demo_y = Ok e.
Proof.
  unfold solve, apgd. cbn [py_range bind].
  change (Z.to_nat 1) with 1%nat. cbn [apgd_loop].
  unfold apgd_step. cbn [st_z st_x st_t].
  change (grad_least_squares demo_kernels demo_A [0; 0]%float demo_y)
    with (Ok [-1; 0]%float : outcome vec).
  cbn [bind].
  change (vsub [0; 0]%float (scale (1 / 1) [-1; 0]%float))
    with (Ok [1; 0]%float : outcome vec).
  cbn [bind py_mul_float].
  unfold prox12norm at 1.
  change (reshape [1; 0]%float 2) with (Ok [[1; 0]%float] : outcome (list vec)).
  cbn [bind map concat app shrink scale].
  change (t_update demo_kernels (PInt 1))
    with (Ok 1.618033988749895%float : outcome float).
  cbn [bind].
  change (momentum (PInt 1) 1.618033988749895)
    with (Ok 0%float : outcome float).
  cbn [bind vsub vadd broadcast length Nat.eqb map2 map scale].
  destruct (norm demo_kernels _ <=? _)%float; cbn [bind st_x];
    do 3 eexists; split; reflexivity.
Qed.

Lemma lscgnm_bisection_ends_witness :
  exists (x_opt : vec) (gamma_l gamma_u : pynum) (gamma_star : float),
    bisection demo_kernels demo_A demo_y 0.5%float 2 0.001%float 1%float
      [0; 0]%float 1e-6%float (PInt 1) 10 (PInt 0) (PInt (2 ^ Z.of_nat 0))
      None
    = Ok (gamma_l, gamma_u, Some x_opt)
    /\ lscgnm demo_kernels 10 demo_A demo_y 0.5%float 2 0.001%float
         [0; 0]%float 1e-6%float (PInt 1)
       = Ok (Some x_opt, PFloat gamma_star)
    /\ exists (j : nat) (a : Z),
         (j <= 10)%nat /\ (0 <= a < 2 ^ Z.of_nat j)%Z
         /\ gamma_star
            = round_int (2 * a + 1) (Z.of_nat 0 - Z.of_nat (S j)).
Proof.
  eapply (lscgnm_bisection_ends demo_kernels 10 demo_A demo_y 0.5%float 2
            0.001%float [0; 0]%float 1e-6%float (PInt 1) 1%float _ _ _ 0 10).
  - reflexivity.
  - vm_compute. reflexivity.
  - vm_compute. reflexivity.
  - reflexivity.
  - reflexivity.
  - vm_compute. reflexivity.
  - lia.
  - lia.
  - lia.
  - reflexivity.
  - vm_compute. reflexivity.
  - exact demo_trials_return.
Defined.
